(** * ShieldAPI MCP server: a shallow embedding of [src/index.ts]

    The development follows the layout of the TypeScript module:
    the platform types it relies on (strings of UTF-16 code units,
    regular expressions, JSON, URL and URLSearchParams), then the
    module's own functions ([detectTargetType], [formatResult],
    [callShieldApi], [initPaymentFetch], the tool registrations), and
    finally the statements proved about them. *)

From Stdlib Require Import List NArith ZArith String Ascii Bool Lia.
Import ListNotations.


Local Open Scope list_scope.

(* ===================================================================== *)
(** * ECMAScript strings *)
(* ===================================================================== *)

(** An ECMAScript string is a finite sequence of 16-bit code units.  A
    code unit is kept as an [N]; [wf_string] says that every element is
    below 2^16. *)

Definition codeunit := N.
Definition jsstring := list codeunit.

Definition wf_codeunit (c : codeunit) : Prop := (c < 65536)%N.
Definition wf_string (s : jsstring) : Prop := Forall wf_codeunit s.

(** String literals of the source are ASCII; [lit] turns a Rocq string
    into the code units of the literal. *)
Definition lit (s : string) : jsstring :=
  List.map N_of_ascii (list_ascii_of_string s).

Definition cu (a : ascii) : codeunit := N_of_ascii a.

Fixpoint str_eqb (a b : jsstring) : bool :=
  match a, b with
  | [], [] => true
  | x :: a', y :: b' => N.eqb x y && str_eqb a' b'
  | _, _ => false
  end.

(** [String.prototype.startsWith(p)] with the default position 0. *)
Fixpoint startsWith (s p : jsstring) {struct p} : bool :=
  match p, s with
  | [], _ => true
  | c :: p', d :: s' => N.eqb c d && startsWith s' p'
  | _ :: _, [] => false
  end.

(** [String.prototype.includes(p)]: [p] occurs at some index of [s]. *)
Fixpoint includes (s p : jsstring) : bool :=
  startsWith s p ||
  match s with
  | [] => false
  | _ :: s' => includes s' p
  end.

(** The longest prefix of [s] whose code units satisfy [p], and the rest. *)
Fixpoint span (p : codeunit -> bool) (s : jsstring) : jsstring * jsstring :=
  match s with
  | c :: t => if p c then let (a, r) := span p t in (c :: a, r) else ([], s)
  | [] => ([], [])
  end.

(** [String.prototype.substring(0, n)]: the first [n] code units (the
    whole string when it is shorter). *)
Definition substring0 (s : jsstring) (n : nat) : jsstring := firstn n s.

(* ===================================================================== *)
(** * Regular expressions *)
(* ===================================================================== *)

(** The fragment of the ECMAScript pattern language the module uses:
    character classes, concatenation and [+], matched against the whole
    input (the pattern is anchored by [^] and [$] and carries no flag,
    so [$] is the end of the input).  [RegExp_test] decides membership
    by Brzozowski derivatives. *)

Module RegExp.

Inductive re : Type :=
| Void : re
| Eps : re
| Class : (codeunit -> bool) -> re
| Cat : re -> re -> re
| Alt : re -> re -> re
| Star : re -> re.

Definition Plus (r : re) : re := Cat r (Star r).

Fixpoint nullable (r : re) : bool :=
  match r with
  | Void => false
  | Eps => true
  | Class _ => false
  | Cat a b => nullable a && nullable b
  | Alt a b => nullable a || nullable b
  | Star _ => true
  end.

Fixpoint deriv (c : codeunit) (r : re) : re :=
  match r with
  | Void => Void
  | Eps => Void
  | Class p => if p c then Eps else Void
  | Cat a b =>
      if nullable a
      then Alt (Cat (deriv c a) b) (deriv c b)
      else Cat (deriv c a) b
  | Alt a b => Alt (deriv c a) (deriv c b)
  | Star a => Cat (deriv c a) (Star a)
  end.

Fixpoint matches (r : re) (s : jsstring) : bool :=
  match s with
  | [] => nullable r
  | c :: s' => matches (deriv c r) s'
  end.

(** The language of a pattern, as the grammar defines it. *)
Inductive Lang : re -> jsstring -> Prop :=
| L_eps : Lang Eps []
| L_class p c : p c = true -> Lang (Class p) [c]
| L_cat a b s t : Lang a s -> Lang b t -> Lang (Cat a b) (s ++ t)
| L_alt_l a b s : Lang a s -> Lang (Alt a b) s
| L_alt_r a b s : Lang b s -> Lang (Alt a b) s
| L_star_nil a : Lang (Star a) []
| L_star_cons a s t : Lang a s -> Lang (Star a) t -> Lang (Star a) (s ++ t).

(** [\d]: an ASCII digit (with or without the [u] flag). *)
Definition is_digit (c : codeunit) : bool := (48 <=? c)%N && (c <=? 57)%N.
Definition digit : re := Class is_digit.
Definition chr (a : ascii) : re := Class (N.eqb (cu a)).

End RegExp.

(** [/^\d+\.\d+\.\d+\.\d+$/] *)
Definition ipv4_pattern : RegExp.re :=
  let d := RegExp.Plus RegExp.digit in
  let dot := RegExp.chr "."%char in
  RegExp.Cat d (RegExp.Cat dot (RegExp.Cat d (RegExp.Cat dot
    (RegExp.Cat d (RegExp.Cat dot d))))).

(** [RegExp.prototype.test] for an anchored pattern without flags. *)
Definition RegExp_test (r : RegExp.re) (s : jsstring) : bool :=
  RegExp.matches r s.

(* ===================================================================== *)
(** * Plain objects with string values *)
(* ===================================================================== *)

(** A [Record<string, string>] is kept as the list of its own
    enumerable entries, in the order [Object.entries] yields them. *)
Definition StrRecord := list (jsstring * jsstring).

Definition keys (o : StrRecord) : list jsstring := List.map fst o.

(* ===================================================================== *)
(** * [detectTargetType] *)
(* ===================================================================== *)

Definition detectTargetType (target : jsstring) : StrRecord :=
  if includes target (lit "@") then [(lit "email", target)]
  else if RegExp_test ipv4_pattern target then [(lit "ip", target)]
  else if startsWith target (lit "http://") || startsWith target (lit "https://")
       then [(lit "url", target)]
  else [(lit "domain", target)].

(* ===================================================================== *)
(** * ECMAScript numbers *)
(* ===================================================================== *)

(** The Number type is IEEE 754 binary64.  A finite value is
    [(-1)^neg * m * 2^e]; [canonical] picks the one representation the
    format stores (53-bit significand, normalised unless the exponent is
    the least one).  [NaN] is left out: JSON text never denotes it. *)

Inductive Number : Type :=
| Fin (neg : bool) (m e : Z)
| Inf (neg : bool).

Definition canonical (x : Number) : Prop :=
  match x with
  | Fin _ m e =>
      (0 <= m < 2 ^ 53 /\ -1074 <= e <= 971 /\ (2 ^ 52 <= m \/ e = -1074))%Z
  | Inf _ => False
  end.

Definition Number_eqb (x y : Number) : bool :=
  match x, y with
  | Fin s m e, Fin s' m' e' => Bool.eqb s s' && Z.eqb m m' && Z.eqb e e'
  | Inf s, Inf s' => Bool.eqb s s'
  | _, _ => false
  end.

(** [Number::equal]: the two zeros are equal. *)
Definition Number_equal (x y : Number) : bool :=
  match x, y with
  | Fin _ 0 _, Fin _ 0 _ => true
  | _, _ => Number_eqb x y
  end.

Local Open Scope Z_scope.
Local Open Scope list_scope.

(** [r ^ n] by repeated squaring. *)
Definition pow (r n : Z) : Z :=
  match n with
  | Z0 => 1
  | Zpos p => Pos.iter_op Z.mul p r
  | Zneg _ => 0
  end.

(** [ge_scaled r a b j]: [r^j <= a / b], for [b > 0]. *)
Definition ge_scaled (r a b j : Z) : bool :=
  if 0 <=? j then b * pow r j <=? a else b <=? a * pow r (- j).

(** The largest [j' <= j] with [r^j' <= a / b], looking at [fuel]
    exponents downwards; [j - fuel] when there is none. *)
Fixpoint find_expo (r : Z) (fuel : nat) (j a b : Z) : Z :=
  match fuel with
  | O => j
  | S f => if ge_scaled r a b j then j else find_expo r f (j - 1) a b
  end.

(** The integer nearest to [num / den], ties to the even one. *)
Definition round_div (num den : Z) : Z :=
  let q := num / den in
  let r := num mod den in
  if 2 * r <? den then q
  else if den <? 2 * r then q + 1
  else if Z.even q then q else q + 1.

(** The Number value for the rational [a / b] ([a >= 0], [b > 0]) with
    sign [neg]: round to nearest, ties to even, overflow to infinity.
    The binary exponent [j] of [a / b] ([2^j <= a / b < 2^(j+1)]) is
    [log2 a - log2 b] or one less; values below the least normal binade
    are rounded at the subnormal spacing 2^-1074. *)
Definition Frat (neg : bool) (a b : Z) : Number :=
  if a =? 0 then Fin neg 0 (-1074)
  else
    let j := Z.max (find_expo 2 2 (Z.log2 a - Z.log2 b) a b) (-1022) in
    if 1024 <=? j then Inf neg
    else
      let e := j - 52 in
      let m := if 0 <=? e then round_div a (b * pow 2 e)
               else round_div (a * pow 2 (- e)) b in
      if m =? pow 2 53
      then if e =? 971 then Inf neg else Fin neg (pow 2 52) (e + 1)
      else Fin neg m e.

(** The Number value for the decimal [s * 10^p]. *)
Definition Fdec (neg : bool) (s p : Z) : Number :=
  if 0 <=? p then Frat neg (s * pow 10 p) 1 else Frat neg s (pow 10 (- p)).

(** Decimal digits of a non-negative integer, most significant first. *)
Fixpoint digits_aux (fuel : nat) (n : Z) (acc : jsstring) : jsstring :=
  match fuel with
  | O => acc
  | S f =>
      let d := Z.to_N (48 + n mod 10) in
      if n <? 10 then d :: acc else digits_aux f (n / 10) (d :: acc)
  end.

Definition digits (n : Z) : jsstring :=
  digits_aux (S (Z.to_nat (Z.log2 n))) n [].

(** Removes the trailing zeros of [s], keeping [s * 10^p]. *)
Fixpoint strip_zeros (fuel : nat) (s p : Z) : Z * Z :=
  match fuel with
  | O => (s, p)
  | S f => if (s mod 10 =? 0) && (0 <? s) then strip_zeros f (s / 10) (p + 1)
           else (s, p)
  end.

(** Number::toString, step 5 of the specification: integers [n], [k],
    [s] with [k >= 1], [10^(k-1) <= s < 10^k], the Number value for
    [s * 10^(n-k)] being [x], and [k] as small as possible.  For each
    [k] in turn the two [k]-digit decimals around [x = a / b] are
    tried; when both denote [x] the nearer is taken (the even one on a
    tie).  The result is the pair [(s, n - k)]. *)
Fixpoint shortest (fuel : nat) (k n a b : Z) (x : Number) : option (Z * Z) :=
  match fuel with
  | O => None
  | S f =>
      let p := n - k in
      let num := if 0 <=? p then a else a * pow 10 (- p) in
      let den := if 0 <=? p then b * pow 10 p else b in
      let lo := num / den in
      let r := num mod den in
      let hi := lo + 1 in
      let ok_lo := Number_eqb (Fdec false lo p) x in
      let ok_hi := Number_eqb (Fdec false hi p) x in
      if ok_lo && ok_hi then
        Some (if 2 * r <? den then lo
              else if den <? 2 * r then hi
              else if Z.even lo then lo else hi, p)
      else if ok_lo then Some (lo, p)
      else if ok_hi then Some (hi, p)
      else shortest f (k + 1) n a b x
  end.

(** [x = m * 2^e] is first written as [a / b]; its decimal exponent
    [n] (with [10^(n-1) <= x < 10^n]) is looked for downwards from an
    upper estimate: [x < 2^(e+53)], and [2^3 < 10 < 2^4]. *)
Definition shortest_decimal (m e : Z) : option (Z * Z) :=
  let a := if 0 <=? e then m * pow 2 e else m in
  let b := if 0 <=? e then 1 else pow 2 (- e) in
  let t := e + 53 in
  let start := if 0 <=? t then (t + 2) / 3 else - ((- t) / 4) in
  let n := find_expo 10 700 start a b + 1 in
  match shortest 1500 1 n a b (Fin false m e) with
  | Some (s, p) => Some (strip_zeros (Z.to_nat (Z.log2 s)) s p)
  | None => None
  end.

Definition zeros (n : Z) : jsstring := repeat (cu "0") (Z.to_nat n).

(** Number::toString, steps 6 to 10: the layout of the digits. *)
Definition layout (s p : Z) : jsstring :=
  let ds := digits s in
  let k := Z.of_nat (List.length ds) in
  let n := p + k in
  if (k <=? n) && (n <=? 21) then ds ++ zeros (n - k)
  else if (0 <? n) && (n <=? 21) then
    firstn (Z.to_nat n) ds ++ lit "." ++ skipn (Z.to_nat n) ds
  else if (-6 <? n) && (n <=? 0) then lit "0." ++ zeros (- n) ++ ds
  else
    let e := n - 1 in
    let sign := if e <? 0 then lit "-" else lit "+" in
    if k =? 1 then ds ++ lit "e" ++ sign ++ digits (Z.abs e)
    else firstn 1 ds ++ lit "." ++ skipn 1 ds ++ lit "e" ++ sign ++ digits (Z.abs e).

Definition Number_toString (x : Number) : jsstring :=
  match x with
  | Inf neg => (if neg then lit "-" else []) ++ lit "Infinity"
  | Fin neg m e =>
      if m =? 0 then lit "0"
      else (if neg then lit "-" else []) ++
           match shortest_decimal m e with
           | Some (s, p) => layout s p
           | None => []
           end
  end.

Local Close Scope Z_scope.

(* ===================================================================== *)
(** * JSON *)
(* ===================================================================== *)

(** The values [JSON.parse] builds.  An object is the list of its own
    properties in [OrdinaryOwnPropertyKeys] order: array indices first,
    ascending, then the other keys in creation order. *)

#[warnings="-register-all"]
Inductive JSON : Type :=
| JNull
| JBool (b : bool)
| JNumber (x : Number)
| JString (s : jsstring)
| JArray (items : list JSON)
| JObject (props : list (jsstring * JSON)).

Definition is_char (c : codeunit) (a : ascii) : bool := N.eqb c (cu a).

Definition is_digit (c : codeunit) : bool := RegExp.is_digit c.

(** The value of a string of decimal digits. *)
Definition digits_value (ds : jsstring) : Z :=
  fold_left (fun acc d => 10 * acc + (Z.of_N d - 48))%Z ds 0%Z.

(** ** Property keys *)

(** An array index is a canonical numeric string for an integer below
    2^32 - 1. *)
Definition array_index (k : jsstring) : option Z :=
  match k with
  | [] => None
  | c :: t =>
      if forallb is_digit k && (negb (is_char c "0") || match t with [] => true | _ => false end)
      then let i := digits_value k in
           if (i <? 4294967295)%Z then Some i else None
      else None
  end.

Fixpoint has_key (k : jsstring) (ps : list (jsstring * JSON)) : bool :=
  match ps with
  | [] => false
  | (k', _) :: ps' => str_eqb k k' || has_key k ps'
  end.

Fixpoint replace_value (k : jsstring) (v : JSON) (ps : list (jsstring * JSON))
  : list (jsstring * JSON) :=
  match ps with
  | [] => []
  | (k', v') :: ps' =>
      if str_eqb k k' then (k', v) :: ps' else (k', v') :: replace_value k v ps'
  end.

(** A new index key goes before the first key that is no index or is a
    larger index. *)
Fixpoint insert_index (k : jsstring) (i : Z) (v : JSON) (ps : list (jsstring * JSON))
  : list (jsstring * JSON) :=
  match ps with
  | [] => [(k, v)]
  | (k', v') :: ps' =>
      match array_index k' with
      | Some i' => if (i' <? i)%Z then (k', v') :: insert_index k i v ps'
                   else (k, v) :: ps
      | None => (k, v) :: ps
      end
  end.

(** [CreateDataProperty] on an ordinary object. *)
Definition obj_define (ps : list (jsstring * JSON)) (k : jsstring) (v : JSON)
  : list (jsstring * JSON) :=
  if has_key k ps then replace_value k v ps
  else match array_index k with
       | Some i => insert_index k i v ps
       | None => ps ++ [(k, v)]
       end.

Fixpoint str_mem (k : jsstring) (ks : list jsstring) : bool :=
  match ks with
  | [] => false
  | k' :: ks' => str_eqb k k' || str_mem k ks'
  end.

Fixpoint distinct (ks : list jsstring) : bool :=
  match ks with
  | [] => true
  | k :: ks' => negb (str_mem k ks') && distinct ks'
  end.

(** The order of the own property keys of an object: strictly
    ascending indices, then pairwise distinct non-index keys. *)
Fixpoint own_keys_from (prev : Z) (ks : list jsstring) : bool :=
  match ks with
  | [] => true
  | k :: ks' =>
      match array_index k with
      | Some i => (prev <? i)%Z && own_keys_from i ks'
      | None =>
          forallb (fun k' => match array_index k' with None => true | Some _ => false end) ks'
          && distinct ks
      end
  end.

Definition own_keys (ks : list jsstring) : bool := own_keys_from (-1) ks.

(** ** JSON.stringify *)

Definition hex_digit (n : N) : codeunit :=
  if (n <? 10)%N then (48 + n)%N else (87 + n)%N.

(** [UnicodeEscape]: a backslash, [u] and four lowercase hex digits. *)
Definition unicode_escape (c : codeunit) : jsstring :=
  lit "\u" ++ [hex_digit (c / 4096); hex_digit ((c / 256) mod 16);
               hex_digit ((c / 16) mod 16); hex_digit (c mod 16)]%N.

Definition is_high_surrogate (c : codeunit) : bool := (55296 <=? c)%N && (c <=? 56319)%N.
Definition is_low_surrogate (c : codeunit) : bool := (56320 <=? c)%N && (c <=? 57343)%N.

(** One code unit that is not the first half of a surrogate pair. *)
Definition quote_unit (c : codeunit) : jsstring :=
  if (c =? 8)%N then lit "\b"
  else if (c =? 9)%N then lit "\t"
  else if (c =? 10)%N then lit "\n"
  else if (c =? 12)%N then lit "\f"
  else if (c =? 13)%N then lit "\r"
  else if (c =? 34)%N then [92; 34]%N
  else if (c =? 92)%N then [92; 92]%N
  else if (c <? 32)%N || is_low_surrogate c || is_high_surrogate c then unicode_escape c
  else [c].

(** The characters of [QuoteJSONString]: the string is read code point
    by code point, so a well-formed surrogate pair is copied and a lone
    surrogate is escaped. *)
Fixpoint quote_chars (s : jsstring) : jsstring :=
  match s with
  | [] => []
  | c :: t =>
      if is_high_surrogate c then
        match t with
        | d :: t' =>
            if is_low_surrogate d then c :: d :: quote_chars t'
            else unicode_escape c ++ quote_chars t
        | [] => unicode_escape c
        end
      else quote_unit c ++ quote_chars t
  end.

Definition QuoteJSONString (s : jsstring) : jsstring :=
  [34%N] ++ quote_chars s ++ [34%N].

Fixpoint join (sep : jsstring) (parts : list jsstring) : jsstring :=
  match parts with
  | [] => []
  | [p] => p
  | p :: ps => p ++ sep ++ join sep ps
  end.

Definition is_finite (x : Number) : bool :=
  match x with Fin _ _ _ => true | Inf _ => false end.

Definition newline : jsstring := [10%N].

(** [SerializeJSONProperty], [SerializeJSONObject] and
    [SerializeJSONArray] for a value built by [JSON.parse] (no [toJSON],
    no replacer); [gap] is the indentation unit and [indent] the current
    indentation. *)
Fixpoint SerializeJSONProperty (gap indent : jsstring) (v : JSON) : jsstring :=
  match v with
  | JNull => lit "null"
  | JBool true => lit "true"
  | JBool false => lit "false"
  | JNumber x => if is_finite x then Number_toString x else lit "null"
  | JString s => QuoteJSONString s
  | JArray items =>
      let stepback := indent in
      let indent := indent ++ gap in
      let partial := List.map (SerializeJSONProperty gap indent) items in
      match partial with
      | [] => lit "[]"
      | _ =>
          match gap with
          | [] => lit "[" ++ join (lit ",") partial ++ lit "]"
          | _ => lit "[" ++ newline ++ indent
                 ++ join (lit "," ++ newline ++ indent) partial
                 ++ newline ++ stepback ++ lit "]"
          end
      end
  | JObject props =>
      let stepback := indent in
      let indent := indent ++ gap in
      let colon := match gap with [] => lit ":" | _ => lit ": " end in
      let partial :=
        List.map (fun kv : jsstring * JSON =>
                    let (k, v') := kv in
                    QuoteJSONString k ++ colon ++ SerializeJSONProperty gap indent v')
                 props in
      match partial with
      | [] => lit "{}"
      | _ =>
          match gap with
          | [] => lit "{" ++ join (lit ",") partial ++ lit "}"
          | _ => lit "{" ++ newline ++ indent
                 ++ join (lit "," ++ newline ++ indent) partial
                 ++ newline ++ stepback ++ lit "}"
          end
      end
  end.

(** [JSON.stringify(value, null, space)] for a numeric [space]: the gap
    is [min(10, space)] spaces. *)
Definition JSON_stringify (v : JSON) (space : nat) : jsstring :=
  SerializeJSONProperty (repeat 32%N (Nat.min 10 space)) [] v.

(** ** JSON.parse *)

Definition is_ws (c : codeunit) : bool :=
  (c =? 9)%N || (c =? 10)%N || (c =? 13)%N || (c =? 32)%N.

Fixpoint skip_ws (s : jsstring) : jsstring :=
  match s with
  | c :: t => if is_ws c then skip_ws t else s
  | [] => []
  end.

Definition hex_value (c : codeunit) : option N :=
  if (48 <=? c)%N && (c <=? 57)%N then Some (c - 48)%N
  else if (97 <=? c)%N && (c <=? 102)%N then Some (c - 87)%N
  else if (65 <=? c)%N && (c <=? 70)%N then Some (c - 55)%N
  else None.

Definition hex4_value (h1 h2 h3 h4 : codeunit) : option codeunit :=
  match hex_value h1, hex_value h2, hex_value h3, hex_value h4 with
  | Some a, Some b, Some c, Some d => Some (a * 4096 + b * 256 + c * 16 + d)%N
  | _, _, _, _ => None
  end.

(** The character a single-character escape denotes. *)
Definition simple_escape (e : codeunit) : option codeunit :=
  if (e =? 34)%N then Some 34%N            (* quotation mark *)
  else if (e =? 92)%N then Some 92%N       (* backslash *)
  else if (e =? 47)%N then Some 47%N       (* solidus *)
  else if is_char e "b" then Some 8%N
  else if is_char e "f" then Some 12%N
  else if is_char e "n" then Some 10%N
  else if is_char e "r" then Some 13%N
  else if is_char e "t" then Some 9%N
  else None.

(** The characters of a JSON string after its opening quotation mark,
    up to and including the closing one. *)
Fixpoint parse_string_chars (s : jsstring) : option (jsstring * jsstring) :=
  match s with
  | [] => None
  | c :: t =>
      if (c =? 34)%N then Some ([], t)
      else if (c =? 92)%N then
        match t with
        | [] => None
        | e :: t' =>
            if is_char e "u" then
              match t' with
              | h1 :: h2 :: h3 :: h4 :: t'' =>
                  match hex4_value h1 h2 h3 h4, parse_string_chars t'' with
                  | Some v, Some (r, rest) => Some (v :: r, rest)
                  | _, _ => None
                  end
              | _ => None
              end
            else
              match simple_escape e, parse_string_chars t' with
              | Some v, Some (r, rest) => Some (v :: r, rest)
              | _, _ => None
              end
        end
      else if (c <? 32)%N then None
      else
        match parse_string_chars t with
        | Some (r, rest) => Some (c :: r, rest)
        | None => None
        end
  end.

(** The longest prefix of digits, and what follows it. *)
Definition span_digits (s : jsstring) : jsstring * jsstring := span is_digit s.

(** A JSON number: an optional minus sign; the integer part, which is
    a single 0 or starts with a non-zero digit; an optional fraction (a
    dot and one or more digits); an optional exponent (e or E, an
    optional sign, one or more digits). *)
Definition parse_sign (s : jsstring) : bool * jsstring :=
  match s with
  | c :: t => if is_char c "-" then (true, t) else (false, s)
  | [] => (false, s)
  end.

Definition parse_int (s : jsstring) : option (jsstring * jsstring) :=
  match s with
  | c :: t => if is_char c "0" then Some ([c], t)
              else if is_digit c then Some (span_digits s)
              else None
  | [] => None
  end.

Definition parse_frac (s : jsstring) : option (jsstring * jsstring) :=
  match s with
  | c :: t =>
      if is_char c "." then
        match span_digits t with
        | ([], _) => None
        | (fp, r) => Some (fp, r)
        end
      else Some ([], s)
  | [] => Some ([], s)
  end.

Definition parse_exp (s : jsstring) : option (Z * jsstring) :=
  match s with
  | c :: t =>
      if is_char c "e" || is_char c "E" then
        let (eneg, t1) :=
          match t with
          | d :: t' => if is_char d "-" then (true, t')
                       else if is_char d "+" then (false, t')
                       else (false, t)
          | [] => (false, t)
          end in
        match span_digits t1 with
        | ([], _) => None
        | (ep, r) => Some (if eneg then (- digits_value ep)%Z else digits_value ep, r)
        end
      else Some (0%Z, s)
  | [] => Some (0%Z, s)
  end.

(** The value of a JSON number is the Number value for the decimal it
    denotes, negated after rounding when there is a minus sign. *)
Definition parse_number (s : jsstring) : option (Number * jsstring) :=
  let (neg, s1) := parse_sign s in
  match parse_int s1 with
  | None => None
  | Some (ip, s2) =>
      match parse_frac s2 with
      | None => None
      | Some (fp, s3) =>
          match parse_exp s3 with
          | None => None
          | Some (ex, s4) =>
              Some (Fdec neg (digits_value (ip ++ fp)) (ex - Z.of_nat (List.length fp)), s4)
          end
      end
  end.

Definition expect (word : jsstring) (v : JSON) (s : jsstring) : option (JSON * jsstring) :=
  if startsWith s word then Some (v, skipn (List.length word) s) else None.

(** Recursive descent on the JSON grammar.  [fuel] bounds the nesting
    and the number of elements; [JSON_parse] gives it the length of the
    text, which no text exceeds. *)
Fixpoint parse_value (fuel : nat) (s : jsstring) {struct fuel} : option (JSON * jsstring) :=
  match fuel with
  | O => None
  | S f =>
      match skip_ws s with
      | [] => None
      | c :: t =>
          if is_char c "{" then
            match skip_ws t with
            | d :: r => if is_char d "}" then Some (JObject [], r)
                        else parse_members f [] t
            | [] => None
            end
          else if is_char c "[" then
            match skip_ws t with
            | d :: r => if is_char d "]" then Some (JArray [], r)
                        else match parse_elements f t with
                             | Some (vs, r') => Some (JArray vs, r')
                             | None => None
                             end
            | [] => None
            end
          else if (c =? 34)%N then
            match parse_string_chars t with
            | Some (str, r) => Some (JString str, r)
            | None => None
            end
          else if is_char c "t" then expect (lit "true") (JBool true) (c :: t)
          else if is_char c "f" then expect (lit "false") (JBool false) (c :: t)
          else if is_char c "n" then expect (lit "null") JNull (c :: t)
          else
            match parse_number (c :: t) with
            | Some (x, r) => Some (JNumber x, r)
            | None => None
            end
      end
  end

with parse_elements (fuel : nat) (s : jsstring) {struct fuel}
  : option (list JSON * jsstring) :=
  match fuel with
  | O => None
  | S f =>
      match parse_value f s with
      | None => None
      | Some (v, r) =>
          match skip_ws r with
          | d :: r' =>
              if is_char d "," then
                match parse_elements f r' with
                | Some (vs, r'') => Some (v :: vs, r'')
                | None => None
                end
              else if is_char d "]" then Some ([v], r')
              else None
          | [] => None
          end
      end
  end

with parse_members (fuel : nat) (acc : list (jsstring * JSON)) (s : jsstring)
  {struct fuel} : option (JSON * jsstring) :=
  match fuel with
  | O => None
  | S f =>
      match skip_ws s with
      | q :: t =>
          if (q =? 34)%N then
            match parse_string_chars t with
            | None => None
            | Some (k, r) =>
                match skip_ws r with
                | c :: r1 =>
                    if is_char c ":" then
                      match parse_value f r1 with
                      | None => None
                      | Some (v, r2) =>
                          match skip_ws r2 with
                          | d :: r3 =>
                              if is_char d "," then parse_members f (obj_define acc k v) r3
                              else if is_char d "}" then Some (JObject (obj_define acc k v), r3)
                              else None
                          | [] => None
                          end
                      end
                    else None
                | [] => None
                end
            end
          else None
      | [] => None
      end
  end.

(** [JSON.parse(text)] without a reviver; [None] is a [SyntaxError]. *)
Definition JSON_parse (text : jsstring) : option JSON :=
  match parse_value (S (List.length text)) text with
  | Some (v, r) => match skip_ws r with [] => Some v | _ => None end
  | None => None
  end.

(** Structural equality of JSON values with [Number::equal] on numbers. *)
Fixpoint JSON_equal (v w : JSON) : bool :=
  match v, w with
  | JNull, JNull => true
  | JBool a, JBool b => Bool.eqb a b
  | JNumber x, JNumber y => Number_equal x y
  | JString s, JString t => str_eqb s t
  | JArray xs, JArray ys =>
      (fix all2 (xs ys : list JSON) : bool :=
         match xs, ys with
         | [], [] => true
         | x :: xs', y :: ys' => JSON_equal x y && all2 xs' ys'
         | _, _ => false
         end) xs ys
  | JObject ps, JObject qs =>
      (fix all2 (ps qs : list (jsstring * JSON)) : bool :=
         match ps, qs with
         | [], [] => true
         | (k, x) :: ps', (k', y) :: qs' => str_eqb k k' && JSON_equal x y && all2 ps' qs'
         | _, _ => false
         end) ps qs
  | _, _ => false
  end.

Definition canonicalb (x : Number) : bool :=
  match x with
  | Fin _ m e =>
      ((0 <=? m) && (m <? 2 ^ 53) && (-1074 <=? e) && (e <=? 971)
       && ((2 ^ 52 <=? m) || (e =? -1074)))%Z
  | Inf _ => false
  end.

Definition wf_stringb (s : jsstring) : bool := forallb (fun c => (c <? 65536)%N) s.

(** A JSON value in the sense of the data model: finite binary64
    numbers, strings of 16-bit code units, objects whose keys are in
    own-property order. *)
Fixpoint is_json_value (v : JSON) : bool :=
  match v with
  | JNull | JBool _ => true
  | JNumber x => canonicalb x
  | JString s => wf_stringb s
  | JArray items => forallb is_json_value items
  | JObject props =>
      own_keys (List.map fst props)
      && forallb (fun kv : jsstring * JSON =>
                    let (k, v') := kv in wf_stringb k && is_json_value v') props
  end.

(* ===================================================================== *)
(** * URL and URLSearchParams *)
(* ===================================================================== *)

Local Open Scope N_scope.

(** UTF-8 bytes of one code point. *)
Definition utf8_code_point (cp : N) : list N :=
  if cp <? 128 then [cp]
  else if cp <? 2048 then [192 + cp / 64; 128 + cp mod 64]
  else if cp <? 65536 then [224 + cp / 4096; 128 + (cp / 64) mod 64; 128 + cp mod 64]
  else [240 + cp / 262144; 128 + (cp / 4096) mod 64; 128 + (cp / 64) mod 64; 128 + cp mod 64].

(** UTF-8 encoding of a string converted to a USVString: a surrogate
    pair is one code point, a lone surrogate becomes U+FFFD. *)
Fixpoint utf8_encode (s : jsstring) : list N :=
  match s with
  | [] => []
  | c :: t =>
      if is_high_surrogate c then
        match t with
        | d :: t' =>
            if is_low_surrogate d
            then utf8_code_point (65536 + (c - 55296) * 1024 + (d - 56320)) ++ utf8_encode t'
            else [239; 191; 189] ++ utf8_encode t
        | [] => [239; 191; 189]
        end
      else if is_low_surrogate c then [239; 191; 189] ++ utf8_encode t
      else utf8_code_point c ++ utf8_encode t
  end.

Definition upper_hex_digit (n : N) : codeunit :=
  if n <? 10 then 48 + n else 55 + n.

Definition is_alnum (b : N) : bool :=
  ((48 <=? b) && (b <=? 57)) || ((65 <=? b) && (b <=? 90)) || ((97 <=? b) && (b <=? 122)).

(** The application/x-www-form-urlencoded byte serializer: a space
    becomes a plus sign; ASCII letters, digits and [* - . _] are kept;
    every other byte is percent-encoded with uppercase hex digits. *)
Definition urlencode_byte (b : N) : jsstring :=
  if b =? 32 then [43]
  else if is_alnum b || (b =? 42) || (b =? 45) || (b =? 46) || (b =? 95) then [b]
  else [37; upper_hex_digit (b / 16); upper_hex_digit (b mod 16)].

Definition urlencode (s : jsstring) : jsstring :=
  flat_map urlencode_byte (utf8_encode s).

Local Close Scope N_scope.

(** The application/x-www-form-urlencoded serializer. *)
Definition urlencoded_serialize (l : StrRecord) : jsstring :=
  join (lit "&") (List.map (fun nv : jsstring * jsstring =>
                              urlencode (fst nv) ++ lit "=" ++ urlencode (snd nv)) l).

(** A URL record and the list of its [searchParams] object.  The host
    and the port are kept as the serializer writes them, the path as
    one string (a list path with its slashes, or an opaque path). *)
Record URL : Type := mkURL {
  url_scheme : jsstring;
  url_username : jsstring;
  url_password : jsstring;
  url_host : option jsstring;
  url_port : option jsstring;
  url_path : jsstring;
  url_query : option jsstring;
  url_fragment : option jsstring;
  searchParams : StrRecord
}.

(** The URL serializer up to the path: the scheme and a colon; with a
    host, two slashes, the credentials if any, the host and the port;
    without a host, [/.] before a path that starts with two slashes;
    then the path. *)
Definition URL_stem (u : URL) : jsstring :=
  url_scheme u ++ lit ":"
  ++ match url_host u with
     | Some host =>
         lit "//"
         ++ match url_username u, url_password u with
            | [], [] => []
            | user, [] => user ++ lit "@"
            | user, password => user ++ lit ":" ++ password ++ lit "@"
            end
         ++ host
         ++ match url_port u with Some p => lit ":" ++ p | None => [] end
     | None => if startsWith (url_path u) (lit "//") then lit "/." else []
     end
  ++ url_path u.

(** The URL serializer ([href], [toString]). *)
Definition URL_toString (u : URL) : jsstring :=
  URL_stem u
  ++ match url_query u with Some q => lit "?" ++ q | None => [] end
  ++ match url_fragment u with Some f => lit "#" ++ f | None => [] end.

(** [URLSearchParams.prototype.set]: the first pair named [name] gets
    the value and the other pairs of that name are removed; without
    such a pair a new one is appended. *)
Fixpoint set_pair (name value : jsstring) (l : StrRecord) : StrRecord :=
  match l with
  | [] => [(name, value)]
  | (n, v) :: l' =>
      if str_eqb n name
      then (n, value) :: filter (fun nv => negb (str_eqb (fst nv) name)) l'
      else (n, v) :: set_pair name value l'
  end.

(** [set] followed by the update steps: the list is serialized into
    the query of the URL, an empty serialization giving a null query. *)
Definition searchParams_set (u : URL) (name value : jsstring) : URL :=
  let l := set_pair name value (searchParams u) in
  let q := urlencoded_serialize l in
  mkURL (url_scheme u) (url_username u) (url_password u) (url_host u) (url_port u)
        (url_path u)
        (match q with [] => None | _ => Some q end)
        (url_fragment u) l.

Fixpoint split_on (sep : codeunit) (s : jsstring) : list jsstring :=
  match s with
  | [] => [[]]
  | c :: t =>
      if N.eqb c sep then [] :: split_on sep t
      else match split_on sep t with
           | l :: ls => (c :: l) :: ls
           | [] => [[c]]
           end
  end.

Definition is_lower (c : codeunit) : bool := (97 <=? c)%N && (c <=? 122)%N.

(** A domain the host parser returns unchanged: lowercase ASCII labels
    of letters, digits and hyphens, none empty and none an A-label, the
    last one starting with a letter (so that the host does not end in a
    number). *)
Definition plain_label (l : jsstring) : bool :=
  match l with
  | [] => false
  | _ => forallb (fun c => is_lower c || is_digit c || is_char c "-") l
         && negb (startsWith l (lit "xn--"))
  end.

Definition plain_domain (h : jsstring) : bool :=
  let labels := split_on (cu ".") h in
  forallb plain_label labels
  && match last labels [] with c :: _ => is_lower c | [] => false end.

(** A part of an IPv4 address in the form the serializer writes: a
    decimal number up to 255 without a leading zero. *)
Definition ipv4_part (p : jsstring) : bool :=
  match p with
  | [] => false
  | c :: t =>
      forallb is_digit p
      && (negb (is_char c "0") || match t with [] => true | _ :: _ => false end)
      && (digits_value p <=? 255)%Z
  end.

(** An IPv4 address the host parser returns unchanged: four such parts. *)
Definition plain_ipv4 (h : jsstring) : bool :=
  let parts := split_on (cu ".") h in
  Nat.eqb (List.length parts) 4 && forallb ipv4_part parts.

Definition plain_host (h : jsstring) : bool := plain_domain h || plain_ipv4 h.

(** A port the port state keeps: digits without a leading zero, at most
    65535 and not the default port of the scheme. *)
Definition plain_port (scheme p : jsstring) : bool :=
  match p with
  | [] => false
  | c :: _ =>
      forallb is_digit p && negb (is_char c "0")
      && (digits_value p <=? 65535)%Z
      && negb (digits_value p =? (if str_eqb scheme (lit "http") then 80 else 443))%Z
  end.

(** A path character the path state copies: unreserved characters
    other than the dot, and the slash between segments. *)
Definition plain_path_char (c : codeunit) : bool :=
  is_alnum c || is_char c "-" || is_char c "_" || is_char c "~" || is_char c "/".

Definition plain_path (p : jsstring) : bool := forallb plain_path_char p.

(** The URL parser after the scheme and the two slashes of a special
    scheme: the authority runs up to the first slash, the port follows
    the first colon of the authority, the rest is the path. *)
Definition URL_parse_hier (scheme rest : jsstring) : option URL :=
  let (authority, path) := span (fun c => negb (is_char c "/")) rest in
  let (host, port_part) := span (fun c => negb (is_char c ":")) authority in
  let port := match port_part with _ :: p => Some p | [] => None end in
  if plain_host host
     && match port with Some p => plain_port scheme p | None => true end
     && plain_path path
  then Some (mkURL scheme [] [] (Some host) port
                   (match path with [] => lit "/" | _ => path end)
                   None None [])
  else None.

(** The URL parser on a plain URL: an absolute [http] or [https] URL
    made of a plain host, an optional plain port and a plain path, on
    which the parser changes nothing but to give an empty path its root
    slash.  [None] says that the input is no plain URL, not that the
    parser rejects it. *)
Definition URL_plain (input : jsstring) : option URL :=
  if startsWith input (lit "https://") then URL_parse_hier (lit "https") (skipn 8 input)
  else if startsWith input (lit "http://") then URL_parse_hier (lit "http") (skipn 7 input)
  else None.

Definition is_ascii_alpha (c : codeunit) : bool :=
  ((65 <=? c)%N && (c <=? 90)%N) || ((97 <=? c)%N && (c <=? 122)%N).

(** A code unit the fragment state copies: printable ASCII outside the
    fragment percent-encode set. *)
Definition fragment_plain (c : codeunit) : bool :=
  (33 <=? c)%N && (c <=? 126)%N
  && negb ((c =? 34)%N || (c =? 60)%N || (c =? 62)%N || (c =? 96)%N).

Fixpoint strip_leading (s : jsstring) : jsstring :=
  match s with
  | c :: t => if (c <=? 32)%N then strip_leading t else s
  | [] => []
  end.

(** What is computed here of [new URL(input)], without a base URL. *)
Inductive URL_parsing : Type :=
| URL_record (u : URL)     (* the parser returns this record *)
| URL_failure              (* the parser fails: [new URL] throws a [TypeError] *)
| URL_other.               (* left to the platform, see [URL_platform] *)

(** After the leading C0 controls and spaces, an input that does not
    start with an ASCII letter has no scheme, which without a base URL
    is a failure.  A plain URL is returned as it is, also when a
    fragment of copied code units follows it. *)
Definition URL_parse (input : jsstring) : URL_parsing :=
  match strip_leading input with
  | [] => URL_failure
  | c :: _ =>
      if negb (is_ascii_alpha c) then URL_failure
      else
        let (front, rest) := span (fun c => negb (is_char c "#")) input in
        match URL_plain front, rest with
        | Some u, [] => URL_record u
        | Some u, _ :: f =>
            if forallb fragment_plain f
            then URL_record (mkURL (url_scheme u) (url_username u) (url_password u)
                                   (url_host u) (url_port u) (url_path u)
                                   (url_query u) (Some f) (searchParams u))
            else URL_other
        | None, _ => URL_other
        end
  end.

(* ===================================================================== *)
(** * HTTP, promises and the module state *)
(* ===================================================================== *)

Record Request : Type := mkRequest {
  req_url : jsstring;
  req_payment : option jsstring      (* the payment authorization header *)
}.

Record Response : Type := mkResponse {
  status : N;
  body : jsstring
}.

(** [response.ok]: the status is in the range 200 to 299. *)
Definition Response_ok (r : Response) : bool :=
  (200 <=? status r)%N && (status r <=? 299)%N.

(** What lies outside the process: the remote API ([None] when the
    network call itself fails); the signing capability, which turns a
    payment challenge into an authorization or fails; the URL parser of
    the platform on the inputs [URL_parse] leaves to it ([None] when it
    throws); and whether the set-up of the payment client for a wallet
    key completes (the dynamic imports, [privateKeyToAccount],
    [createWalletClient], [toClientEvmSigner] and the registration of
    the scheme, any of which may throw). *)
Record World : Type := mkWorld {
  server : Request -> option Response;
  sign : jsstring -> Response -> option jsstring;
  URL_platform : jsstring -> option URL;
  payment_client : jsstring -> bool
}.

(** [new URL(input)]; [None] is the [TypeError] of an invalid URL. *)
Definition URL_new (w : World) (input : jsstring) : option URL :=
  match URL_parse input with
  | URL_record u => Some u
  | URL_failure => None
  | URL_other => URL_platform w input
  end.

Inductive Failure : Type :=
| InvalidURL                       (* TypeError of [new URL] *)
| FetchFailed                      (* [fetch] rejects *)
| PaymentError                     (* no authorization could be produced *)
| SyntaxError                      (* [response.json()] rejects *)
| StartupError                     (* the set-up of the payment client throws *)
| Error (message : jsstring).      (* [throw new Error(message)] *)

Inductive Outcome (A : Type) : Type :=
| Resolved (a : A)
| Rejected (e : Failure).

Arguments Resolved {A} a.
Arguments Rejected {A} e.

(** An asynchronous computation: given the world, its outcome and the
    requests it sent, in order. *)
Definition IO (A : Type) : Type := World -> Outcome A * list Request.

Definition ret {A : Type} (a : A) : IO A := fun _ => (Resolved a, []).

Definition throw {A : Type} (e : Failure) : IO A := fun _ => (Rejected e, []).

Definition bind {A B : Type} (m : IO A) (k : A -> IO B) : IO B :=
  fun w =>
    match m w with
    | (Resolved a, t) => let (r, t') := k a w in (r, t ++ t')
    | (Rejected e, t) => (Rejected e, t)
    end.

Notation "x <- m ;; k" := (bind m (fun x => k))
  (at level 61, m at next level, right associativity).

(** The platform [fetch]: one request to the remote API. *)
Definition fetch (r : Request) : IO Response :=
  fun w =>
    (match server w r with
     | Some resp => Resolved resp
     | None => Rejected FetchFailed
     end, [r]).

Definition authorize (key : jsstring) (challenge : Response) : IO jsstring :=
  fun w =>
    (match sign w key challenge with
     | Some a => Resolved a
     | None => Rejected PaymentError
     end, []).

(** Modelled from the spec: [wrapFetchWithPayment] of the [@x402/fetch]
    package, whose source is not part of the repository.  Section 4.3:
    the request is issued unmodified; on a payment-required response
    (status 402) an authorization is derived from the terms with the
    signing capability and attached to one retried request, whose
    response is final; without a valid authorization the transport
    fails with a [PaymentError]. *)
Definition wrapFetchWithPayment (key : jsstring) (url : jsstring) : IO Response :=
  resp <- fetch (mkRequest url None) ;;
  if (status resp =? 402)%N then
    auth <- authorize key resp ;;
    fetch (mkRequest url (Some auth))
  else ret resp.

(** The value of the module variable [paymentFetch]. *)
Inductive Transport : Type :=
| PlainFetch                          (* [fetch] *)
| PaymentFetch (key : jsstring).      (* [wrapFetchWithPayment(fetch, client)] *)

Definition call_transport (t : Transport) (url : jsstring) : IO Response :=
  match t with
  | PlainFetch => fetch (mkRequest url None)
  | PaymentFetch key => wrapFetchWithPayment key url
  end.

(** [process.env] as far as the module reads it. *)
Record Env : Type := mkEnv {
  env_SHIELDAPI_URL : option jsstring;
  env_SHIELDAPI_WALLET_PRIVATE_KEY : option jsstring
}.

(** The module-level bindings. *)
Record Module : Type := mkModule {
  SHIELDAPI_URL : jsstring;
  SHIELDAPI_WALLET_PRIVATE_KEY : option jsstring;
  demoMode : bool;
  paymentFetch : Transport
}.

(** [!value] for a value that is [undefined] or a string. *)
Definition js_not (v : option jsstring) : bool :=
  match v with
  | None => true
  | Some [] => true
  | Some (_ :: _) => false
  end.

(** The top-level statements of the module up to [let paymentFetch]. *)
Definition load (env : Env) : Module :=
  let url := match env_SHIELDAPI_URL env with
             | Some u => u
             | None => lit "https://shield.vainplex.dev"
             end in
  let key := env_SHIELDAPI_WALLET_PRIVATE_KEY env in
  mkModule url key (js_not key) PlainFetch.

(** [initPaymentFetch]: nothing is done in Demo mode; otherwise the
    payment client is set up for the wallet key and [paymentFetch]
    becomes the wrapped [fetch]; when the set-up throws, the promise is
    rejected. *)
Definition initPaymentFetch (w : World) (m : Module) : Outcome Module :=
  if demoMode m then Resolved m
  else
    let key := match SHIELDAPI_WALLET_PRIVATE_KEY m with Some k => k | None => [] end in
    if payment_client w key
    then Resolved (mkModule (SHIELDAPI_URL m) (SHIELDAPI_WALLET_PRIVATE_KEY m)
                            (demoMode m) (PaymentFetch key))
    else Rejected StartupError.

(* ===================================================================== *)
(** * [callShieldApi] *)
(* ===================================================================== *)

(** The first half of [callShieldApi] (and [buildUrl] of the tests):
    the request URL; [None] when [new URL] throws. *)
Definition buildUrl (w : World) (base endpoint : jsstring) (params : StrRecord) (demo : bool)
  : option jsstring :=
  match URL_new w (base ++ lit "/api/" ++ endpoint) with
  | None => None
  | Some url =>
      let url := fold_left (fun u kv => searchParams_set u (fst kv) (snd kv)) params url in
      let url := if demo then searchParams_set url (lit "demo") (lit "true") else url in
      Some (URL_toString url)
  end.

(** The decimal form of a status code in a template literal. *)
Definition status_text (n : N) : jsstring := digits (Z.of_N n).

Definition failure_message (endpoint : jsstring) (resp : Response) : jsstring :=
  lit "ShieldAPI " ++ endpoint ++ lit " failed (" ++ status_text (status resp)
  ++ lit "): " ++ substring0 (body resp) 200.

Definition callShieldApi (m : Module) (endpoint : jsstring) (params : StrRecord)
  : IO JSON :=
  fun w =>
    match buildUrl w (SHIELDAPI_URL m) endpoint params (demoMode m) with
    | None => throw InvalidURL w
    | Some url =>
        (response <- call_transport (paymentFetch m) url ;;
         if negb (Response_ok response)
         then throw (Error (failure_message endpoint response))
         else match JSON_parse (body response) with
              | Some data => ret data
              | None => throw SyntaxError
              end) w
    end.

(* ===================================================================== *)
(** * [formatResult] *)
(* ===================================================================== *)

Record ContentBlock : Type := mkContent {
  type : jsstring;
  text : jsstring
}.

Record Reply : Type := mkReply {
  content : list ContentBlock
}.

Definition formatResult (data : JSON) : Reply :=
  mkReply [mkContent (lit "text") (JSON_stringify data 2)].

(* ===================================================================== *)
(** * The MCP server and its tools *)
(* ===================================================================== *)

(** A tool handler awaits calls of [callShieldApi] and returns a
    reply. *)
Inductive Prog (A : Type) : Type :=
| Return (a : A)
| CallShieldApi (endpoint : jsstring) (params : StrRecord) (k : JSON -> Prog A).

Arguments Return {A} a.
Arguments CallShieldApi {A} endpoint params k.

Fixpoint exec {A : Type} (m : Module) (p : Prog A) : IO A :=
  match p with
  | Return a => ret a
  | CallShieldApi endpoint params k =>
      data <- callShieldApi m endpoint params ;; exec m (k data)
  end.

(** One [server.tool(name, description, { param: z.string() }, cb)].
    The schema has a single string parameter; the handler is given the
    validated arguments, an object with that one property, kept as the
    value of the property. *)
Record Tool : Type := mkTool {
  tool_name : jsstring;
  tool_description : string;
  tool_param : jsstring;
  tool_paramDesc : string;
  tool_handler : jsstring -> Prog Reply
}.

(** ** The registrations of [src/index.ts] *)

Definition check_url : Tool :=
  mkTool (lit "check_url")
    "Check a URL for malware, phishing, and other threats. Uses URLhaus + heuristic analysis."
    (lit "url") "The URL to check (e.g. https://example.com)"
    (fun url => CallShieldApi (lit "check-url") [(lit "url", url)]
                  (fun data => Return (formatResult data))).

Definition check_password : Tool :=
  mkTool (lit "check_password")
    "Check if a password hash (SHA-1) has been exposed in known data breaches via HIBP."
    (lit "hash") "SHA-1 hash of the password (40 hex chars)"
    (fun hash => CallShieldApi (lit "check-password") [(lit "hash", hash)]
                   (fun data => Return (formatResult data))).

Definition check_password_range : Tool :=
  mkTool (lit "check_password_range")
    "Look up a SHA-1 hash prefix in the HIBP k-Anonymity database."
    (lit "prefix") "First 5 characters of the SHA-1 password hash"
    (fun prefix => CallShieldApi (lit "check-password-range") [(lit "prefix", prefix)]
                     (fun data => Return (formatResult data))).

Definition check_domain : Tool :=
  mkTool (lit "check_domain")
    "Check domain reputation: DNS records, blacklists (Spamhaus, SpamCop, SORBS), SPF/DMARC, SSL."
    (lit "domain") "Domain name to check (e.g. example.com)"
    (fun domain => CallShieldApi (lit "check-domain") [(lit "domain", domain)]
                     (fun data => Return (formatResult data))).

Definition check_ip : Tool :=
  mkTool (lit "check_ip")
    "Check IP reputation: blacklists, Tor exit node detection, reverse DNS."
    (lit "ip") "IPv4 address to check (e.g. 8.8.8.8)"
    (fun ip => CallShieldApi (lit "check-ip") [(lit "ip", ip)]
                 (fun data => Return (formatResult data))).

Definition check_email : Tool :=
  mkTool (lit "check_email")
    "Check if an email address has been exposed in known data breaches via HIBP."
    (lit "email") "Email address to check"
    (fun email => CallShieldApi (lit "check-email") [(lit "email", email)]
                    (fun data => Return (formatResult data))).

Definition full_scan : Tool :=
  mkTool (lit "full_scan")
    "Run all security checks on a target (URL, domain, IP, or email). Most comprehensive scan."
    (lit "target") "Target to scan — URL, domain, IP address, or email"
    (fun target => CallShieldApi (lit "full-scan") (detectTargetType target)
                     (fun data => Return (formatResult data))).

(** The tools in registration order. *)
Definition server_tools : list Tool :=
  [check_url; check_password; check_password_range; check_domain;
   check_ip; check_email; full_scan].

(** ** The table-driven registrations of the later revision *)

Record ToolDef : Type := mkToolDef {
  description : string;
  param : jsstring;
  paramDesc : string;
  endpoint : jsstring
}.

(** [TOOLS], as [Object.entries] lists it. *)
Definition TOOLS : list (jsstring * ToolDef) :=
  [ (lit "check_url",
     mkToolDef "Check a URL for malware, phishing, and other threats. Uses URLhaus + heuristic analysis."
               (lit "url") "The URL to check (e.g. https://example.com)" (lit "check-url"));
    (lit "check_password",
     mkToolDef "Check if a password hash (SHA-1) has been exposed in known data breaches via HIBP."
               (lit "hash") "SHA-1 hash of the password (40 hex chars)" (lit "check-password"));
    (lit "check_password_range",
     mkToolDef "Look up a SHA-1 hash prefix in the HIBP k-Anonymity database."
               (lit "prefix") "First 5 characters of the SHA-1 password hash"
               (lit "check-password-range"));
    (lit "check_domain",
     mkToolDef "Check domain reputation: DNS records, blacklists (Spamhaus, SpamCop, SORBS), SPF/DMARC, SSL."
               (lit "domain") "Domain name to check (e.g. example.com)" (lit "check-domain"));
    (lit "check_ip",
     mkToolDef "Check IP reputation: blacklists, Tor exit node detection, reverse DNS."
               (lit "ip") "IPv4 address to check (e.g. 8.8.8.8)" (lit "check-ip"));
    (lit "check_email",
     mkToolDef "Check if an email address has been exposed in known data breaches via HIBP."
               (lit "email") "Email address to check" (lit "check-email")) ].

(** The registration loop over [TOOLS], then [full_scan]. *)
Definition server_tools_from_table : list Tool :=
  List.map (fun entry : jsstring * ToolDef =>
              let (name, def) := entry in
              mkTool name (description def) (param def) (paramDesc def)
                (fun value => CallShieldApi (endpoint def) [(param def, value)]
                                (fun data => Return (formatResult data))))
           TOOLS
  ++ [full_scan].

(** ** Dispatch *)

Fixpoint lookup (k : jsstring) (o : StrRecord) : option jsstring :=
  match o with
  | [] => None
  | (k', v) :: o' => if str_eqb k k' then Some v else lookup k o'
  end.

Fixpoint find_tool (name : jsstring) (tools : list Tool) : option Tool :=
  match tools with
  | [] => None
  | t :: ts => if str_eqb name (tool_name t) then Some t else find_tool name ts
  end.

Inductive CallError : Type :=
| UnknownTool
| InvalidParams
| HandlerFailed (e : Failure).

(** A [tools/call] request: the tool is looked up by name, the
    arguments are validated against its schema (the declared parameter
    must be present; other keys are stripped), and the handler runs. *)
Definition callTool (tools : list Tool) (m : Module) (name : jsstring) (args : StrRecord)
  (w : World) : (Reply + CallError) * list Request :=
  match find_tool name tools with
  | None => (inr UnknownTool, [])
  | Some t =>
      match lookup (tool_param t) args with
      | None => (inr InvalidParams, [])
      | Some value =>
          match exec m (tool_handler t value) w with
          | (Resolved reply, trace) => (inl reply, trace)
          | (Rejected e, trace) => (inr (HandlerFailed e), trace)
          end
      end
  end.

(** [main] up to [server.connect]: the module is loaded and the payment
    transport set up; a failure is fatal. *)
Definition main (env : Env) (w : World) : Outcome Module :=
  initPaymentFetch w (load env).

(** ** The tool catalog of the specification *)

Definition catalog : list (jsstring * jsstring * jsstring) :=
  [ (lit "check_url", lit "url", lit "check-url");
    (lit "check_password", lit "hash", lit "check-password");
    (lit "check_password_range", lit "prefix", lit "check-password-range");
    (lit "check_domain", lit "domain", lit "check-domain");
    (lit "check_ip", lit "ip", lit "check-ip");
    (lit "check_email", lit "email", lit "check-email");
    (lit "full_scan", lit "target", lit "full-scan") ].

(* ===================================================================== *)
(** * Specification vocabulary *)
(* ===================================================================== *)

(** The notions the statements below are phrased in. *)

(** One or more ASCII digits. *)
Definition digit_group (g : jsstring) : Prop :=
  g <> [] /\ Forall (fun c => (48 <= c <= 57)%N) g.

(** [d+.d+.d+.d+] *)
Definition dotted_quad (s : jsstring) : Prop :=
  exists a b c d,
    s = a ++ lit "." ++ b ++ lit "." ++ c ++ lit "." ++ d
    /\ digit_group a /\ digit_group b /\ digit_group c /\ digit_group d.

Definition has_prefix (p s : jsstring) : Prop := exists r, s = p ++ r.

(** The ordered rules of the classifier, each rule applying only when
    the earlier ones do not. *)
Inductive Classified (s : jsstring) : jsstring -> Prop :=
| Classified_email :
    In (cu "@") s -> Classified s (lit "email")
| Classified_ip :
    ~ In (cu "@") s -> dotted_quad s -> Classified s (lit "ip")
| Classified_url :
    ~ In (cu "@") s -> ~ dotted_quad s ->
    has_prefix (lit "http://") s \/ has_prefix (lit "https://") s ->
    Classified s (lit "url")
| Classified_domain :
    ~ In (cu "@") s -> ~ dotted_quad s ->
    ~ has_prefix (lit "http://") s -> ~ has_prefix (lit "https://") s ->
    Classified s (lit "domain").


(** ** What can be read off a URL string *)

(** A URL string up to its fragment: what precedes the first hash. *)
Definition without_fragment (url : jsstring) : jsstring :=
  fst (span (fun c => negb (is_char c "#")) url).

(** The part of a URL string before its query: what precedes the first
    question mark, the fragment left aside. *)
Definition before_query (url : jsstring) : jsstring :=
  fst (span (fun c => negb (is_char c "?")) (without_fragment url)).

(** The [name=value] items of the query of a URL string: what lies
    between the first question mark and the fragment, split at the
    ampersands. *)
Definition query_items (url : jsstring) : list jsstring :=
  match snd (span (fun c => negb (is_char c "?")) (without_fragment url)) with
  | _ :: q => split_on (cu "&") q
  | [] => []
  end.

(** The item a parameter is serialized to. *)
Definition query_item (name value : jsstring) : jsstring :=
  urlencode name ++ lit "=" ++ urlencode value.

(** A plain base URL: the URL parser returns it unchanged, but for the
    root slash of an empty path. *)
Definition plain_base (base : jsstring) : bool :=
  match URL_plain base with Some _ => true | None => false end.

(** ** Auxiliary notions of the URL model *)

(** The characters a query item is made of are never [&], [=], [?] or
    [#]. *)
Definition reserved (c : codeunit) : Prop := c = 38%N \/ c = 61%N \/ c = 63%N \/ c = 35%N.

(** Neither a question mark nor a hash. *)
Definition no_mark (c : codeunit) : Prop := c <> 63%N /\ c <> 35%N.

Definition set_all (params l : StrRecord) : StrRecord :=
  fold_left (fun acc kv => set_pair (fst kv) (snd kv) acc) params l.

Definition query_of (l : StrRecord) : option jsstring :=
  let q := urlencoded_serialize l in
  match q with [] => None | _ :: _ => Some q end.

(** What holds of every record the URL parser returns for an input: no
    question mark and no hash before the query and no hash in the
    query; a query or a fragment only when the input holds a question
    mark or a hash; and an empty [searchParams] list for a URL without
    a query. *)
Definition URL_ok (input : jsstring) (u : URL) : Prop :=
  ~ In (cu "?") (URL_stem u) /\ ~ In (cu "#") (URL_stem u)
  /\ (forall q, url_query u = Some q -> ~ In (cu "#") q)
  /\ (~ In (cu "?") input -> url_query u = None)
  /\ (~ In (cu "#") input -> url_fragment u = None)
  /\ (url_query u = None -> searchParams u = []).

(** A world whose URL parser returns such records. *)
Definition platform_ok (w : World) : Prop :=
  forall input u, URL_platform w input = Some u -> URL_ok input u.



(** ** What a handler does *)

(** The calls of [callShieldApi] a handler makes, in order, when every
    call is answered with [answer]. *)
Fixpoint api_calls {A : Type} (p : Prog A) (answer : JSON) : list (jsstring * StrRecord) :=
  match p with
  | Return _ => []
  | CallShieldApi endpoint params k => (endpoint, params) :: api_calls (k answer) answer
  end.

(** A handler of the registry: one call, whose result is formatted. *)
Definition one_call (endpoint : jsstring) (params : StrRecord) : Prog Reply :=
  CallShieldApi endpoint params (fun data => Return (formatResult data)).

(** ** Example configurations *)

(** The module without any environment variable (Demo mode). *)
Definition demo_module : Module := load (mkEnv None None).

(** A wallet key in the form the account derivation accepts: [0x] and
    64 hexadecimal digits. *)
Definition is_private_key (key : jsstring) : bool :=
  startsWith key (lit "0x")
  && Nat.eqb (List.length key) 66
  && forallb (fun c => match hex_value c with Some _ => true | None => false end)
             (skipn 2 key).

Definition wallet_key : jsstring :=
  lit "0x0000000000000000000000000000000000000000000000000000000000000001".

(** The module after start-up with a wallet key (Paid mode). *)
Definition paid_module : Module :=
  mkModule (lit "https://shield.vainplex.dev") (Some wallet_key) false
           (PaymentFetch wallet_key).

(** A remote API that answers every request with the given status;
    every payment challenge could be signed, and the payment client is
    set up for a well-formed wallet key. *)
Definition world_answering (code : N) (text : jsstring) : World :=
  mkWorld (fun _ => Some (mkResponse code text))
          (fun _ _ => Some (lit "signed"))
          (fun _ => None)
          is_private_key.

(** A registered tool agrees with a row of the catalog: its name and
    its declared parameter are those of the row and every invocation of
    its handler calls the endpoint of the row once.  Unless the tool is
    [full_scan], the call carries the declared parameter alone, under
    its own name, and so does the request: whenever the URL parser
    accepts the base URL with the path of the endpoint as a URL without
    a query, the transport is called once, on a URL whose query is the
    one item of the declared parameter with the percent-encoded
    argument, followed by [demo=true] in Demo mode; with the plain
    transport this is the one request sent.  In the default
    configuration the request is given in full. *)
Definition matches_row (t : Tool) (row : jsstring * jsstring * jsstring) : Prop :=
  let '(name, parameter, path) := row in
  tool_name t = name
  /\ tool_param t = parameter
  /\ (forall value answer,
         List.map fst (api_calls (tool_handler t value) answer) = [path])
  /\ (name <> lit "full_scan" ->
      (forall value, tool_handler t value = one_call path [(parameter, value)])
      /\ (forall (m : Module) (args : StrRecord) (value : jsstring) (w : World),
             lookup parameter args = Some value ->
             snd (callTool server_tools m name args w)
             = snd (callShieldApi m path [(parameter, value)] w))
      /\ (forall (m : Module) (args : StrRecord) (value : jsstring) (w : World) (u : URL),
             lookup parameter args = Some value ->
             platform_ok w ->
             URL_new w (SHIELDAPI_URL m ++ lit "/api/" ++ path) = Some u ->
             url_query u = None ->
             exists url,
               buildUrl w (SHIELDAPI_URL m) path [(parameter, value)] (demoMode m) = Some url
               /\ before_query url = URL_stem u
               /\ query_items url
                  = query_item parameter value
                    :: (if demoMode m then [lit "demo=true"] else [])
               /\ snd (callTool server_tools m name args w)
                  = snd (call_transport (paymentFetch m) url w)
               /\ (paymentFetch m = PlainFetch ->
                   snd (callTool server_tools m name args w) = [mkRequest url None]))
      /\ (forall (value : jsstring) (w : World),
             snd (callTool server_tools demo_module name [(parameter, value)] w)
             = [mkRequest (lit "https://shield.vainplex.dev/api/" ++ path ++ lit "?"
                           ++ query_item parameter value ++ lit "&demo=true") None])).

(** ** Auxiliary notions of the number model *)

(** A finite value [m * 2^e] as a quotient of two integers. *)
Definition ratio_num (m e : Z) : Z := if (0 <=? e)%Z then (m * pow 2 e)%Z else m.
Definition ratio_den (e : Z) : Z := if (0 <=? e)%Z then 1%Z else pow 2 (- e).

(** A decimal [s * 10^p] as a quotient of two integers. *)
Definition dec_num (s p : Z) : Z := if (0 <=? p)%Z then (s * pow 10 p)%Z else s.
Definition dec_den (p : Z) : Z := if (0 <=? p)%Z then 1%Z else pow 10 (- p).

(** What may follow a number in a text: not a digit, a dot or an
    exponent mark. *)
Definition number_end (rest : jsstring) : Prop :=
  match rest with
  | [] => True
  | c :: _ => is_digit c = false /\ c <> cu "." /\ c <> cu "e" /\ c <> cu "E"
  end.

(** A number text from its parts: sign, integer digits, fraction
    digits, exponent sign and digits. *)
Definition number_text (neg : bool) (ip : jsstring) (fp : option jsstring)
  (ex : option (bool * jsstring)) : jsstring :=
  (if neg then lit "-" else [])
  ++ ip
  ++ match fp with Some f => lit "." ++ f | None => [] end
  ++ match ex with
     | Some (eneg, ep) => lit "e" ++ (if eneg then lit "-" else lit "+") ++ ep
     | None => []
     end.

Definition digit_string (ds : jsstring) : Prop := ds <> [] /\ forallb is_digit ds = true.

(** The integer part of a JSON number: 0, or digits that start with a
    non-zero digit. *)
Definition int_digits (ip : jsstring) : Prop :=
  ip = [48%N] \/ (digit_string ip /\ hd 0%N ip <> 48%N).

(** ** JSON values up to the sign of zero *)

(** [JSON.stringify] writes both zeros as [0], which reads back as the
    positive zero. *)
Definition canon_number (x : Number) : Number :=
  match x with
  | Fin _ 0 e => Fin false 0 e
  | _ => x
  end.

Fixpoint canon (v : JSON) : JSON :=
  match v with
  | JNumber x => JNumber (canon_number x)
  | JArray items => JArray (List.map canon items)
  | JObject props =>
      JObject (List.map (fun kv : jsstring * JSON => (fst kv, canon (snd kv))) props)
  | _ => v
  end.

(** No number of the value is the negative zero. *)
Fixpoint no_negative_zero (v : JSON) : bool :=
  match v with
  | JNumber (Fin true 0 _) => false
  | JArray items => forallb no_negative_zero items
  | JObject props => forallb (fun kv : jsstring * JSON => no_negative_zero (snd kv)) props
  | _ => true
  end.

(** ** Auxiliary notions of the JSON round trip *)

(** The gap of [JSON.stringify(value, null, 2)]. *)
Definition gap2 : jsstring := [32; 32]%N.

Definition ws_only (s : jsstring) : Prop := forallb is_ws s = true.

(** What follows a value inside an indented text: nothing, a comma or
    a line break. *)
Definition value_end (rest : jsstring) : Prop :=
  match rest with
  | [] => True
  | c :: _ => c = 44%N \/ c = 10%N
  end.

(** The fuel the elements of an array or the members of an object
    need: one more than their length, each. *)
Definition parts_cost (parts : list jsstring) : nat :=
  fold_right (fun p n => S (List.length p + n)) 0%nat parts.

(** The elements of an indented array after the line break and
    indentation of the first one, up to the end of the array. *)
Fixpoint elements_text (sep closing : jsstring) (parts : list jsstring) : jsstring :=
  match parts with
  | [] => closing
  | p :: ps =>
      p ++ match ps with
           | [] => closing
           | _ :: _ => lit "," ++ sep ++ elements_text sep closing ps
           end
  end.

(** A value is read back from its indented text, given fuel for the
    length of the text. *)
Definition reads_back (v : JSON) : Prop :=
  is_json_value v = true ->
  forall (indent rest : jsstring) (fuel : nat),
    ws_only indent -> value_end rest ->
    (List.length (SerializeJSONProperty gap2 indent v) <= fuel)%nat ->
    parse_value fuel (SerializeJSONProperty gap2 indent v ++ rest) = Some (canon v, rest).

(** The text of one member of an indented object. *)
Definition member_text (indent : jsstring) (kv : jsstring * JSON) : jsstring :=
  QuoteJSONString (fst kv) ++ lit ": " ++ SerializeJSONProperty gap2 indent (snd kv).

(** ** Auxiliary notions of rounding *)

(** [ge_scaled] as a proposition. *)
Definition scaled_le (r a b j : Z) : Prop :=
  if (0 <=? j)%Z then (b * r ^ j <= a)%Z else (b <= a * r ^ (- j))%Z.

(** The exponent [j] of [a / b] in base [r]: [r^j <= a / b < r^(j+1)]. *)
Definition exponent_of (r a b j : Z) : Prop :=
  scaled_le r a b j /\ ~ scaled_le r a b (j + 1)%Z.

(** The binary exponent found from the two logarithms. *)
Definition binary_exponent (a b : Z) : Z := find_expo 2 2 (Z.log2 a - Z.log2 b)%Z a b.


(** ** Auxiliary notions of the request query *)

(** The pairs of the [searchParams] object when the URL is serialized:
    the parameters set one after the other, then the demo marker. *)
Definition final_pairs_from (l0 params : StrRecord) (demo : bool) : StrRecord :=
  let l := set_all params l0 in
  if demo then set_pair (lit "demo") (lit "true") l else l.

Definition final_pairs (params : StrRecord) (demo : bool) : StrRecord :=
  final_pairs_from [] params demo.

(** The query of the URL when it is serialized: the one the parser
    found when nothing was set, the serialized pairs otherwise. *)
Definition built_query (u : URL) (params : StrRecord) (demo : bool) : option jsstring :=
  match params, demo with
  | [], false => url_query u
  | _, _ => query_of (final_pairs_from (searchParams u) params demo)
  end.

(** The item of a pair. *)
Definition item_of (kv : jsstring * jsstring) : jsstring := query_item (fst kv) (snd kv).

(** The code units the form serializer writes: ASCII letters and
    digits, [* - . _], the plus sign for a space and the percent sign
    of an escape. *)
Definition form_char (c : codeunit) : bool :=
  is_alnum c || is_char c "*" || is_char c "-" || is_char c "." || is_char c "_"
  || is_char c "+" || is_char c "%".

(** ** Values with numbers beyond the binary64 range *)

(** The value with every infinite number replaced by [null]. *)
Fixpoint nullify (v : JSON) : JSON :=
  match v with
  | JNumber (Inf _) => JNull
  | JArray items => JArray (List.map nullify items)
  | JObject props =>
      JObject (List.map (fun kv : jsstring * JSON => (fst kv, nullify (snd kv))) props)
  | _ => v
  end.

(** A JSON value whose numbers may also be infinite, as [JSON.parse]
    yields them for number literals beyond the binary64 range. *)
Fixpoint is_parsed_value (v : JSON) : bool :=
  match v with
  | JNull | JBool _ => true
  | JNumber x => canonicalb x || negb (is_finite x)
  | JString s => wf_stringb s
  | JArray items => forallb is_parsed_value items
  | JObject props =>
      own_keys (List.map fst props)
      && forallb (fun kv : jsstring * JSON =>
                    let (k, v') := kv in wf_stringb k && is_parsed_value v') props
  end.

(** Every number of the value is finite. *)
Fixpoint finite_numbers (v : JSON) : bool :=
  match v with
  | JNumber x => is_finite x
  | JArray items => forallb finite_numbers items
  | JObject props => forallb (fun kv : jsstring * JSON => finite_numbers (snd kv)) props
  | _ => true
  end.

(** The round trip as the specification states it: the reply holds one
    block of type [text], and [JSON.parse] of its text yields the value
    that was formatted. *)
Definition round_trip_claim (v : JSON) : Prop :=
  exists txt : jsstring,
    content (formatResult v) = [mkContent (lit "text") txt]
    /\ JSON_parse txt = Some v.

(** ** Reading a query item back *)

(** A string without a lone surrogate, made of 16-bit code units: the
    strings the conversion to UTF-8 changes nothing of. *)
Fixpoint usv_string (s : jsstring) : bool :=
  match s with
  | [] => true
  | c :: t =>
      if is_high_surrogate c then
        match t with
        | d :: t' => is_low_surrogate d && usv_string t'
        | [] => false
        end
      else negb (is_low_surrogate c) && (c <? 65536)%N && usv_string t
  end.

(** The bytes a form-encoded text stands for. *)
Fixpoint form_decode (s : jsstring) : list N :=
  match s with
  | [] => []
  | c :: t =>
      if (c =? 43)%N then 32%N :: form_decode t
      else if (c =? 37)%N then
        match t with
        | h1 :: h2 :: t' =>
            match hex_value h1, hex_value h2 with
            | Some a, Some b => (16 * a + b)%N :: form_decode t'
            | _, _ => []
            end
        | _ => []
        end
      else c :: form_decode t
  end.

(** The code units a UTF-8 byte sequence stands for. *)
Fixpoint utf8_decode (bs : list N) : jsstring :=
  match bs with
  | [] => []
  | b0 :: t =>
      if (b0 <? 128)%N then b0 :: utf8_decode t
      else if (b0 <? 224)%N then
        match t with
        | b1 :: t' => ((b0 - 192) * 64 + (b1 - 128))%N :: utf8_decode t'
        | _ => []
        end
      else if (b0 <? 240)%N then
        match t with
        | b1 :: b2 :: t' =>
            ((b0 - 224) * 4096 + (b1 - 128) * 64 + (b2 - 128))%N :: utf8_decode t'
        | _ => []
        end
      else
        match t with
        | b1 :: b2 :: b3 :: t' =>
            let cp := ((b0 - 240) * 262144 + (b1 - 128) * 4096
                       + (b2 - 128) * 64 + (b3 - 128))%N in
            (55296 + (cp - 65536) / 1024)%N :: (56320 + (cp - 65536) mod 1024)%N
            :: utf8_decode t'
        | _ => []
        end
  end.

(** An object whose names and values hold no lone surrogate. *)
Definition usv_record (o : StrRecord) : bool :=
  forallb (fun kv : jsstring * jsstring => usv_string (fst kv) && usv_string (snd kv)) o.

(** ** Integers as Number values *)

(** The Number value for the integer [n]. *)
Definition Number_of_int (n : Z) : Number := Frat (n <? 0)%Z (Z.abs n) 1.

(** ** An example world *)

(** The record the URL parser returns for
    [http://[::1]:3000/api/check-domain]. *)
Definition loopback_url : URL :=
  mkURL (lit "http") [] [] (Some (lit "[::1]")) (Some (lit "3000"))
        (lit "/api/check-domain") None None [].

(** A remote API on the IPv6 loopback address that answers every
    request with the given status; every payment challenge could be
    signed; the platform's URL parser is given on the one URL that is
    asked of it. *)
Definition loopback_world (code : N) (text : jsstring) : World :=
  mkWorld (fun _ => Some (mkResponse code text))
          (fun _ _ => Some (lit "signed"))
          (fun input => if str_eqb input (lit "http://[::1]:3000/api/check-domain")
                        then Some loopback_url else None)
          (fun _ => false).

(** ** A world that pays *)

(** The body of a payment challenge: an object with the accepted
    payment requirements. *)
Definition challenge_body : jsstring :=
  JSON_stringify
    (JObject [(lit "x402Version", JNumber (Fin false (2 ^ 52) (-52)));
              (lit "accepts",
               JArray [JObject [(lit "scheme", JString (lit "exact"));
                                (lit "network", JString (lit "base"))]])])
    0.

(** A remote API that answers every request, paid or not, with a
    payment challenge; an authorization is produced for a challenge
    that lists accepted requirements, and the payment client is set up
    for a well-formed wallet key. *)
Definition paying_world : World :=
  mkWorld (fun _ => Some (mkResponse 402 challenge_body))
          (fun _ challenge =>
             match JSON_parse (body challenge) with
             | Some (JObject props) =>
                 if str_mem (lit "accepts") (List.map fst props)
                 then Some (lit "signed") else None
             | _ => None
             end)
          (fun _ => None)
          is_private_key.

(** The environment with a wallet key. *)
Definition paid_env : Env := mkEnv None (Some wallet_key).

(* ===================================================================== *)
(** * Facts about strings *)
(* ===================================================================== *)

Lemma str_eqb_eq (a b : jsstring) : str_eqb a b = true <-> a = b.
Proof.
  revert b; induction a as [|x a IH]; intros [|y b]; simpl; split; try congruence; auto.
  - intros H. apply andb_true_iff in H as [H1 H2].
    apply N.eqb_eq in H1. apply IH in H2. congruence.
  - intros H. injection H as -> ->. rewrite N.eqb_refl. simpl. now apply IH.
Qed.

Lemma str_eqb_refl (a : jsstring) : str_eqb a a = true.
Proof. now apply str_eqb_eq. Qed.

Lemma str_eqb_neq (a b : jsstring) : str_eqb a b = false <-> a <> b.
Proof.
  split.
  - intros H E. apply str_eqb_eq in E. congruence.
  - intros H. destruct (str_eqb a b) eqn:E; auto. apply str_eqb_eq in E. contradiction.
Qed.

Lemma startsWith_prefix (s p : jsstring) :
  startsWith s p = true <-> exists r, s = p ++ r.
Proof.
  revert s; induction p as [|c p IH]; intros s; simpl.
  - split; [intros _; now exists s | reflexivity].
  - destruct s as [|d s].
    + split; [discriminate | intros [r H]; discriminate].
    + rewrite andb_true_iff, N.eqb_eq, IH. split.
      * intros [-> [r ->]]. now exists r.
      * intros [r H]. injection H as -> ->. eauto.
Qed.

Lemma startsWith_app (p r : jsstring) : startsWith (p ++ r) p = true.
Proof. apply startsWith_prefix. now exists r. Qed.

Lemma includes_char (s : jsstring) (c : codeunit) :
  includes s [c] = true <-> In c s.
Proof.
  induction s as [|d s IH].
  - simpl. split; [discriminate | tauto].
  - cbn [includes startsWith]. rewrite orb_true_iff, andb_true_iff, IH, N.eqb_eq.
    simpl. split.
    + intros [[-> _] | H]; auto.
    + intros [-> | H]; auto.
Qed.

(* ===================================================================== *)
(** * Correctness of the matcher *)
(* ===================================================================== *)

Section Matcher.
Import RegExp.

Lemma Lang_cat_inv a b s :
  Lang (Cat a b) s -> exists s1 s2, s = s1 ++ s2 /\ Lang a s1 /\ Lang b s2.
Proof. intros H. inversion H; subst. eauto. Qed.

Lemma Lang_alt_inv a b s : Lang (Alt a b) s -> Lang a s \/ Lang b s.
Proof. intros H. inversion H; subst; auto. Qed.

Lemma Lang_star_cons_inv a c s :
  Lang (Star a) (c :: s) ->
  exists s1 s2, s = s1 ++ s2 /\ Lang a (c :: s1) /\ Lang (Star a) s2.
Proof.
  intros H. remember (Star a) as r eqn:Er. remember (c :: s) as w eqn:Ew.
  revert Er Ew. induction H; try discriminate.
  intros Er Ew. injection Er as ->.
  destruct s0 as [|d s0].
  - simpl in Ew. now apply IHLang2.
  - simpl in Ew. injection Ew as -> <-. eauto.
Qed.

Lemma nullable_Lang r : nullable r = true <-> Lang r [].
Proof.
  induction r; simpl.
  - split; [discriminate | intros H; inversion H].
  - split; [constructor | reflexivity].
  - split; [discriminate | intros H; inversion H].
  - rewrite andb_true_iff, IHr1, IHr2. split.
    + intros [H1 H2]. change (@nil codeunit) with (@nil codeunit ++ []).
      now constructor.
    + intros H. apply Lang_cat_inv in H as (s1 & s2 & E & H1 & H2).
      symmetry in E. apply app_eq_nil in E as [-> ->]. auto.
  - rewrite orb_true_iff, IHr1, IHr2. split.
    + intros [H | H]; [now apply L_alt_l | now apply L_alt_r].
    + intros H. apply Lang_alt_inv in H. tauto.
  - split; [constructor | reflexivity].
Qed.

Lemma deriv_Lang c r : forall s, Lang (deriv c r) s <-> Lang r (c :: s).
Proof.
  induction r; intros s; simpl.
  - split; intros H; inversion H.
  - split; intros H; inversion H.
  - destruct (b c) eqn:E; split; intros H; inversion H; subst.
    + now constructor.
    + constructor.
    + congruence.
  - assert (Hcat : Lang (Cat (deriv c r1) r2) s <->
                   exists s1 s2, s = s1 ++ s2 /\ Lang r1 (c :: s1) /\ Lang r2 s2).
    { split.
      - intros H. apply Lang_cat_inv in H as (s1 & s2 & -> & H1 & H2).
        apply IHr1 in H1. eauto.
      - intros (s1 & s2 & -> & H1 & H2). constructor; auto. now apply IHr1. }
    destruct (nullable r1) eqn:N.
    + split.
      * intros H. apply Lang_alt_inv in H as [H | H].
        -- apply Hcat in H as (s1 & s2 & -> & H1 & H2).
           change (c :: s1 ++ s2) with ((c :: s1) ++ s2). now constructor.
        -- apply IHr2 in H. change (c :: s) with ([] ++ c :: s).
           constructor; auto. now apply nullable_Lang.
      * intros H. apply Lang_cat_inv in H as (s1 & s2 & E & H1 & H2).
        destruct s1 as [|d s1]; simpl in E.
        -- subst s2. apply L_alt_r. now apply IHr2.
        -- injection E as <- ->. apply L_alt_l. apply Hcat. eauto.
    + rewrite Hcat. split.
      * intros (s1 & s2 & -> & H1 & H2).
        change (c :: s1 ++ s2) with ((c :: s1) ++ s2). now constructor.
      * intros H. apply Lang_cat_inv in H as (s1 & s2 & E & H1 & H2).
        destruct s1 as [|d s1]; simpl in E.
        -- apply nullable_Lang in H1. congruence.
        -- injection E as <- ->. eauto.
  - split; intros H; apply Lang_alt_inv in H as [H | H].
    + apply L_alt_l. now apply IHr1.
    + apply L_alt_r. now apply IHr2.
    + apply L_alt_l. now apply IHr1.
    + apply L_alt_r. now apply IHr2.
  - split.
    + intros H. apply Lang_cat_inv in H as (s1 & s2 & -> & H1 & H2).
      apply IHr in H1. change (c :: s1 ++ s2) with ((c :: s1) ++ s2).
      now constructor.
    + intros H. apply Lang_star_cons_inv in H as (s1 & s2 & -> & H1 & H2).
      constructor; auto. now apply IHr.
Qed.

Lemma matches_Lang r s : matches r s = true <-> Lang r s.
Proof.
  revert r; induction s as [|c s IH]; intros r; simpl.
  - apply nullable_Lang.
  - rewrite IH. apply deriv_Lang.
Qed.

End Matcher.

(** ** Four dot-separated groups of digits *)

Lemma is_digit_range c : RegExp.is_digit c = true <-> (48 <= c <= 57)%N.
Proof.
  unfold RegExp.is_digit. rewrite andb_true_iff, !N.leb_le. tauto.
Qed.

Lemma Lang_star_digit g :
  RegExp.Lang (RegExp.Star RegExp.digit) g <-> Forall (fun c => (48 <= c <= 57)%N) g.
Proof.
  split.
  - intros H. remember (RegExp.Star RegExp.digit) as r eqn:E.
    induction H; try discriminate; [constructor|].
    injection E as ->. inversion H; subst. simpl.
    constructor; [now apply is_digit_range | auto].
  - induction 1 as [|c g Hc _ IH]; [constructor|].
    change (c :: g) with ([c] ++ g). constructor; auto.
    constructor. now apply is_digit_range.
Qed.

Lemma Lang_plus_digit g :
  RegExp.Lang (RegExp.Plus RegExp.digit) g <-> digit_group g.
Proof.
  unfold RegExp.Plus, digit_group. split.
  - intros H. apply Lang_cat_inv in H as (s1 & s2 & -> & H1 & H2).
    inversion H1; subst. simpl. split; [discriminate|].
    constructor; [now apply is_digit_range | now apply Lang_star_digit].
  - intros [Hne H]. destruct g as [|c g]; [contradiction|].
    inversion H; subst. change (c :: g) with ([c] ++ g).
    constructor; [constructor; now apply is_digit_range | now apply Lang_star_digit].
Qed.

Lemma Lang_chr a s : RegExp.Lang (RegExp.chr a) s <-> s = [cu a].
Proof.
  unfold RegExp.chr. split.
  - intros H. inversion H; subst. apply N.eqb_eq in H1. now subst.
  - intros ->. constructor. apply N.eqb_refl.
Qed.

Lemma ipv4_pattern_Lang s : RegExp.Lang ipv4_pattern s <-> dotted_quad s.
Proof.
  unfold ipv4_pattern, dotted_quad. split.
  - intros H.
    apply Lang_cat_inv in H as (a & r1 & -> & Ha & H).
    apply Lang_cat_inv in H as (p1 & r2 & -> & Hp1 & H).
    apply Lang_cat_inv in H as (b & r3 & -> & Hb & H).
    apply Lang_cat_inv in H as (p2 & r4 & -> & Hp2 & H).
    apply Lang_cat_inv in H as (c & r5 & -> & Hc & H).
    apply Lang_cat_inv in H as (p3 & d & -> & Hp3 & Hd).
    apply Lang_chr in Hp1, Hp2, Hp3. subst.
    apply Lang_plus_digit in Ha, Hb, Hc, Hd.
    exists a, b, c, d. repeat split; auto; apply Ha || apply Hb || apply Hc || apply Hd.
  - intros (a & b & c & d & -> & Ha & Hb & Hc & Hd).
    apply Lang_plus_digit in Ha, Hb, Hc, Hd.
    repeat (constructor; auto; try (apply Lang_chr; reflexivity)).
Qed.

Lemma RegExp_test_ipv4 s : RegExp_test ipv4_pattern s = true <-> dotted_quad s.
Proof. unfold RegExp_test. rewrite matches_Lang. apply ipv4_pattern_Lang. Qed.

Lemma dotted_quad_no_at s : dotted_quad s -> ~ In (cu "@") s.
Proof.
  intros (a & b & c & d & -> & [_ Ha] & [_ Hb] & [_ Hc] & [_ Hd]) Hin.
  rewrite Forall_forall in Ha, Hb, Hc, Hd.
  repeat (apply in_app_or in Hin as [Hin | Hin]);
    try (match goal with H : forall x, In x ?g -> _, Hi : In _ ?g |- _ =>
                           apply H in Hi; cbv in Hi; destruct Hi as [H1 H2];
                           try (now apply H1); try (now apply H2) end);
    try (destruct Hin as [Hin | []]; discriminate).
Qed.

(* ===================================================================== *)
(** * The target classifier *)
(* ===================================================================== *)

(** C1: for every string the classifier returns an object with exactly
    one key, whose value is the string itself; the key is chosen by the
    ordered rules: [email] when the string contains an at sign,
    otherwise [ip] when the whole string is four dot-separated groups of
    digits, otherwise [url] when it starts with [http://] or
    [https://], otherwise [domain]. *)
Theorem detectTargetType_classifies (target : jsstring) :
  exists key,
    detectTargetType target = [(key, target)] /\ Classified target key.
Proof.
  unfold detectTargetType.
  destruct (includes target (lit "@")) eqn:Eat.
  { exists (lit "email"). split; [reflexivity|].
    constructor. now apply includes_char. }
  assert (Hat : ~ In (cu "@") target).
  { intros H. apply includes_char in H.
    change (lit "@") with [cu "@"] in Eat. congruence. }
  destruct (RegExp_test ipv4_pattern target) eqn:Eip.
  { exists (lit "ip"). split; [reflexivity|].
    constructor; auto. now apply RegExp_test_ipv4. }
  assert (Hip : ~ dotted_quad target).
  { intros H. apply RegExp_test_ipv4 in H. congruence. }
  destruct (startsWith target (lit "http://")) eqn:Eh.
  { exists (lit "url"). split; [reflexivity|].
    apply Classified_url; auto. left. now apply startsWith_prefix. }
  destruct (startsWith target (lit "https://")) eqn:Ehs.
  { exists (lit "url"). split; [reflexivity|].
    apply Classified_url; auto. right. now apply startsWith_prefix. }
  exists (lit "domain"). split; [reflexivity|].
  apply Classified_domain; auto; intros H; apply startsWith_prefix in H; congruence.
Qed.



(* ===================================================================== *)
(** * Facts about [span], [split_on] and [join] *)
(* ===================================================================== *)

Lemma span_spec (p : codeunit -> bool) (s : jsstring) :
  forall a r, span p s = (a, r) ->
    s = a ++ r /\ forallb p a = true
    /\ match r with c :: _ => p c = false | [] => True end.
Proof.
  induction s as [|c s IH]; simpl; intros a r H.
  - injection H as <- <-. auto.
  - destruct (p c) eqn:Ec.
    + destruct (span p s) as [a' r'] eqn:Es. injection H as <- <-.
      destruct (IH _ _ eq_refl) as (-> & Ha & Hr). simpl. rewrite Ec. auto.
    + injection H as <- <-. simpl. rewrite Ec. auto.
Qed.

Lemma span_app_stop (p : codeunit -> bool) (a : jsstring) (c : codeunit) (r : jsstring) :
  forallb p a = true -> p c = false -> span p (a ++ c :: r) = (a, c :: r).
Proof.
  induction a as [|x a IH]; simpl; intros Ha Hc.
  - now rewrite Hc.
  - apply andb_true_iff in Ha as [Hx Ha]. now rewrite Hx, IH.
Qed.

Lemma span_all (p : codeunit -> bool) (a : jsstring) :
  forallb p a = true -> span p a = (a, []).
Proof.
  induction a as [|x a IH]; simpl; intros Ha; [reflexivity|].
  apply andb_true_iff in Ha as [Hx Ha]. now rewrite Hx, IH.
Qed.

Lemma split_on_none (sep : codeunit) (a : jsstring) :
  ~ In sep a -> split_on sep a = [a].
Proof.
  induction a as [|c a IH]; simpl; intros H; [reflexivity|].
  destruct (N.eqb_spec c sep) as [-> | Hne]; [tauto|].
  rewrite IH by tauto. reflexivity.
Qed.

Lemma split_on_app (sep : codeunit) (a r : jsstring) :
  ~ In sep a -> split_on sep (a ++ sep :: r) = a :: split_on sep r.
Proof.
  induction a as [|c a IH]; simpl; intros H.
  - now rewrite N.eqb_refl.
  - destruct (N.eqb_spec c sep) as [-> | Hne]; [tauto|].
    rewrite IH by tauto. reflexivity.
Qed.

Lemma split_on_join (sep : codeunit) (parts : list jsstring) :
  parts <> [] -> Forall (fun p => ~ In sep p) parts ->
  split_on sep (join [sep] parts) = parts.
Proof.
  induction parts as [|p parts IH]; intros Hne H; [contradiction|].
  inversion H as [|? ? Hp Hps]; subst.
  destruct parts as [|q parts].
  - simpl. now apply split_on_none.
  - change (join [sep] (p :: q :: parts)) with (p ++ sep :: join [sep] (q :: parts)).
    rewrite split_on_app by assumption. f_equal. apply IH; [discriminate | assumption].
Qed.

Lemma in_split_on (sep : codeunit) (s : jsstring) (l : jsstring) (c : codeunit) :
  In l (split_on sep s) -> In c l -> In c s.
Proof.
  revert l; induction s as [|d s IH]; simpl; intros l Hl Hc.
  - destruct Hl as [<- | []]. contradiction.
  - destruct (N.eqb_spec d sep) as [-> | Hne].
    + destruct Hl as [<- | Hl]; [contradiction|]. right. eapply IH; eauto.
    + destruct (split_on sep s) as [|l0 ls] eqn:Es.
      * destruct Hl as [<- | []]. destruct Hc as [<- | []]. now left.
      * destruct Hl as [<- | Hl].
        -- destruct Hc as [<- | Hc]; [now left|]. right. apply (IH l0); simpl; auto.
        -- right. apply (IH l); simpl; auto.
Qed.

Lemma split_on_cover (sep : codeunit) (s : jsstring) (c : codeunit) :
  In c s -> c = sep \/ exists l, In l (split_on sep s) /\ In c l.
Proof.
  induction s as [|d s IH]; simpl; intros H; [contradiction|].
  destruct (N.eqb_spec d sep) as [-> | Hne].
  - destruct H as [<- | H]; [now left|].
    destruct (IH H) as [-> | (l & Hl & Hc)]; [now left|].
    right. exists l. split; [now right | assumption].
  - destruct (split_on sep s) as [|l0 ls] eqn:Es.
    + destruct H as [<- | H].
      * right. exists [d]. split; now left.
      * destruct (IH H) as [-> | (l & [] & _)]. now left.
    + destruct H as [<- | H].
      * right. exists (d :: l0). split; now left.
      * destruct (IH H) as [-> | (l & [<- | Hl] & Hc)]; [now left | |].
        -- right. exists (d :: l0). split; [now left | now right].
        -- right. exists l. split; [now right | assumption].
Qed.

Lemma join_nil_iff (sep : jsstring) (parts : list jsstring) :
  Forall (fun p => p <> []) parts -> join sep parts = [] -> parts = [].
Proof.
  intros H E. destruct parts as [|p parts]; [reflexivity|].
  inversion H; subst. destruct parts; simpl in E.
  - contradiction.
  - apply app_eq_nil in E as [-> _]. contradiction.
Qed.

(* ===================================================================== *)
(** * The URL model *)
(* ===================================================================== *)

Lemma upper_hex_digit_not_reserved n : ~ reserved (upper_hex_digit n).
Proof.
  unfold reserved, upper_hex_digit.
  destruct (N.ltb_spec n 10); lia.
Qed.

Lemma urlencode_byte_not_reserved b c : In c (urlencode_byte b) -> ~ reserved c.
Proof.
  unfold urlencode_byte.
  destruct (N.eqb_spec b 32) as [-> | _].
  { intros [<- | []]. unfold reserved. lia. }
  destruct (is_alnum b || (b =? 42)%N || (b =? 45)%N || (b =? 46)%N || (b =? 95)%N) eqn:E.
  - intros [<- | []]. unfold reserved. intros H.
    unfold is_alnum in E.
    destruct H as [-> | [-> | [-> | ->]]]; discriminate E.
  - intros [<- | [<- | [<- | []]]].
    + unfold reserved. lia.
    + apply upper_hex_digit_not_reserved.
    + apply upper_hex_digit_not_reserved.
Qed.

Lemma urlencode_not_reserved s c : In c (urlencode s) -> ~ reserved c.
Proof.
  unfold urlencode. intros H. apply in_flat_map in H as (b & _ & H).
  eapply urlencode_byte_not_reserved; eauto.
Qed.

Lemma query_item_no_amp name value : ~ In (cu "&") (query_item name value).
Proof.
  unfold query_item. intros H.
  apply in_app_or in H as [H | H]; [|apply in_app_or in H as [H | H]].
  - apply urlencode_not_reserved in H. apply H. now left.
  - destruct H as [H | []]. discriminate.
  - apply urlencode_not_reserved in H. apply H. now left.
Qed.

Lemma urlencoded_serialize_items (l : StrRecord) :
  urlencoded_serialize l
  = join (lit "&") (List.map (fun nv => query_item (fst nv) (snd nv)) l).
Proof. reflexivity. Qed.

Lemma urlencoded_serialize_nil_iff (l : StrRecord) :
  urlencoded_serialize l = [] <-> l = [].
Proof.
  split; [|now intros ->].
  intros H. rewrite urlencoded_serialize_items in H.
  apply join_nil_iff in H.
  - now destruct l.
  - apply Forall_forall. intros p Hp. apply in_map_iff in Hp as (nv & <- & _).
    unfold query_item. intros E. apply app_eq_nil in E as [_ E]. discriminate.
Qed.

(** ** [URLSearchParams.set] on a list without the name *)

Lemma str_mem_In k ks : str_mem k ks = true <-> In k ks.
Proof.
  induction ks as [|k' ks IH]; simpl; [split; [discriminate | tauto]|].
  rewrite orb_true_iff, IH, str_eqb_eq. split; intros [H | H]; auto.
Qed.

Lemma set_pair_fresh name value (l : StrRecord) :
  str_mem name (keys l) = false -> set_pair name value l = l ++ [(name, value)].
Proof.
  induction l as [|[n v] l IH]; simpl; intros H; [reflexivity|].
  apply orb_false_iff in H as [Hn Hl].
  destruct (str_eqb n name) eqn:E.
  - apply str_eqb_eq in E. subst n. now rewrite str_eqb_refl in Hn.
  - now rewrite IH.
Qed.

Lemma set_pair_In name value (l : StrRecord) : In (name, value) (set_pair name value l).
Proof.
  induction l as [|[n v] l IH]; simpl; [now left|].
  destruct (str_eqb n name) eqn:E.
  - apply str_eqb_eq in E. subst n. now left.
  - now right.
Qed.

Lemma str_mem_app k a b : str_mem k (a ++ b) = str_mem k a || str_mem k b.
Proof.
  induction a as [|x a IH]; simpl; [reflexivity|]. now rewrite IH, orb_assoc.
Qed.

Lemma set_all_distinct (params acc : StrRecord) :
  distinct (keys params) = true ->
  (forall k, In k (keys params) -> str_mem k (keys acc) = false) ->
  set_all params acc = acc ++ params.
Proof.
  revert acc; induction params as [|[k v] params IH]; simpl; intros acc Hd Hfresh.
  - now rewrite app_nil_r.
  - apply andb_true_iff in Hd as [Hk Hd]. apply negb_true_iff in Hk.
    rewrite set_pair_fresh by (apply Hfresh; now left).
    unfold set_all in IH. rewrite IH; auto.
    + now rewrite <- app_assoc.
    + intros k' Hk'. unfold keys. rewrite map_app. fold (keys acc).
      rewrite str_mem_app. simpl. rewrite orb_false_r.
      apply orb_false_iff. split; [apply Hfresh; now right|].
      apply str_eqb_neq. intros ->. apply str_mem_In in Hk'. congruence.
Qed.

(** ** The URL object through [searchParams.set] *)

Lemma searchParams_set_fold (params : StrRecord) (u : URL) :
  let u' := fold_left (fun u kv => searchParams_set u (fst kv) (snd kv)) params u in
  URL_stem u' = URL_stem u
  /\ url_fragment u' = url_fragment u
  /\ searchParams u' = set_all params (searchParams u)
  /\ (params <> [] -> url_query u' = query_of (searchParams u')).
Proof.
  revert u; induction params as [|[k v] params IH]; intros u; simpl.
  - repeat split; auto. intros H. contradiction.
  - specialize (IH (searchParams_set u k v)). simpl in IH.
    destruct IH as (Hs & Hf & Hl & Hq).
    repeat split; auto.
    intros _. destruct params as [|kv params]; [|apply Hq; discriminate].
    simpl. unfold query_of. simpl.
    now destruct (urlencoded_serialize (set_pair k v (searchParams u))).
Qed.

Lemma URL_toString_stem (u : URL) :
  URL_toString u
  = URL_stem u
    ++ match url_query u with Some q => lit "?" ++ q | None => [] end
    ++ match url_fragment u with Some f => lit "#" ++ f | None => [] end.
Proof. reflexivity. Qed.
(** ** The URL parser *)

Ltac char_props :=
  unfold plain_path_char, is_char, cu, is_lower, is_digit, RegExp.is_digit, is_alnum in *;
  simpl N_of_ascii in *;
  repeat rewrite ?andb_true_iff, ?orb_true_iff, ?negb_true_iff, ?negb_false_iff,
    ?N.leb_le, ?N.eqb_eq, ?N.eqb_neq in *.

Lemma plain_domain_chars h c : plain_domain h = true -> In c h -> no_mark c.
Proof.
  unfold plain_domain. intros H Hc.
  apply andb_true_iff in H as [Hl _].
  apply (split_on_cover (cu ".")) in Hc as [-> | (l & Hl' & Hc)]; [split; discriminate|].
  rewrite forallb_forall in Hl. specialize (Hl _ Hl').
  unfold plain_label in Hl. destruct l as [|x l]; [discriminate|].
  apply andb_true_iff in Hl as [Hl _].
  rewrite forallb_forall in Hl. specialize (Hl _ Hc).
  unfold no_mark. char_props. lia.
Qed.

Lemma plain_ipv4_chars h c : plain_ipv4 h = true -> In c h -> no_mark c.
Proof.
  unfold plain_ipv4. intros H Hc.
  apply andb_true_iff in H as [_ Hl].
  apply (split_on_cover (cu ".")) in Hc as [-> | (l & Hl' & Hc)]; [split; discriminate|].
  rewrite forallb_forall in Hl. specialize (Hl _ Hl').
  unfold ipv4_part in Hl. destruct l as [|x l]; [discriminate|].
  do 2 (apply andb_true_iff in Hl as [Hl _]).
  rewrite forallb_forall in Hl. specialize (Hl _ Hc).
  unfold no_mark. char_props. lia.
Qed.

Lemma plain_host_chars h c : plain_host h = true -> In c h -> no_mark c.
Proof.
  unfold plain_host. intros H. apply orb_true_iff in H as [H | H].
  - now apply plain_domain_chars.
  - now apply plain_ipv4_chars.
Qed.

Lemma plain_port_chars scheme p c : plain_port scheme p = true -> In c p -> no_mark c.
Proof.
  unfold plain_port. destruct p as [|x p]; [discriminate|]. intros H Hc.
  do 3 (apply andb_true_iff in H as [H _]).
  rewrite forallb_forall in H. specialize (H _ Hc). unfold no_mark. char_props. lia.
Qed.

Lemma plain_path_chars p c : plain_path p = true -> In c p -> no_mark c.
Proof.
  unfold plain_path. intros H Hc.
  rewrite forallb_forall in H. specialize (H _ Hc). unfold no_mark. char_props. lia.
Qed.

Lemma URL_parse_hier_spec scheme rest u :
  URL_parse_hier scheme rest = Some u ->
  url_query u = None /\ url_fragment u = None /\ searchParams u = []
  /\ (exists host,
         url_host u = Some host
         /\ URL_stem u = scheme ++ lit "://" ++ host
                         ++ match url_port u with Some p => lit ":" ++ p | None => [] end
                         ++ url_path u
         /\ forall c,
              In c (host ++ match url_port u with Some p => lit ":" ++ p | None => [] end
                    ++ url_path u) -> no_mark c).
Proof.
  unfold URL_parse_hier.
  destruct (span _ rest) as [authority path] eqn:E1.
  destruct (span _ authority) as [host port_part] eqn:E2.
  destruct (plain_host host) eqn:Hh; [|discriminate].
  set (port := match port_part with _ :: p => Some p | [] => None end).
  destruct (match port with Some p => plain_port scheme p | None => true end) eqn:Hp;
    [|discriminate].
  destruct (plain_path path) eqn:Hpath; [|discriminate].
  simpl. intros H. injection H as <-. simpl. repeat split; auto.
  exists host. split; [reflexivity|]. split.
  { unfold URL_stem. cbn [url_scheme url_username url_password url_host url_port url_path].
    now rewrite <- !app_assoc. }
  intros c Hc.
  apply in_app_or in Hc as [Hc | Hc]; [now apply (plain_host_chars _ _ Hh)|].
  apply in_app_or in Hc as [Hc | Hc].
  - destruct port as [p|]; [|contradiction].
    destruct Hc as [<- | Hc]; [split; discriminate|]. now apply (plain_port_chars _ _ _ Hp).
  - destruct path as [|x path].
    + destruct Hc as [<- | []]. split; discriminate.
    + now apply (plain_path_chars _ _ Hpath).
Qed.

Lemma URL_parse_hier_app scheme rest ub sfx :
  URL_parse_hier scheme rest = Some ub ->
  plain_path sfx = true ->
  exists u,
    URL_parse_hier scheme (rest ++ lit "/" ++ sfx) = Some u
    /\ URL_stem u = scheme ++ lit "://" ++ rest ++ lit "/" ++ sfx.
Proof.
  unfold URL_parse_hier. intros H Hsfx.
  destruct (span _ rest) as [authority path] eqn:E1.
  apply span_spec in E1 as (-> & Hauth & Hstop).
  assert (E1' : span (fun c => negb (is_char c "/")) ((authority ++ path) ++ lit "/" ++ sfx)
                = (authority, path ++ lit "/" ++ sfx)).
  { rewrite <- app_assoc. destruct path as [|x path].
    - simpl. apply span_app_stop; auto.
    - simpl. apply span_app_stop; auto. }
  rewrite E1'.
  destruct (span _ authority) as [host port_part] eqn:E2.
  apply span_spec in E2 as (-> & _ & Hcolon).
  assert (Hpp : forall b, plain_path path = b ->
                          plain_path (path ++ lit "/" ++ sfx) = b).
  { intros b <-. unfold plain_path in *. rewrite forallb_app. simpl.
    rewrite Hsfx. now rewrite andb_true_r. }
  assert (Hne : match path ++ lit "/" ++ sfx with
                | [] => lit "/" | _ :: _ => path ++ lit "/" ++ sfx end
                = path ++ lit "/" ++ sfx).
  { destruct path; reflexivity. }
  rewrite Hne. rewrite (Hpp _ eq_refl).
  destruct (plain_host host && _ && plain_path path); [|discriminate].
  eexists. split; [reflexivity|].
  unfold URL_stem. cbn [url_scheme url_username url_password url_host url_port url_path].
  destruct port_part as [|x p].
  - now rewrite <- !app_assoc.
  - char_props. subst x. now rewrite <- !app_assoc.
Qed.

Lemma URL_plain_scheme input u :
  URL_plain input = Some u ->
  exists scheme rest,
    input = scheme ++ lit "://" ++ rest
    /\ URL_parse_hier scheme rest = Some u
    /\ (scheme = lit "https" \/ scheme = lit "http").
Proof.
  unfold URL_plain. intros H.
  destruct (startsWith input (lit "https://")) eqn:E1.
  - apply startsWith_prefix in E1 as [rest ->].
    exists (lit "https"), rest. split; [reflexivity|]. split; [exact H | now left].
  - destruct (startsWith input (lit "http://")) eqn:E2; [|discriminate].
    apply startsWith_prefix in E2 as [rest ->].
    exists (lit "http"), rest. split; [reflexivity|]. split; [exact H | now right].
Qed.

Lemma URL_plain_spec input u :
  URL_plain input = Some u ->
  url_query u = None /\ url_fragment u = None /\ searchParams u = []
  /\ (forall c, In c (URL_stem u) -> no_mark c).
Proof.
  intros H. destruct (URL_plain_scheme _ _ H) as (scheme & rest & _ & Hu & Hs).
  apply URL_parse_hier_spec in Hu as (Hq & Hf & Hl & host & _ & Hstem & Hc).
  split; [exact Hq|]. split; [exact Hf|]. split; [exact Hl|].
  assert (Hsch : Forall no_mark (scheme ++ lit "://")).
  { destruct Hs as [-> | ->]; repeat constructor; discriminate. }
  intros c Hin. rewrite Hstem, app_assoc in Hin.
  apply in_app_or in Hin as [Hin | Hin]; [|now apply Hc].
  rewrite Forall_forall in Hsch. now apply Hsch.
Qed.

Lemma URL_plain_app base ub sfx :
  URL_plain base = Some ub ->
  plain_path sfx = true ->
  exists u,
    URL_plain (base ++ lit "/" ++ sfx) = Some u
    /\ URL_stem u = base ++ lit "/" ++ sfx.
Proof.
  unfold URL_plain. intros H Hsfx.
  destruct (startsWith base (lit "https://")) eqn:E1.
  - apply startsWith_prefix in E1 as [rest ->].
    rewrite <- app_assoc. rewrite startsWith_app.
    change (skipn 8 (lit "https://" ++ rest ++ lit "/" ++ sfx)) with (rest ++ lit "/" ++ sfx).
    change (skipn 8 (lit "https://" ++ rest)) with rest in H.
    destruct (URL_parse_hier_app _ _ _ _ H Hsfx) as (u & Hu & Hstem).
    exists u. split; [exact Hu|]. rewrite Hstem. reflexivity.
  - destruct (startsWith base (lit "http://")) eqn:E2; [|discriminate].
    apply startsWith_prefix in E2 as [rest ->].
    assert (E3 : startsWith ((lit "http://" ++ rest) ++ lit "/" ++ sfx) (lit "https://") = false).
    { rewrite <- E1. destruct rest as [|x rest]; [reflexivity|]. reflexivity. }
    rewrite E3. rewrite <- app_assoc. rewrite startsWith_app.
    change (skipn 7 (lit "http://" ++ rest ++ lit "/" ++ sfx)) with (rest ++ lit "/" ++ sfx).
    change (skipn 7 (lit "http://" ++ rest)) with rest in H.
    destruct (URL_parse_hier_app _ _ _ _ H Hsfx) as (u & Hu & Hstem).
    exists u. split; [exact Hu|]. rewrite Hstem. reflexivity.
Qed.

(** ** Reading an ASCII name back from its encoding *)

Lemma utf8_code_point_head cp b bs :
  utf8_code_point cp = b :: bs -> (b < 128)%N -> cp = b /\ bs = [].
Proof.
  unfold utf8_code_point.
  destruct (N.ltb_spec cp 128); [intros E; injection E as <- <-; auto|].
  destruct (N.ltb_spec cp 2048);
    [intros E Hb; assert (Eb : (b = 192 + cp / 64)%N) by congruence;
     revert Eb; generalize (cp / 64)%N; intros; lia|].
  destruct (N.ltb_spec cp 65536); intros E Hb.
  - assert (Eb : (b = 224 + cp / 4096)%N) by congruence.
    revert Eb; generalize (cp / 4096)%N; intros; lia.
  - assert (Eb : (b = 240 + cp / 262144)%N) by congruence.
    revert Eb; generalize (cp / 262144)%N; intros; lia.
Qed.

Lemma utf8_code_point_nonempty cp : utf8_code_point cp <> [].
Proof.
  unfold utf8_code_point.
  repeat match goal with |- context [if ?b then _ else _] => destruct b end; discriminate.
Qed.

Lemma utf8_encode_ascii (k cs : jsstring) :
  Forall (fun c => (c < 128)%N) cs -> utf8_encode k = cs -> k = cs.
Proof.
  revert cs; induction k as [|c t IH]; intros cs Hcs; cbn [utf8_encode].
  - now intros <-.
  - assert (Hbad : forall bs : list N, ([239; 191; 189] ++ bs)%N = cs -> False).
    { intros bs <-. apply Forall_inv in Hcs. lia. }
    assert (Hhead : forall cp bs, utf8_code_point cp ++ bs = cs ->
                                  exists cs', cs = cp :: cs' /\ bs = cs').
    { intros cp bs E. destruct (utf8_code_point cp) as [|b0 bs0] eqn:Ecp.
      - now apply utf8_code_point_nonempty in Ecp.
      - cbn [app] in E. subst cs. apply Forall_inv in Hcs.
        apply utf8_code_point_head in Ecp as [-> ->]; auto. eauto. }
    destruct (is_high_surrogate c) eqn:Eh.
    { destruct t as [|d t'].
      - intros E. exfalso. apply (Hbad []). exact E.
      - destruct (is_low_surrogate d).
        + intros E. exfalso. apply Hhead in E as (cs' & -> & _).
          apply Forall_inv in Hcs.
          revert Hcs. generalize ((c - 55296) * 1024 + (d - 56320))%N. intros; lia.
        + intros E. exfalso. now apply Hbad in E. }
    destruct (is_low_surrogate c).
    { intros E. exfalso. now apply Hbad in E. }
    intros E. apply Hhead in E as (cs' & -> & E).
    f_equal. apply IH; auto. now apply Forall_inv_tail in Hcs.
Qed.

Lemma urlencode_byte_head b rest c cs :
  urlencode_byte b ++ rest = c :: cs -> is_alnum c = true -> b = c /\ rest = cs.
Proof.
  unfold urlencode_byte.
  destruct (N.eqb_spec b 32) as [-> | _].
  { simpl. intros H Hc. injection H as <- <-. discriminate. }
  destruct (is_alnum b || _ || _ || _ || _).
  - simpl. intros H _. injection H as <- <-. auto.
  - simpl. intros H Hc. injection H as <- _. discriminate.
Qed.

Lemma urlencode_bytes_alnum (bytes cs : list N) :
  Forall (fun c => is_alnum c = true) cs ->
  flat_map urlencode_byte bytes = cs -> bytes = cs.
Proof.
  revert cs; induction bytes as [|b bytes IH]; intros cs Hcs; simpl.
  - now intros <-.
  - destruct cs as [|c cs].
    + intros H. apply app_eq_nil in H as [H _].
      unfold urlencode_byte in H.
      repeat match type of H with (if ?b then _ else _) = _ => destruct b end; discriminate.
    + intros H. inversion Hcs; subst.
      apply urlencode_byte_head in H as [-> H]; auto.
      f_equal. now apply IH.
Qed.

Lemma urlencode_alnum (k cs : jsstring) :
  Forall (fun c => is_alnum c = true) cs -> urlencode k = cs -> k = cs.
Proof.
  intros Hcs H. unfold urlencode in H.
  apply urlencode_bytes_alnum in H; auto.
  apply utf8_encode_ascii in H; auto.
  eapply Forall_impl; [|exact Hcs]. intros c Hc. simpl in Hc.
  char_props. lia.
Qed.

Lemma app_sep_unique (sep : codeunit) (a a' b b' : jsstring) :
  ~ In sep a -> ~ In sep a' -> a ++ sep :: b = a' ++ sep :: b' -> a = a' /\ b = b'.
Proof.
  revert a'; induction a as [|x a IH]; intros [|y a'] Ha Ha' H; simpl in *.
  - injection H as ->. auto.
  - injection H as <- _. tauto.
  - injection H as -> _. tauto.
  - injection H as -> H. apply IH in H as [-> ->]; tauto.
Qed.

Lemma query_item_demo k v :
  query_item k v = lit "demo=true" -> k = lit "demo".
Proof.
  unfold query_item. intros H.
  change (lit "demo=true") with (lit "demo" ++ cu "=" :: lit "true") in H.
  change (lit "=" ++ urlencode v) with (cu "=" :: urlencode v) in H.
  apply app_sep_unique in H as [H _].
  - apply urlencode_alnum in H; auto. repeat constructor.
  - intros Hin. apply urlencode_not_reserved in Hin. apply Hin. right. now left.
  - cbv. intuition discriminate.
Qed.

(** ** Reading a URL string *)

Lemma not_In_forallb (c : codeunit) (s : jsstring) :
  ~ In c s -> forallb (fun x => negb (N.eqb x c)) s = true.
Proof.
  induction s as [|x s IH]; simpl; intros H; [reflexivity|].
  rewrite IH by tauto. destruct (N.eqb_spec x c); [subst; tauto | reflexivity].
Qed.

Lemma no_mark_not_In (s : jsstring) :
  (forall c, In c s -> no_mark c) -> ~ In (cu "?") s /\ ~ In (cu "#") s.
Proof.
  intros H. split; intros Hin; apply H in Hin; destruct Hin as [H1 H2]; auto.
Qed.

(** A URL string made of a part without question mark and hash, a
    query without hash and a fragment is read back into its parts. *)
Lemma URL_string_parts (stem : jsstring) (q f : option jsstring) :
  ~ In (cu "?") stem -> ~ In (cu "#") stem ->
  (forall q', q = Some q' -> ~ In (cu "#") q') ->
  let url := stem ++ match q with Some q' => lit "?" ++ q' | None => [] end
                  ++ match f with Some f' => lit "#" ++ f' | None => [] end in
  before_query url = stem
  /\ query_items url = match q with Some q' => split_on (cu "&") q' | None => [] end.
Proof.
  intros Hq Hh Hqh. cbv zeta.
  set (front := stem ++ match q with Some q' => lit "?" ++ q' | None => [] end).
  assert (Hfront : ~ In (cu "#") front).
  { subst front. intros Hin. apply in_app_or in Hin as [Hin | Hin]; [auto|].
    destruct q as [q'|]; [|destruct Hin].
    destruct Hin as [Hin | Hin]; [discriminate|]. now apply (Hqh q'). }
  assert (Hw : without_fragment
                 (stem ++ match q with Some q' => lit "?" ++ q' | None => [] end
                       ++ match f with Some f' => lit "#" ++ f' | None => [] end)
               = front).
  { unfold without_fragment. rewrite app_assoc. fold front.
    destruct f as [f'|].
    - change (lit "#" ++ f') with (cu "#" :: f').
      rewrite span_app_stop; [reflexivity | now apply not_In_forallb | reflexivity].
    - rewrite app_nil_r, span_all; [reflexivity | now apply not_In_forallb]. }
  unfold before_query, query_items. rewrite Hw. subst front.
  assert (Hstop : forallb (fun c => negb (is_char c "?")) stem = true)
    by now apply not_In_forallb.
  destruct q as [q'|].
  - change (lit "?" ++ q') with (cu "?" :: q').
    rewrite span_app_stop by (auto; reflexivity). auto.
  - rewrite app_nil_r, span_all by exact Hstop. auto.
Qed.

(** The serialized pairs: their text and their items. *)
Lemma query_text (l : StrRecord) :
  match query_of l with Some q => lit "?" ++ q | None => [] end
  = match List.map item_of l with
    | [] => []
    | _ :: _ => lit "?" ++ join (lit "&") (List.map item_of l)
    end.
Proof.
  unfold query_of. rewrite urlencoded_serialize_items. fold item_of.
  destruct l as [|kv l]; [reflexivity|].
  destruct (join _ _) eqn:E; [|reflexivity].
  unfold item_of in E. rewrite <- urlencoded_serialize_items in E.
  apply urlencoded_serialize_nil_iff in E. discriminate.
Qed.

Lemma item_of_chars (kv : jsstring * jsstring) :
  ~ In (cu "&") (item_of kv) /\ ~ In (cu "#") (item_of kv).
Proof.
  split; [apply query_item_no_amp|].
  unfold item_of, query_item. intros H.
  apply in_app_or in H as [H | H]; [|apply in_app_or in H as [H | H]].
  - apply urlencode_not_reserved in H. apply H. unfold reserved. auto.
  - destruct H as [H | []]. discriminate.
  - apply urlencode_not_reserved in H. apply H. unfold reserved. auto.
Qed.

Lemma join_no_hash (items : list jsstring) :
  Forall (fun it => ~ In (cu "#") it) items -> ~ In (cu "#") (join (lit "&") items).
Proof.
  induction 1 as [|it items Hit _ IH]; [intros []|].
  cbn [join]. destruct items as [|it' items'].
  - exact Hit.
  - intros Hin. apply in_app_or in Hin as [Hin | Hin]; [auto|].
    destruct Hin as [Hin | Hin]; [discriminate | auto].
Qed.

Lemma query_of_items (l : StrRecord) :
  match query_of l with Some q => split_on (cu "&") q | None => [] end = List.map item_of l
  /\ (forall q, query_of l = Some q -> ~ In (cu "#") q).
Proof.
  unfold query_of. rewrite urlencoded_serialize_items. fold item_of.
  assert (Hamp : Forall (fun p => ~ In 38%N p) (List.map item_of l)).
  { apply Forall_forall. intros p Hp. apply in_map_iff in Hp as (kv & <- & _).
    apply item_of_chars. }
  assert (Hhash : ~ In (cu "#") (join (lit "&") (List.map item_of l))).
  { apply join_no_hash. apply Forall_forall. intros p Hp.
    apply in_map_iff in Hp as (kv & <- & _). apply item_of_chars. }
  destruct l as [|kv l]; [split; [reflexivity | discriminate]|].
  destruct (join (lit "&") (List.map item_of (kv :: l))) as [|c q0] eqn:E.
  { unfold item_of in E. rewrite <- urlencoded_serialize_items in E.
    apply urlencoded_serialize_nil_iff in E. discriminate. }
  split.
  - rewrite <- E. change (cu "&") with 38%N. change (lit "&") with [38%N].
    apply split_on_join; [discriminate | exact Hamp].
  - intros q Hq. injection Hq as <-. exact Hhash.
Qed.

(** ** The URL parser on every input *)

Lemma URL_plain_input_chars input u :
  URL_plain input = Some u -> forall c, In c input -> no_mark c.
Proof.
  intros H. destruct (URL_plain_scheme _ _ H) as (scheme & rest & -> & Hu & Hs).
  assert (Hsch : Forall no_mark (scheme ++ lit "://")).
  { destruct Hs as [-> | ->]; repeat constructor; discriminate. }
  rewrite Forall_forall in Hsch.
  unfold URL_parse_hier in Hu.
  destruct (span _ rest) as [authority path] eqn:E1.
  destruct (span _ authority) as [host port_part] eqn:E2.
  apply span_spec in E1 as (-> & _ & _). apply span_spec in E2 as (-> & _ & Hcolon).
  destruct (plain_host host) eqn:Hh; [|discriminate].
  set (port := match port_part with _ :: p => Some p | [] => None end) in *.
  destruct (match port with Some p => plain_port scheme p | None => true end) eqn:Hp;
    [|discriminate].
  destruct (plain_path path) eqn:Hpath; [|discriminate]. clear Hu.
  intros c Hin. rewrite app_assoc in Hin.
  apply in_app_or in Hin as [Hin | Hin]; [now apply Hsch|].
  apply in_app_or in Hin as [Hin | Hin]; [|now apply (plain_path_chars _ _ Hpath)].
  apply in_app_or in Hin as [Hin | Hin]; [now apply (plain_host_chars _ _ Hh)|].
  destruct port_part as [|x p]; [destruct Hin|]. subst port.
  destruct Hin as [<- | Hin]; [|now apply (plain_port_chars _ _ _ Hp)].
  char_props. subst x. split; discriminate.
Qed.

Lemma URL_plain_head input u :
  URL_plain input = Some u -> exists t, input = 104%N :: t.
Proof.
  intros H. destruct (URL_plain_scheme _ _ H) as (scheme & rest & -> & _ & [-> | ->]);
    eexists; reflexivity.
Qed.

Lemma URL_parse_plain input u : URL_plain input = Some u -> URL_parse input = URL_record u.
Proof.
  intros H. destruct (URL_plain_head _ _ H) as [t E].
  pose proof (URL_plain_input_chars _ _ H) as Hc.
  unfold URL_parse. rewrite E at 1. cbn [strip_leading].
  change (104 <=? 32)%N with false. cbv iota.
  change (negb (is_ascii_alpha 104%N)) with false. cbv iota.
  rewrite span_all; [now rewrite H|].
  apply not_In_forallb. now apply no_mark_not_In.
Qed.

Lemma URL_new_plain (w : World) input u : URL_plain input = Some u -> URL_new w input = Some u.
Proof. intros H. unfold URL_new. now rewrite (URL_parse_plain _ _ H). Qed.

Lemma URL_plain_ok input0 input u : URL_plain input0 = Some u -> URL_ok input u.
Proof.
  intros H. destruct (URL_plain_spec _ _ H) as (Hq & Hf & Hl & Hc).
  destruct (no_mark_not_In _ Hc) as [H1 H2].
  unfold URL_ok. rewrite Hq, Hf. repeat split; auto. discriminate.
Qed.

Lemma URL_parse_ok input u : URL_parse input = URL_record u -> URL_ok input u.
Proof.
  unfold URL_parse. destruct (strip_leading input) as [|c t]; [discriminate|].
  destruct (negb (is_ascii_alpha c)); [discriminate|].
  destruct (span _ input) as [front rest] eqn:E.
  apply span_spec in E as (Einput & _ & Hstop).
  destruct (URL_plain front) as [u0|] eqn:Ep; [|discriminate].
  destruct rest as [|x f].
  - intros H. injection H as <-. now apply (URL_plain_ok front).
  - destruct (forallb fragment_plain f); [|discriminate].
    intros H. injection H as <-.
    destruct (URL_plain_ok front input u0 Ep) as (H1 & H2 & H3 & H4 & _ & H6).
    destruct (URL_plain_spec _ _ Ep) as (Hq & _).
    unfold URL_ok. cbn [url_query url_fragment searchParams].
    repeat split; auto.
    intros Hno. exfalso. apply Hno. rewrite Einput. apply in_or_app. right. left.
    apply negb_false_iff in Hstop. now apply N.eqb_eq in Hstop.
Qed.

Lemma URL_new_ok (w : World) input u :
  platform_ok w -> URL_new w input = Some u -> URL_ok input u.
Proof.
  intros Hw. unfold URL_new. destruct (URL_parse input) as [u0| |] eqn:E.
  - intros H. injection H as <-. now apply URL_parse_ok.
  - discriminate.
  - apply Hw.
Qed.

(** ** The request URL *)

(** The URL string in terms of the record the parser returns. *)
Lemma buildUrl_record (w : World) (base endpoint : jsstring) (params : StrRecord)
  (demo : bool) (u : URL) :
  URL_new w (base ++ lit "/api/" ++ endpoint) = Some u ->
  buildUrl w base endpoint params demo
  = Some (URL_stem u
          ++ match built_query u params demo with Some q => lit "?" ++ q | None => [] end
          ++ match url_fragment u with Some f => lit "#" ++ f | None => [] end).
Proof.
  intros Hu. unfold buildUrl. rewrite Hu. f_equal.
  destruct (searchParams_set_fold params u) as (Hs1 & Hf1 & Hl1 & Hq1).
  set (u1 := fold_left _ params u) in *.
  unfold built_query, final_pairs_from. destruct demo.
  - unfold URL_toString.
    replace (URL_stem (searchParams_set u1 (lit "demo") (lit "true")))
      with (URL_stem u1) by reflexivity.
    rewrite Hs1. f_equal.
    unfold searchParams_set. cbn [url_query url_fragment]. rewrite Hf1, Hl1.
    replace (match params with [] => _ | _ :: _ => _ end)
      with (query_of (set_pair (lit "demo") (lit "true") (set_all params (searchParams u))))
      by now destruct params.
    reflexivity.
  - unfold URL_toString. rewrite Hs1, Hf1. f_equal.
    destruct params as [|kv params]; [reflexivity|].
    rewrite Hq1 by discriminate. now rewrite Hl1.
Qed.

(** The items of the built URL. *)
Lemma buildUrl_items (w : World) (base endpoint : jsstring) (params : StrRecord)
  (demo : bool) (u : URL) (input : jsstring) :
  URL_ok input u ->
  URL_new w (base ++ lit "/api/" ++ endpoint) = Some u ->
  exists url,
    buildUrl w base endpoint params demo = Some url
    /\ before_query url = URL_stem u
    /\ query_items url
       = match built_query u params demo with
         | Some q => split_on (cu "&") q
         | None => []
         end.
Proof.
  intros (H1 & H2 & H3 & _) Hu.
  eexists. split; [apply buildUrl_record; exact Hu|].
  apply URL_string_parts; auto.
  intros q. unfold built_query.
  destruct params as [|kv params]; [destruct demo|]; auto; apply query_of_items.
Qed.

Lemma final_pairs_fresh (params : StrRecord) (demo : bool) :
  distinct (keys params) = true ->
  str_mem (lit "demo") (keys params) = false ->
  final_pairs params demo = params ++ (if demo then [(lit "demo", lit "true")] else []).
Proof.
  intros Hd Hdemo. unfold final_pairs, final_pairs_from.
  rewrite (set_all_distinct params [] Hd) by reflexivity.
  cbn [app]. destruct demo; [now apply set_pair_fresh | now rewrite app_nil_r].
Qed.

(** On a plain base URL and endpoint, in every world. *)
Lemma buildUrl_pairs (w : World) (base endpoint : jsstring) (params : StrRecord) (demo : bool) :
  plain_base base = true ->
  plain_path endpoint = true ->
  exists url,
    buildUrl w base endpoint params demo = Some url
    /\ url = base ++ lit "/api/" ++ endpoint
             ++ match List.map item_of (final_pairs params demo) with
                | [] => []
                | _ :: _ => lit "?" ++ join (lit "&") (List.map item_of (final_pairs params demo))
                end
    /\ before_query url = base ++ lit "/api/" ++ endpoint
    /\ query_items url = List.map item_of (final_pairs params demo).
Proof.
  unfold plain_base. intros Hb He.
  destruct (URL_plain base) as [ub|] eqn:Eb; [|discriminate].
  assert (Hsfx : plain_path (lit "api/" ++ endpoint) = true).
  { unfold plain_path in *. rewrite forallb_app, He. reflexivity. }
  destruct (URL_plain_app base ub (lit "api/" ++ endpoint) Eb Hsfx) as (u & Hu & Hstem).
  change (base ++ lit "/" ++ lit "api/" ++ endpoint)
    with (base ++ lit "/api/" ++ endpoint) in Hu, Hstem.
  destruct (URL_plain_spec _ u Hu) as (Hq & Hf & Hl & _).
  pose proof (URL_plain_ok _ (base ++ lit "/api/" ++ endpoint) u Hu) as Hok.
  pose proof (URL_new_plain w _ u Hu) as Hnew.
  destruct (buildUrl_items w base endpoint params demo u _ Hok Hnew) as (url & E & Hbq & Hqi).
  assert (Ebq : built_query u params demo = query_of (final_pairs params demo)).
  { unfold built_query, final_pairs. rewrite Hl, Hq.
    destruct params as [|kv params]; [destruct demo|]; reflexivity. }
  exists url. split; [exact E|].
  rewrite (buildUrl_record w base endpoint params demo u Hnew) in E.
  rewrite Hstem in *. rewrite Ebq in *. rewrite Hf, app_nil_r in E.
  rewrite query_text in E.
  split; [|split; [exact Hbq|]].
  - assert (E' : url = (base ++ lit "/api/" ++ endpoint)
                       ++ match List.map item_of (final_pairs params demo) with
                          | [] => []
                          | _ :: _ => lit "?" ++ join (lit "&")
                                        (List.map item_of (final_pairs params demo))
                          end) by congruence.
    rewrite E'. now rewrite <- !app_assoc.
  - rewrite Hqi. apply query_of_items.
Qed.
(** ** The statement about request URLs *)

Lemma forallb_not_In (c : codeunit) (s : jsstring) :
  forallb (fun x => negb (N.eqb x c)) s = true -> ~ In c s.
Proof.
  induction s as [|x s IH]; cbn [forallb]; intros H; [intros []|].
  apply andb_true_iff in H as [Hx Hs]. intros [-> | Hin]; [|now apply IH].
  now rewrite N.eqb_refl in Hx.
Qed.

Lemma world_answering_ok (code : N) (text : jsstring) : platform_ok (world_answering code text).
Proof. intros input u H. discriminate H. Qed.

Lemma loopback_world_ok (code : N) (text : jsstring) : platform_ok (loopback_world code text).
Proof.
  intros input u H. cbn [loopback_world URL_platform] in H.
  destruct (str_eqb input _); [|discriminate]. injection H as <-.
  unfold URL_ok. cbn [url_query url_fragment searchParams loopback_url].
  repeat split; try discriminate; auto; apply forallb_not_In; reflexivity.
Qed.






(* ===================================================================== *)
(** * Decimal digits *)
(* ===================================================================== *)

Section Digits.
Local Open Scope Z_scope.

Lemma digits_value_app (a b : jsstring) :
  digits_value (a ++ b) = fold_left (fun acc d => 10 * acc + (Z.of_N d - 48)) b (digits_value a).
Proof. unfold digits_value. now rewrite fold_left_app. Qed.

Lemma digits_value_snoc (a : jsstring) (d : codeunit) :
  digits_value (a ++ [d]) = 10 * digits_value a + (Z.of_N d - 48).
Proof. now rewrite digits_value_app. Qed.

Lemma digits_aux_acc (fuel : nat) (n : Z) (acc : jsstring) :
  digits_aux fuel n acc = digits_aux fuel n [] ++ acc.
Proof.
  revert n acc; induction fuel as [|f IH]; intros n acc; simpl; [reflexivity|].
  destruct (n <? 10); [reflexivity|].
  rewrite IH, (IH _ [_]), <- app_assoc. reflexivity.
Qed.

Lemma digits_aux_value (fuel : nat) (n : Z) :
  0 <= n < 2 ^ Z.of_nat fuel -> digits_value (digits_aux fuel n []) = n.
Proof.
  revert n; induction fuel as [|f IH]; intros n Hn.
  - simpl in Hn. assert (n = 0) by lia. subst. reflexivity.
  - cbn [digits_aux]. destruct (Z.ltb_spec n 10).
    + unfold digits_value. cbn [fold_left].
      rewrite Z2N.id by (pose proof (Z.mod_pos_bound n 10); lia).
      rewrite Z.mod_small by lia. lia.
    + rewrite digits_aux_acc, digits_value_snoc.
      rewrite Z2N.id by (pose proof (Z.mod_pos_bound n 10); lia).
      rewrite IH.
      * pose proof (Z.div_mod n 10). lia.
      * rewrite Nat2Z.inj_succ, Z.pow_succ_r in Hn by lia.
        split; [apply Z.div_pos; lia|].
        apply Z.div_lt_upper_bound; lia.
Qed.

Lemma digits_value_digits (n : Z) : 0 <= n -> digits_value (digits n) = n.
Proof.
  intros Hn. unfold digits. apply digits_aux_value. split; [assumption|].
  destruct (Z.eq_dec n 0) as [-> | Hne]; [reflexivity|].
  rewrite Nat2Z.inj_succ, Z2Nat.id by apply Z.log2_nonneg.
  apply Z.log2_spec. lia.
Qed.

Lemma digits_aux_all_digits (fuel : nat) (n : Z) (acc : jsstring) :
  0 <= n -> forallb is_digit acc = true ->
  forallb is_digit (digits_aux fuel n acc) = true.
Proof.
  revert n acc; induction fuel as [|f IH]; intros n acc Hn Hacc;
    cbn [digits_aux]; [assumption|].
  assert (Hd : is_digit (Z.to_N (48 + n mod 10)) = true).
  { pose proof (Z.mod_pos_bound n 10). unfold is_digit, RegExp.is_digit.
    rewrite andb_true_iff, !N.leb_le. lia. }
  destruct (n <? 10).
  - cbn [forallb]. now rewrite Hd.
  - apply IH; [apply Z.div_pos; lia|]. cbn [forallb]. now rewrite Hd.
Qed.

Lemma digits_all_digits (n : Z) : 0 <= n -> forallb is_digit (digits n) = true.
Proof. intros Hn. now apply digits_aux_all_digits. Qed.

Lemma digits_aux_nonempty (fuel : nat) (n : Z) (acc : jsstring) :
  digits_aux (S fuel) n acc <> [].
Proof.
  revert n acc. induction fuel as [|f IH]; intros n acc.
  - simpl. destruct (n <? 10); discriminate.
  - cbn [digits_aux]. destruct (n <? 10); [discriminate|]. apply IH.
Qed.

Lemma digits_nonempty (n : Z) : digits n <> [].
Proof. apply digits_aux_nonempty. Qed.

End Digits.

(* ===================================================================== *)
(** * The API caller *)
(* ===================================================================== *)

Lemma callShieldApi_unfold (m : Module) (endpoint : jsstring) (params : StrRecord) (w : World) :
  callShieldApi m endpoint params w
  = match buildUrl w (SHIELDAPI_URL m) endpoint params (demoMode m) with
    | None => (Rejected InvalidURL, [])
    | Some url =>
        match call_transport (paymentFetch m) url w with
        | (Resolved response, trace) =>
            (if negb (Response_ok response)
             then Rejected (Error (failure_message endpoint response))
             else match JSON_parse (body response) with
                  | Some data => Resolved data
                  | None => Rejected SyntaxError
                  end, trace)
        | (Rejected e, trace) => (Rejected e, trace)
        end
    end.
Proof.
  unfold callShieldApi.
  destruct (buildUrl _ _ _ _ _) as [url|]; [|reflexivity].
  unfold bind. destruct (call_transport _ _ _) as [[response|e] trace]; [|reflexivity].
  destruct (negb (Response_ok response)).
  - unfold throw. now rewrite app_nil_r.
  - destruct (JSON_parse _); unfold ret, throw; now rewrite app_nil_r.
Qed.

Lemma Response_ok_range (r : Response) :
  Response_ok r = true <-> (200 <= status r <= 299)%N.
Proof. unfold Response_ok. rewrite andb_true_iff, !N.leb_le. tauto. Qed.

(** C3: when the transport delivers a response, a status in the range
    200 to 299 makes the call return the body parsed as JSON, as it is
    (a body that is no JSON text is a syntax error); any other status
    makes the call fail with an error whose message holds the endpoint
    name, the status code in decimal and the first 200 code units of
    the body at most; such a response never gives a result. *)
Theorem callShieldApi_outcome
  (m : Module) (endpoint : jsstring) (params : StrRecord) (w : World)
  (url : jsstring) (response : Response) (trace : list Request) :
  buildUrl w (SHIELDAPI_URL m) endpoint params (demoMode m) = Some url ->
  call_transport (paymentFetch m) url w = (Resolved response, trace) ->
  let result := fst (callShieldApi m endpoint params w) in
  let excerpt := substring0 (body response) 200 in
  ((200 <= status response <= 299)%N ->
     result = match JSON_parse (body response) with
              | Some data => Resolved data
              | None => Rejected SyntaxError
              end)
  /\ (~ (200 <= status response <= 299)%N ->
        result = Rejected (Error (lit "ShieldAPI " ++ endpoint ++ lit " failed ("
                                  ++ status_text (status response) ++ lit "): " ++ excerpt))
        /\ (forall data, result <> Resolved data))
  /\ digits_value (status_text (status response)) = Z.of_N (status response)
  /\ (List.length excerpt <= 200)%nat
  /\ has_prefix excerpt (body response).
Proof.
  intros Hurl Hresp result excerpt. subst result.
  rewrite callShieldApi_unfold, Hurl, Hresp. cbn [fst].
  split; [|split; [|split; [|split]]].
  - intros H. apply Response_ok_range in H. now rewrite H.
  - intros H. destruct (Response_ok response) eqn:E.
    + now apply Response_ok_range in E.
    + cbn [negb]. split; [reflexivity | discriminate].
  - unfold status_text. apply digits_value_digits. lia.
  - unfold excerpt, substring0. apply firstn_le_length.
  - unfold excerpt, substring0. exists (skipn 200 (body response)).
    symmetry. apply firstn_skipn.
Qed.

(** ** Requests of a call *)

Lemma fetch_trace (r : Request) (w : World) : snd (fetch r w) = [r].
Proof. reflexivity. Qed.

Lemma callShieldApi_plain (m : Module) (endpoint : jsstring) (params : StrRecord) (w : World) :
  paymentFetch m = PlainFetch ->
  snd (callShieldApi m endpoint params w)
  = match buildUrl w (SHIELDAPI_URL m) endpoint params (demoMode m) with
    | Some url => [mkRequest url None]
    | None => []
    end.
Proof.
  intros Hp. rewrite callShieldApi_unfold, Hp.
  destruct (buildUrl _ _ _ _ _) as [url|]; [|reflexivity].
  unfold call_transport, fetch. now destruct (server w _).
Qed.

Lemma exec_one_call (m : Module) (endpoint : jsstring) (params : StrRecord) (w : World) :
  snd (exec m (one_call endpoint params) w) = snd (callShieldApi m endpoint params w)
  /\ fst (exec m (one_call endpoint params) w)
     = match fst (callShieldApi m endpoint params w) with
       | Resolved data => Resolved (formatResult data)
       | Rejected e => Rejected e
       end.
Proof.
  unfold one_call. cbn [exec]. unfold bind.
  destruct (callShieldApi m endpoint params w) as [[data|e] trace]; cbn [fst snd].
  - unfold ret. cbn. now rewrite app_nil_r.
  - auto.
Qed.

(** ** The query of a demo request *)

Lemma buildUrl_demo (w : World) (base endpoint : jsstring) (params : StrRecord)
  (url : jsstring) :
  platform_ok w ->
  buildUrl w base endpoint params true = Some url ->
  In (lit "demo=true") (query_items url).
Proof.
  intros Hw Hurl.
  destruct (URL_new w (base ++ lit "/api/" ++ endpoint)) as [u|] eqn:Eu;
    [|unfold buildUrl in Hurl; rewrite Eu in Hurl; discriminate].
  destruct (buildUrl_items w base endpoint params true u _ (URL_new_ok w _ u Hw Eu) Eu)
    as (url' & Hurl' & _ & Hqi).
  assert (E : url' = url) by congruence. subst url'. rewrite Hqi.
  replace (built_query u params true)
    with (query_of (final_pairs_from (searchParams u) params true))
    by (unfold built_query; now destruct params).
  rewrite (proj1 (query_of_items _)).
  apply in_map_iff. exists (lit "demo", lit "true"). split; [reflexivity|].
  unfold final_pairs_from. apply set_pair_In.
Qed.

(** In Demo mode with the plain transport a call sends at most one
    request, without payment and marked [demo=true]. *)
Lemma callShieldApi_demo (m : Module) (endpoint : jsstring) (params : StrRecord) (w : World) :
  platform_ok w ->
  demoMode m = true -> paymentFetch m = PlainFetch ->
  let trace := snd (callShieldApi m endpoint params w) in
  (List.length trace <= 1)%nat
  /\ forall r, In r trace ->
               req_payment r = None /\ In (lit "demo=true") (query_items (req_url r)).
Proof.
  intros Hw Hd Hp. cbv zeta. rewrite callShieldApi_plain by assumption. rewrite Hd.
  destruct (buildUrl _ _ _ _ _) as [url|] eqn:E.
  - split; [simpl; lia|]. intros r [<- | []]. split; [reflexivity|].
    simpl. eapply buildUrl_demo; eauto.
  - split; [simpl; lia|]. intros r [].
Qed.

(** ** The registered handlers *)

Lemma find_tool_In (name : jsstring) (tools : list Tool) (t : Tool) :
  find_tool name tools = Some t -> In t tools /\ tool_name t = name.
Proof.
  induction tools as [|t' tools IH]; simpl; [discriminate|].
  destruct (str_eqb name (tool_name t')) eqn:E.
  - intros H. injection H as ->. apply str_eqb_eq in E. auto.
  - intros H. apply IH in H. tauto.
Qed.

Lemma server_tools_one_call (t : Tool) (value : jsstring) :
  In t server_tools ->
  exists endpoint params, tool_handler t value = one_call endpoint params.
Proof.
  intros H. repeat (destruct H as [<- | H]; [do 2 eexists; reflexivity|]). destruct H.
Qed.

Lemma server_tools_from_table_eq : server_tools_from_table = server_tools.
Proof. reflexivity. Qed.

Lemma callTool_trace (m : Module) (name : jsstring) (args : StrRecord) (w : World) :
  snd (callTool server_tools m name args w) = []
  \/ exists endpoint params,
       snd (callTool server_tools m name args w) = snd (callShieldApi m endpoint params w).
Proof.
  unfold callTool. destruct (find_tool name server_tools) as [t|] eqn:Et; [|now left].
  destruct (lookup (tool_param t) args) as [value|]; [|now left].
  apply find_tool_In in Et as [Hin _].
  destruct (server_tools_one_call _ value Hin) as (endpoint & params & ->).
  right. exists endpoint, params.
  destruct (exec_one_call m endpoint params w) as [Ht _].
  destruct (exec m (one_call endpoint params) w) as [[reply|e] trace]; exact Ht.
Qed.

Lemma callShieldApi_outcome_witness :
  fst (callShieldApi demo_module (lit "check-ip") [(lit "ip", lit "8.8.8.8")]
         (world_answering 500 (lit "boom")))
  = Rejected (Error (lit "ShieldAPI check-ip failed (500): boom")).
Proof.
  destruct (callShieldApi_outcome demo_module (lit "check-ip") [(lit "ip", lit "8.8.8.8")]
              (world_answering 500 (lit "boom"))
              (lit "https://shield.vainplex.dev/api/check-ip?ip=8.8.8.8&demo=true")
              (mkResponse 500 (lit "boom"))
              [mkRequest (lit "https://shield.vainplex.dev/api/check-ip?ip=8.8.8.8&demo=true") None]
              eq_refl eq_refl) as (_ & H & _).
  apply H. simpl. lia.
Defined.

(* ===================================================================== *)
(** * Operating modes *)
(* ===================================================================== *)

Lemma exec_ext {A : Type} (m m' : Module) (p : Prog A) (w : World) :
  SHIELDAPI_URL m = SHIELDAPI_URL m' -> demoMode m = demoMode m' ->
  paymentFetch m = paymentFetch m' ->
  exec m p w = exec m' p w.
Proof.
  intros Hu Hd Hp. induction p as [a | endpoint params k IH]; [reflexivity|].
  cbn [exec]. unfold bind.
  replace (callShieldApi m' endpoint params w) with (callShieldApi m endpoint params w).
  - destruct (callShieldApi m endpoint params w) as [[data|e] trace]; [|reflexivity].
    now rewrite IH.
  - unfold callShieldApi. now rewrite Hu, Hd, Hp.
Qed.

Lemma callTool_ext (tools : list Tool) (m m' : Module) name args (w : World) :
  SHIELDAPI_URL m = SHIELDAPI_URL m' -> demoMode m = demoMode m' ->
  paymentFetch m = paymentFetch m' ->
  callTool tools m name args w = callTool tools m' name args w.
Proof.
  intros Hu Hd Hp. unfold callTool.
  destruct (find_tool name tools) as [t|]; [|reflexivity].
  destruct (lookup (tool_param t) args) as [value|]; [|reflexivity].
  now rewrite (exec_ext m m' (tool_handler t value) w Hu Hd Hp).
Qed.

Lemma callTool_demo (m : Module) (name : jsstring) (args : StrRecord) (w : World) :
  platform_ok w ->
  demoMode m = true -> paymentFetch m = PlainFetch ->
  let trace := snd (callTool server_tools m name args w) in
  (List.length trace <= 1)%nat
  /\ forall r, In r trace ->
               req_payment r = None /\ In (lit "demo=true") (query_items (req_url r)).
Proof.
  intros Hw Hd Hp. cbv zeta.
  destruct (callTool_trace m name args w) as [-> | (endpoint & params & ->)].
  - split; [simpl; lia | intros r []].
  - now apply callShieldApi_demo.
Qed.

(** C4: in Demo mode the payment transport is not installed:
    [initPaymentFetch] returns at once and leaves the plain [fetch] in
    place.  Whatever the base URL is and whatever the remote API
    answers, a call of the API caller sends one unpaid request, the
    built URL, when [new URL] accepts the base URL and the endpoint, and
    none when it throws; the response is never looked at for a
    challenge.  A tool invocation so sends at most one request, without
    payment authorization, whose query holds [demo=true]. *)
Theorem demo_mode_plain_transport (env : Env) (w : World) :
  demoMode (load env) = true ->
  main env w = Resolved (load env)
  /\ paymentFetch (load env) = PlainFetch
  /\ (forall (endpoint : jsstring) (params : StrRecord) (w' : World),
         snd (callShieldApi (load env) endpoint params w')
         = match buildUrl w' (SHIELDAPI_URL (load env)) endpoint params true with
           | Some url => [mkRequest url None]
           | None => []
           end)
  /\ forall (name : jsstring) (args : StrRecord) (w' : World),
       platform_ok w' ->
       let trace := snd (callTool server_tools (load env) name args w') in
       (List.length trace <= 1)%nat
       /\ forall r, In r trace ->
                    req_payment r = None
                    /\ In (lit "demo=true") (query_items (req_url r)).
Proof.
  intros Hdemo. split; [|split; [|split]].
  - unfold main, initPaymentFetch. now rewrite Hdemo.
  - reflexivity.
  - intros endpoint params w'. rewrite callShieldApi_plain by reflexivity.
    now rewrite Hdemo.
  - intros name args w' Hw'. now apply callTool_demo.
Qed.

Lemma demo_mode_plain_transport_witness :
  platform_ok (loopback_world 402 (lit "pay"))
  /\ snd (callTool server_tools (load (mkEnv (Some (lit "http://[::1]:3000")) None))
           (lit "check_domain") [(lit "domain", lit "example.com")]
           (loopback_world 402 (lit "pay")))
     = [mkRequest (lit "http://[::1]:3000/api/check-domain?domain=example.com&demo=true") None]
  /\ forall r,
       In r (snd (callTool server_tools (load (mkEnv (Some (lit "http://[::1]:3000")) None))
                    (lit "check_domain") [(lit "domain", lit "example.com")]
                    (loopback_world 402 (lit "pay")))) ->
       req_payment r = None /\ In (lit "demo=true") (query_items (req_url r)).
Proof.
  assert (Hw : platform_ok (loopback_world 402 (lit "pay"))) by apply loopback_world_ok.
  split; [exact Hw | split; [reflexivity|]].
  destruct (demo_mode_plain_transport (mkEnv (Some (lit "http://[::1]:3000")) None)
              (loopback_world 402 (lit "pay")) eq_refl) as (_ & _ & _ & H).
  apply (H (lit "check_domain") [(lit "domain", lit "example.com")]
           (loopback_world 402 (lit "pay")) Hw).
Defined.

(** C10: a wallet key set to the empty string selects Demo mode just
    as an absent key does: the mode is the falsiness of the key (absent
    or empty), start-up leaves the plain [fetch] in place, every tool
    invocation behaves as without the variable, and each request it
    sends is unpaid and carries [demo=true]. *)
Theorem empty_key_is_demo_mode (url : option jsstring) (w : World) :
  let empty := mkEnv url (Some []) in
  let absent := mkEnv url None in
  demoMode (load empty) = true
  /\ demoMode (load absent) = true
  /\ (forall key, demoMode (load (mkEnv url key)) = true <-> key = None \/ key = Some [])
  /\ main empty w = Resolved (load empty)
  /\ paymentFetch (load empty) = PlainFetch
  /\ (forall (endpoint : jsstring) (params : StrRecord) (w' : World),
         snd (callShieldApi (load empty) endpoint params w')
         = match buildUrl w' (SHIELDAPI_URL (load empty)) endpoint params true with
           | Some url => [mkRequest url None]
           | None => []
           end)
  /\ forall (name : jsstring) (args : StrRecord) (w' : World),
       callTool server_tools (load empty) name args w'
       = callTool server_tools (load absent) name args w'
       /\ (platform_ok w' ->
           forall r, In r (snd (callTool server_tools (load empty) name args w')) ->
                     req_payment r = None
                     /\ In (lit "demo=true") (query_items (req_url r))).
Proof.
  cbv zeta. split; [reflexivity|]. split; [reflexivity|].
  split; [|split; [|split; [|split]]].
  - intros [[|c k]|]; simpl; split; auto; try discriminate.
    intros [H | H]; discriminate.
  - reflexivity.
  - reflexivity.
  - intros endpoint params w'. now rewrite callShieldApi_plain by reflexivity.
  - intros name args w'. split.
    + apply callTool_ext; reflexivity.
    + intros Hw'. now apply callTool_demo.
Qed.

Lemma empty_key_is_demo_mode_witness :
  platform_ok (loopback_world 200 (lit "{}"))
  /\ snd (callTool server_tools (load (mkEnv (Some (lit "http://[::1]:3000")) (Some [])))
           (lit "check_domain") [(lit "domain", lit "example.com")]
           (loopback_world 200 (lit "{}")))
     = [mkRequest (lit "http://[::1]:3000/api/check-domain?domain=example.com&demo=true") None]
  /\ forall r,
       In r (snd (callTool server_tools
                    (load (mkEnv (Some (lit "http://[::1]:3000")) (Some [])))
                    (lit "check_domain") [(lit "domain", lit "example.com")]
                    (loopback_world 200 (lit "{}")))) ->
       req_payment r = None /\ In (lit "demo=true") (query_items (req_url r)).
Proof.
  assert (Hw : platform_ok (loopback_world 200 (lit "{}"))) by apply loopback_world_ok.
  split; [exact Hw | split; [reflexivity|]].
  destruct (empty_key_is_demo_mode (Some (lit "http://[::1]:3000"))
              (loopback_world 200 (lit "{}"))) as (_ & _ & _ & _ & _ & _ & H).
  exact (proj2 (H (lit "check_domain") [(lit "domain", lit "example.com")]
                  (loopback_world 200 (lit "{}"))) Hw).
Defined.

(** ** Paid mode *)

Lemma wrapFetchWithPayment_unfold (key url : jsstring) (w : World) :
  wrapFetchWithPayment key url w
  = match server w (mkRequest url None) with
    | None => (Rejected FetchFailed, [mkRequest url None])
    | Some resp =>
        if (status resp =? 402)%N then
          match sign w key resp with
          | None => (Rejected PaymentError, [mkRequest url None])
          | Some auth =>
              (match server w (mkRequest url (Some auth)) with
               | Some final => Resolved final
               | None => Rejected FetchFailed
               end, [mkRequest url None; mkRequest url (Some auth)])
          end
        else (Resolved resp, [mkRequest url None])
    end.
Proof.
  unfold wrapFetchWithPayment, bind, fetch, authorize, ret.
  destruct (server w (mkRequest url None)) as [resp|]; [|reflexivity].
  destruct (status resp =? 402)%N; [|reflexivity].
  destruct (sign w key resp) as [auth|]; [|reflexivity].
  now destruct (server w (mkRequest url (Some auth))).
Qed.

Lemma main_paid (env : Env) (w0 : World) (m : Module) :
  demoMode (load env) = false ->
  main env w0 = Resolved m ->
  exists key,
    env_SHIELDAPI_WALLET_PRIVATE_KEY env = Some key /\ key <> []
    /\ payment_client w0 key = true
    /\ m = mkModule (SHIELDAPI_URL (load env)) (Some key) false (PaymentFetch key).
Proof.
  unfold main, initPaymentFetch. intros Hd. rewrite Hd.
  unfold load in *. cbn [demoMode SHIELDAPI_WALLET_PRIVATE_KEY SHIELDAPI_URL] in *.
  destruct (env_SHIELDAPI_WALLET_PRIVATE_KEY env) as [[|c k]|]; try discriminate.
  destruct (payment_client w0 (c :: k)) eqn:E; [|discriminate].
  intros H. injection H as <-. exists (c :: k). repeat split; auto. discriminate.
Qed.

(** C5: in Paid mode, that is, after a start-up with a wallet key that
    is not empty, [paymentFetch] is the wrapped [fetch] for that key and
    no request is marked as a demo request by the mode.  A call then
    sends two requests at most.  When the first response is a payment
    challenge (status 402) and the signing capability yields an
    authorization, exactly one more request is sent, the same URL with
    the authorization attached, and its response is final: if it is
    again a challenge the call fails with the error of a 402 response
    and nothing further is sent.  Without an authorization the call
    fails with a payment error after the one request; a first response
    that is no challenge is not retried. *)
Theorem paid_mode_single_retry
  (env : Env) (w0 : World) (m : Module) (endpoint : jsstring) (params : StrRecord)
  (w : World) (url : jsstring) (first : Response) :
  demoMode (load env) = false ->
  main env w0 = Resolved m ->
  buildUrl w (SHIELDAPI_URL m) endpoint params (demoMode m) = Some url ->
  server w (mkRequest url None) = Some first ->
  exists key,
    env_SHIELDAPI_WALLET_PRIVATE_KEY env = Some key /\ key <> []
    /\ paymentFetch m = PaymentFetch key
    /\ demoMode m = false
    /\ let result := fst (callShieldApi m endpoint params w) in
       let trace := snd (callShieldApi m endpoint params w) in
       (List.length trace <= 2)%nat
       /\ (status first = 402%N ->
           (forall auth final,
               sign w key first = Some auth ->
               server w (mkRequest url (Some auth)) = Some final ->
               trace = [mkRequest url None; mkRequest url (Some auth)]
               /\ (status final = 402%N ->
                   result = Rejected (Error (failure_message endpoint final))))
           /\ (sign w key first = None ->
               trace = [mkRequest url None] /\ result = Rejected PaymentError))
       /\ (status first <> 402%N -> trace = [mkRequest url None]).
Proof.
  intros Hmode Hmain Hurl Hfirst.
  destruct (main_paid env w0 m Hmode Hmain) as (key & Hkey & Hne & _ & ->).
  exists key. split; [exact Hkey|]. split; [exact Hne|]. split; [reflexivity|].
  split; [reflexivity|]. cbv zeta.
  rewrite callShieldApi_unfold, Hurl. cbn [paymentFetch]. unfold call_transport.
  rewrite wrapFetchWithPayment_unfold, Hfirst.
  destruct (N.eqb_spec (status first) 402) as [E | E].
  - destruct (sign w key first) as [auth|] eqn:Es.
    + destruct (server w (mkRequest url (Some auth))) as [final|] eqn:Ef.
      * cbn [fst snd]. split; [simpl; lia|]. split; [|congruence]. intros _. split.
        -- intros auth' final' Ha Hf'. injection Ha as <-.
           rewrite Ef in Hf'. injection Hf' as <-.
           split; [reflexivity|]. intros H402.
           unfold Response_ok. rewrite H402. reflexivity.
        -- discriminate.
      * cbn [fst snd]. split; [simpl; lia|]. split; [|congruence]. intros _. split.
        -- intros auth' final' Ha Hf'. injection Ha as <-. congruence.
        -- discriminate.
    + cbn [fst snd]. split; [simpl; lia|]. split; [|congruence]. intros _. split.
      * discriminate.
      * auto.
  - cbn [fst snd]. split; [simpl; lia|]. split; [congruence|]. reflexivity.
Qed.

Lemma paid_mode_single_retry_witness :
  exists m,
    main paid_env paying_world = Resolved m
    /\ snd (callShieldApi m (lit "check-ip") [(lit "ip", lit "8.8.8.8")] paying_world)
       = [mkRequest (lit "https://shield.vainplex.dev/api/check-ip?ip=8.8.8.8") None;
          mkRequest (lit "https://shield.vainplex.dev/api/check-ip?ip=8.8.8.8")
                    (Some (lit "signed"))]
    /\ fst (callShieldApi m (lit "check-ip") [(lit "ip", lit "8.8.8.8")] paying_world)
       = Rejected (Error (failure_message (lit "check-ip") (mkResponse 402 challenge_body))).
Proof.
  eexists. split; [reflexivity|].
  destruct (paid_mode_single_retry paid_env paying_world _ (lit "check-ip")
              [(lit "ip", lit "8.8.8.8")] paying_world
              (lit "https://shield.vainplex.dev/api/check-ip?ip=8.8.8.8")
              (mkResponse 402 challenge_body) eq_refl eq_refl eq_refl eq_refl)
    as (key & Hkey & _ & _ & _ & _ & H & _).
  injection Hkey as <-.
  destruct (H eq_refl) as [H1 _].
  destruct (H1 (lit "signed") (mkResponse 402 challenge_body) eq_refl eq_refl) as [Ht Hr].
  split; [exact Ht | exact (Hr eq_refl)].
Defined.

(* ===================================================================== *)
(** * The tool registry *)
(* ===================================================================== *)

Lemma callTool_one_call (t : Tool) (m : Module) (name : jsstring) (args : StrRecord)
  (value endpoint : jsstring) (params : StrRecord) (w : World) :
  find_tool name server_tools = Some t ->
  lookup (tool_param t) args = Some value ->
  tool_handler t value = one_call endpoint params ->
  snd (callTool server_tools m name args w) = snd (callShieldApi m endpoint params w).
Proof.
  intros Ht Hv Hh. unfold callTool. rewrite Ht, Hv, Hh.
  destruct (exec_one_call m endpoint params w) as [H _].
  destruct (exec m (one_call endpoint params) w) as [[reply|e] trace]; exact H.
Qed.

(** C8: the [full_scan] handler makes exactly one call of the API
    caller, at [full-scan], with the object the target classifier
    returns for its target; for [user@example.com] that object is
    [{email: "user@example.com"}], and in Demo mode with the default
    base URL the invocation sends the one request shown. *)
Theorem full_scan_sends_classified_target :
  find_tool (lit "full_scan") server_tools = Some full_scan
  /\ tool_param full_scan = lit "target"
  /\ (forall target,
         tool_handler full_scan target
         = one_call (lit "full-scan") (detectTargetType target))
  /\ (forall target answer,
         api_calls (tool_handler full_scan target) answer
         = [(lit "full-scan", detectTargetType target)])
  /\ (forall (m : Module) (args : StrRecord) (target : jsstring) (w : World),
         lookup (lit "target") args = Some target ->
         snd (callTool server_tools m (lit "full_scan") args w)
         = snd (callShieldApi m (lit "full-scan") (detectTargetType target) w))
  /\ (forall answer,
         api_calls (tool_handler full_scan (lit "user@example.com")) answer
         = [(lit "full-scan", [(lit "email", lit "user@example.com")])])
  /\ (forall w,
         snd (callTool server_tools demo_module (lit "full_scan")
                [(lit "target", lit "user@example.com")] w)
         = [mkRequest
              (lit "https://shield.vainplex.dev/api/full-scan?email=user%40example.com&demo=true")
              None]).
Proof.
  split; [reflexivity|]. split; [reflexivity|]. split; [reflexivity|].
  split; [reflexivity|]. split; [|split; [reflexivity|]].
  - intros m args target w H.
    apply (callTool_one_call full_scan m (lit "full_scan") args target);
      [reflexivity | exact H | reflexivity].
  - intros w.
    rewrite (callTool_one_call full_scan demo_module (lit "full_scan")
               [(lit "target", lit "user@example.com")] (lit "user@example.com")
               (lit "full-scan") [(lit "email", lit "user@example.com")] w
               eq_refl eq_refl eq_refl).
    rewrite callShieldApi_plain by reflexivity. reflexivity.
Qed.

Lemma full_scan_sends_classified_target_witness :
  snd (callTool server_tools paid_module (lit "full_scan")
         [(lit "target", lit "8.8.8.8"); (lit "other", lit "x")]
         (world_answering 200 (lit "{}")))
  = snd (callShieldApi paid_module (lit "full-scan") [(lit "ip", lit "8.8.8.8")]
           (world_answering 200 (lit "{}"))).
Proof.
  destruct full_scan_sends_classified_target as (_ & _ & _ & _ & H & _).
  apply (H paid_module [(lit "target", lit "8.8.8.8"); (lit "other", lit "x")]
           (lit "8.8.8.8") (world_answering 200 (lit "{}")) eq_refl).
Defined.

(** The request of a call with one parameter. *)
Lemma one_param_items (w : World) (base path parameter value : jsstring) (demo : bool)
  (u : URL) :
  str_mem (lit "demo") [parameter] = false ->
  platform_ok w ->
  URL_new w (base ++ lit "/api/" ++ path) = Some u ->
  url_query u = None ->
  exists url,
    buildUrl w base path [(parameter, value)] demo = Some url
    /\ before_query url = URL_stem u
    /\ query_items url
       = query_item parameter value :: (if demo then [lit "demo=true"] else []).
Proof.
  intros Hp Hw Hu Hq.
  pose proof (URL_new_ok w _ u Hw Hu) as Hok.
  destruct (buildUrl_items w base path [(parameter, value)] demo u _ Hok Hu)
    as (url & Hb & Hstem & Hitems).
  exists url. split; [exact Hb|]. split; [exact Hstem|].
  rewrite Hitems. unfold built_query.
  destruct Hok as (_ & _ & _ & _ & _ & Hl). rewrite (Hl Hq).
  fold (final_pairs [(parameter, value)] demo).
  rewrite (final_pairs_fresh [(parameter, value)] demo eq_refl Hp).
  destruct (query_of_items ([(parameter, value)]
                            ++ (if demo then [(lit "demo", lit "true")] else [])))
    as [Hi _].
  rewrite Hi. destruct demo; reflexivity.
Qed.

Lemma one_param_request (t : Tool) (m : Module) (name : jsstring) (args : StrRecord)
  (parameter value path : jsstring) (w : World) (u : URL) :
  find_tool name server_tools = Some t ->
  tool_param t = parameter ->
  tool_handler t value = one_call path [(parameter, value)] ->
  str_mem (lit "demo") [parameter] = false ->
  lookup parameter args = Some value ->
  platform_ok w ->
  URL_new w (SHIELDAPI_URL m ++ lit "/api/" ++ path) = Some u ->
  url_query u = None ->
  exists url,
    buildUrl w (SHIELDAPI_URL m) path [(parameter, value)] (demoMode m) = Some url
    /\ before_query url = URL_stem u
    /\ query_items url
       = query_item parameter value :: (if demoMode m then [lit "demo=true"] else [])
    /\ snd (callTool server_tools m name args w)
       = snd (call_transport (paymentFetch m) url w)
    /\ (paymentFetch m = PlainFetch ->
        snd (callTool server_tools m name args w) = [mkRequest url None]).
Proof.
  intros Ht <- Hh Hp Hv Hw Hu Hq.
  destruct (one_param_items w (SHIELDAPI_URL m) path (tool_param t) value (demoMode m) u
              Hp Hw Hu Hq) as (url & Hb & Hstem & Hitems).
  exists url. split; [exact Hb|]. split; [exact Hstem|]. split; [exact Hitems|].
  rewrite (callTool_one_call t m name args value path [(tool_param t, value)] w Ht Hv Hh).
  split.
  - rewrite callShieldApi_unfold, Hb.
    destruct (call_transport (paymentFetch m) url w) as [[response|e] trace]; reflexivity.
  - intros Hplain. rewrite (callShieldApi_plain m path _ w Hplain), Hb. reflexivity.
Qed.

(** The request of a tool with one parameter in the default
    configuration. *)
Lemma one_param_default (t : Tool) (name parameter value path : jsstring) (w : World) :
  find_tool name server_tools = Some t ->
  tool_param t = parameter ->
  tool_handler t value = one_call path [(parameter, value)] ->
  str_mem (lit "demo") [parameter] = false ->
  plain_path path = true ->
  snd (callTool server_tools demo_module name [(parameter, value)] w)
  = [mkRequest (lit "https://shield.vainplex.dev/api/" ++ path ++ lit "?"
                ++ query_item parameter value ++ lit "&demo=true") None].
Proof.
  intros Ht <- Hh Hp Hpath.
  assert (Hv : lookup (tool_param t) [(tool_param t, value)] = Some value).
  { cbn [lookup]. now rewrite str_eqb_refl. }
  rewrite (callTool_one_call t demo_module name _ value path [(tool_param t, value)] w
             Ht Hv Hh).
  rewrite (callShieldApi_plain demo_module path _ w eq_refl).
  destruct (buildUrl_pairs w (lit "https://shield.vainplex.dev") path
              [(tool_param t, value)] true eq_refl Hpath) as (url & Hb & Hurl & _).
  change (SHIELDAPI_URL demo_module) with (lit "https://shield.vainplex.dev").
  change (demoMode demo_module) with true.
  rewrite Hb, Hurl.
  rewrite (final_pairs_fresh [(tool_param t, value)] true eq_refl Hp).
  reflexivity.
Qed.

(** C9: the registry holds exactly the seven tools of the catalog, in
    its order; each declares the single parameter of its row and calls
    the endpoint of its row; every tool but [full_scan] sends exactly
    its declared parameter, under the same name: its one request is for
    the path of its endpoint, with the one query item of the declared
    parameter and, in Demo mode, the demo marker.  The table-driven
    registration yields the same registry. *)
Theorem registry_matches_catalog :
  List.length server_tools = 7%nat
  /\ Forall2 matches_row server_tools catalog
  /\ distinct (List.map tool_name server_tools) = true
  /\ server_tools_from_table = server_tools.
Proof.
  split; [reflexivity|]. split; [|split; reflexivity].
  unfold server_tools, catalog.
  repeat (apply Forall2_cons || apply Forall2_nil).
  all: unfold matches_row.
  all: split; [reflexivity|]; split; [reflexivity|]; split; [reflexivity|].
  7: { intros H. exfalso. apply H. reflexivity. }
  all: intros _; split; [reflexivity|]; split; [|split].
  all: try (intros m args value w Hv;
            eapply callTool_one_call; [reflexivity | exact Hv | reflexivity]).
  all: try (intros m args value w u Hv Hw Hu Hq;
            eapply (one_param_request _ m _ args _ value _ w u);
            [reflexivity | reflexivity | reflexivity | reflexivity | exact Hv | exact Hw
            | exact Hu | exact Hq]).
  all: intros value w;
       eapply (one_param_default _ _ _ value _ w);
       [reflexivity | reflexivity | reflexivity | reflexivity | reflexivity].
Qed.

(* ===================================================================== *)
(** * Rounding to binary64 *)
(* ===================================================================== *)

Section Rounding.
Local Open Scope Z_scope.

Lemma pow_spec (r n : Z) : pow r n = r ^ n.
Proof.
  destruct n as [|p|p]; [reflexivity| |reflexivity].
  unfold pow. cbn [Z.pow]. unfold Z.pow_pos.
  apply Pos.iter_op_correct.
  - apply Z.mul_1_r.
  - intros x y z. apply Z.mul_assoc.
Qed.

Lemma pow_pos_pos (r n : Z) : 0 < r -> 0 <= n -> 0 < r ^ n.
Proof. intros. now apply Z.pow_pos_nonneg. Qed.

Lemma ge_scaled_spec (r a b j : Z) : ge_scaled r a b j = true <-> scaled_le r a b j.
Proof.
  unfold ge_scaled, scaled_le. rewrite !pow_spec.
  destruct (0 <=? j); apply Z.leb_le.
Qed.

Lemma scaled_le_ext (r a1 b1 a2 b2 j : Z) :
  0 < r -> 0 < b1 -> 0 < b2 -> a1 * b2 = a2 * b1 ->
  scaled_le r a1 b1 j -> scaled_le r a2 b2 j.
Proof.
  unfold scaled_le. intros Hr H1 H2 E.
  destruct (Z.leb_spec 0 j) as [Hj | Hj].
  - pose proof (pow_pos_pos r j Hr Hj). generalize dependent (r ^ j). intros. nia.
  - assert (0 <= - j) by lia.
    pose proof (pow_pos_pos r (- j) Hr H). generalize dependent (r ^ (- j)). intros. nia.
Qed.

Lemma ge_scaled_ext (r a1 b1 a2 b2 j : Z) :
  0 < r -> 0 < b1 -> 0 < b2 -> a1 * b2 = a2 * b1 ->
  ge_scaled r a1 b1 j = ge_scaled r a2 b2 j.
Proof.
  intros Hr H1 H2 E.
  destruct (ge_scaled r a1 b1 j) eqn:E1, (ge_scaled r a2 b2 j) eqn:E2; auto.
  - apply ge_scaled_spec in E1. apply (scaled_le_ext r a1 b1 a2 b2 j Hr H1 H2 E) in E1.
    apply ge_scaled_spec in E1. congruence.
  - apply ge_scaled_spec in E2. apply (scaled_le_ext r a2 b2 a1 b1 j Hr H2 H1 (eq_sym E)) in E2.
    apply ge_scaled_spec in E2. congruence.
Qed.

Lemma scaled_le_pred (r a b j : Z) :
  1 <= r -> 0 <= a -> 0 < b -> scaled_le r a b j -> scaled_le r a b (j - 1).
Proof.
  unfold scaled_le. intros Hr Ha Hb.
  destruct (Z.leb_spec 0 j) as [Hj | Hj]; destruct (Z.leb_spec 0 (j - 1)) as [Hj' | Hj'];
    try lia.
  - replace j with (Z.succ (j - 1)) at 1 by lia. rewrite Z.pow_succ_r by lia.
    pose proof (pow_pos_pos r (j - 1) ltac:(lia) Hj').
    generalize dependent (r ^ (j - 1)). intros. nia.
  - assert (j = 0) by lia. subst j. simpl. nia.
  - replace (- (j - 1)) with (Z.succ (- j)) by lia. rewrite Z.pow_succ_r by lia.
    pose proof (pow_pos_pos r (- j) ltac:(lia) ltac:(lia)).
    generalize dependent (r ^ (- j)). intros. nia.
Qed.

Lemma scaled_le_mono (r a b j j' : Z) :
  1 <= r -> 0 <= a -> 0 < b -> j' <= j -> scaled_le r a b j -> scaled_le r a b j'.
Proof.
  intros Hr Ha Hb Hle H.
  replace j' with (j - Z.of_nat (Z.to_nat (j - j'))) by lia.
  induction (Z.to_nat (j - j')) as [|n IH].
  - now rewrite Z.sub_0_r.
  - rewrite Nat2Z.inj_succ.
    replace (j - Z.succ (Z.of_nat n)) with (j - Z.of_nat n - 1) by lia.
    now apply scaled_le_pred.
Qed.

Lemma exponent_of_unique (r a b j j' : Z) :
  1 <= r -> 0 <= a -> 0 < b ->
  exponent_of r a b j -> exponent_of r a b j' -> j = j'.
Proof.
  intros Hr Ha Hb [H1 H2] [H1' H2'].
  destruct (Z.lt_total j j') as [Hlt | [-> | Hlt]]; [|reflexivity|].
  - exfalso. apply H2. apply (scaled_le_mono r a b j' (j + 1)); auto. lia.
  - exfalso. apply H2'. apply (scaled_le_mono r a b j (j' + 1)); auto. lia.
Qed.

Lemma exponent_of_ext (r a1 b1 a2 b2 j : Z) :
  0 < r -> 0 < b1 -> 0 < b2 -> a1 * b2 = a2 * b1 ->
  exponent_of r a1 b1 j -> exponent_of r a2 b2 j.
Proof.
  intros Hr H1 H2 E [Ha Hb]. split.
  - now apply (scaled_le_ext r a1 b1 a2 b2 j Hr H1 H2 E).
  - intros H. apply Hb. now apply (scaled_le_ext r a2 b2 a1 b1 (j + 1) Hr H2 H1 (eq_sym E)).
Qed.

Lemma binary_exponent_spec (a b : Z) :
  0 < a -> 0 < b -> exponent_of 2 a b (binary_exponent a b).
Proof.
  intros Ha Hb. unfold binary_exponent.
  pose proof (Z.log2_spec a Ha) as [La Ua].
  pose proof (Z.log2_spec b Hb) as [Lb Ub].
  pose proof (Z.log2_nonneg a) as Na. pose proof (Z.log2_nonneg b) as Nb.
  set (la := Z.log2 a) in *. set (lb := Z.log2 b) in *.
  assert (Hup : ~ scaled_le 2 a b (la - lb + 1)).
  { unfold scaled_le. destruct (Z.leb_spec 0 (la - lb + 1)) as [Hj | Hj].
    - intros H.
      assert (2 ^ Z.succ la = 2 ^ lb * 2 ^ (la - lb + 1)).
      { rewrite <- Z.pow_add_r by lia. f_equal. lia. }
      pose proof (pow_pos_pos 2 (la - lb + 1) ltac:(lia) Hj). nia.
    - intros H.
      assert (2 ^ lb = 2 ^ Z.succ la * 2 ^ (- (la - lb + 1))).
      { rewrite <- Z.pow_add_r by lia. f_equal. lia. }
      pose proof (pow_pos_pos 2 (- (la - lb + 1)) ltac:(lia) ltac:(lia)). nia. }
  assert (Hlow : scaled_le 2 a b (la - lb - 1)).
  { unfold scaled_le. destruct (Z.leb_spec 0 (la - lb - 1)) as [Hj | Hj].
    - assert (2 ^ la = 2 ^ Z.succ lb * 2 ^ (la - lb - 1)).
      { rewrite <- Z.pow_add_r by lia. f_equal. lia. }
      pose proof (pow_pos_pos 2 (la - lb - 1) ltac:(lia) Hj). nia.
    - assert (2 ^ Z.succ lb = 2 ^ la * 2 ^ (- (la - lb - 1))).
      { rewrite <- Z.pow_add_r by lia. f_equal. lia. }
      pose proof (pow_pos_pos 2 (- (la - lb - 1)) ltac:(lia) ltac:(lia)). nia. }
  cbn [find_expo].
  destruct (ge_scaled 2 a b (la - lb)) eqn:E0.
  - split; [now apply ge_scaled_spec | exact Hup].
  - assert (H0 : ~ scaled_le 2 a b (la - lb)).
    { intros H. apply ge_scaled_spec in H. congruence. }
    apply ge_scaled_spec in Hlow. rewrite Hlow. apply ge_scaled_spec in Hlow.
    split; [exact Hlow|]. now replace (la - lb - 1 + 1) with (la - lb) by lia.
Qed.

Lemma binary_exponent_ext (a1 b1 a2 b2 : Z) :
  0 < a1 -> 0 < b1 -> 0 < a2 -> 0 < b2 -> a1 * b2 = a2 * b1 ->
  binary_exponent a1 b1 = binary_exponent a2 b2.
Proof.
  intros Ha1 Hb1 Ha2 Hb2 E.
  apply (exponent_of_unique 2 a2 b2); try lia.
  - apply (exponent_of_ext 2 a1 b1 a2 b2); try lia.
    now apply binary_exponent_spec.
  - now apply binary_exponent_spec.
Qed.

(** ** Rounding a quotient *)

Lemma round_div_scale (num den c : Z) :
  0 < den -> 0 < c -> round_div (num * c) (den * c) = round_div num den.
Proof.
  intros Hd Hc. unfold round_div.
  rewrite Z.div_mul_cancel_r by lia. rewrite Zmult_mod_distr_r.
  assert (E1 : (2 * (num mod den * c) <? den * c) = (2 * (num mod den) <? den)).
  { destruct (Z.ltb_spec (2 * (num mod den)) den), (Z.ltb_spec (2 * (num mod den * c)) (den * c));
      auto; nia. }
  assert (E2 : (den * c <? 2 * (num mod den * c)) = (den <? 2 * (num mod den))).
  { destruct (Z.ltb_spec den (2 * (num mod den))), (Z.ltb_spec (den * c) (2 * (num mod den * c)));
      auto; nia. }
  now rewrite E1, E2.
Qed.

Lemma round_div_ext (n1 d1 n2 d2 : Z) :
  0 < d1 -> 0 < d2 -> n1 * d2 = n2 * d1 -> round_div n1 d1 = round_div n2 d2.
Proof.
  intros H1 H2 E.
  rewrite <- (round_div_scale n1 d1 d2 H1 H2), <- (round_div_scale n2 d2 d1 H2 H1).
  rewrite E. f_equal. lia.
Qed.

Lemma round_div_exact (q den : Z) : 0 < den -> round_div (q * den) den = q.
Proof.
  intros Hd. unfold round_div. rewrite Z.div_mul, Z.mod_mul by lia.
  destruct (Z.ltb_spec (2 * 0) den); [reflexivity | lia].
Qed.

End Rounding.

Section RoundingValues.
Local Open Scope Z_scope.

Lemma Frat_unfold (neg : bool) (a b : Z) :
  0 < a ->
  Frat neg a b
  = let j := Z.max (binary_exponent a b) (-1022) in
    if 1024 <=? j then Inf neg
    else
      let e := j - 52 in
      let m := if 0 <=? e then round_div a (b * 2 ^ e)
               else round_div (a * 2 ^ (- e)) b in
      if m =? 2 ^ 53
      then if e =? 971 then Inf neg else Fin neg (2 ^ 52) (e + 1)
      else Fin neg m e.
Proof.
  intros Ha. unfold Frat. destruct (Z.eqb_spec a 0) as [-> | _]; [lia|].
  rewrite !pow_spec. reflexivity.
Qed.

Lemma Frat_zero (neg : bool) (b : Z) : Frat neg 0 b = Fin neg 0 (-1074).
Proof. reflexivity. Qed.

(** The Number value depends on the value of the quotient only. *)
Lemma Frat_ext (neg : bool) (a1 b1 a2 b2 : Z) :
  0 <= a1 -> 0 < b1 -> 0 <= a2 -> 0 < b2 -> a1 * b2 = a2 * b1 ->
  Frat neg a1 b1 = Frat neg a2 b2.
Proof.
  intros Ha1 Hb1 Ha2 Hb2 E.
  destruct (Z.eq_dec a1 0) as [-> | Hne].
  { assert (a2 = 0) by nia. subst. reflexivity. }
  assert (Hp1 : 0 < a1) by lia.
  assert (Hp2 : 0 < a2) by nia.
  rewrite !Frat_unfold by assumption. cbv zeta.
  rewrite (binary_exponent_ext a1 b1 a2 b2) by assumption.
  set (j := Z.max (binary_exponent a2 b2) (-1022)).
  destruct (1024 <=? j); [reflexivity|].
  assert (Hm : (if 0 <=? j - 52 then round_div a1 (b1 * 2 ^ (j - 52))
                else round_div (a1 * 2 ^ (- (j - 52))) b1)
               = (if 0 <=? j - 52 then round_div a2 (b2 * 2 ^ (j - 52))
                  else round_div (a2 * 2 ^ (- (j - 52))) b2)).
  { destruct (Z.leb_spec 0 (j - 52)) as [He | He].
    - pose proof (pow_pos_pos 2 (j - 52) ltac:(lia) He).
      apply round_div_ext; nia.
    - pose proof (pow_pos_pos 2 (- (j - 52)) ltac:(lia) ltac:(lia)).
      apply round_div_ext; nia. }
  now rewrite Hm.
Qed.

Lemma ratio_pos (m e : Z) : 0 <= m -> 0 <= ratio_num m e /\ 0 < ratio_den e.
Proof.
  intros Hm. unfold ratio_num, ratio_den. rewrite !pow_spec.
  destruct (Z.leb_spec 0 e) as [He | He].
  - pose proof (pow_pos_pos 2 e ltac:(lia) He). split; nia.
  - pose proof (pow_pos_pos 2 (- e) ltac:(lia) ltac:(lia)). split; lia.
Qed.

(** [m * 2^e], written over the common denominator [2^1074]. *)
Lemma ratio_common (m e : Z) :
  -1074 <= e ->
  ratio_num m e * 2 ^ 1074 = m * 2 ^ (e + 1074) * ratio_den e.
Proof.
  intros He. unfold ratio_num, ratio_den. rewrite !pow_spec.
  destruct (Z.leb_spec 0 e) as [H | H].
  - rewrite Z.pow_add_r by lia. ring.
  - replace 1074 with (e + 1074 + - e) at 1 by lia.
    rewrite (Z.pow_add_r 2 (e + 1074) (- e)) by lia. ring.
Qed.

Lemma exponent_of_scaled (m e l : Z) :
  0 < m -> -1074 <= e -> 0 <= l <= 1073 -> 2 ^ l <= m < 2 ^ (l + 1) ->
  exponent_of 2 (m * 2 ^ (e + 1074)) (2 ^ 1074) (l + e).
Proof.
  intros Hm He Hl [Hlo Hhi].
  pose proof (pow_pos_pos 2 (e + 1074) ltac:(lia) ltac:(lia)) as Hs.
  assert (Hup : forall k, 0 <= k -> 0 <= k + e ->
                          2 ^ 1074 * 2 ^ (k + e) = 2 ^ k * 2 ^ (e + 1074)).
  { intros k Hk Hke. rewrite <- !Z.pow_add_r by lia. f_equal. lia. }
  assert (Hdown : forall k, 0 <= k <= 1074 -> k + e < 0 ->
                            2 ^ (e + 1074) * 2 ^ (- (k + e)) = 2 ^ (1074 - k)
                            /\ 2 ^ 1074 = 2 ^ k * 2 ^ (1074 - k)
                            /\ 0 < 2 ^ (1074 - k)).
  { intros k Hk Hke. rewrite <- !Z.pow_add_r by lia. repeat split.
    - f_equal. lia.
    - f_equal. lia.
    - apply pow_pos_pos; lia. }
  split.
  - unfold scaled_le. destruct (Z.leb_spec 0 (l + e)) as [Hj | Hj].
    + rewrite Hup by lia. nia.
    + destruct (Hdown l ltac:(lia) Hj) as (E1 & E2 & Hp).
      rewrite <- Z.mul_assoc, E1, E2. nia.
  - unfold scaled_le. replace (l + e + 1) with ((l + 1) + e) by lia.
    destruct (Z.leb_spec 0 (l + 1 + e)) as [Hj | Hj].
    + rewrite Hup by lia. nia.
    + destruct (Hdown (l + 1) ltac:(lia) Hj) as (E1 & E2 & Hp).
      rewrite <- Z.mul_assoc, E1, E2. nia.
Qed.

Lemma binary_exponent_ratio (m e : Z) :
  0 < m < 2 ^ 53 -> -1074 <= e ->
  binary_exponent (ratio_num m e) (ratio_den e) = Z.log2 m + e.
Proof.
  intros [Hm Hlt] He.
  destruct (ratio_pos m e ltac:(lia)) as [Hn Hd].
  assert (Hn' : 0 < ratio_num m e).
  { unfold ratio_num in *. rewrite pow_spec in *. destruct (Z.leb_spec 0 e); [|lia].
    pose proof (pow_pos_pos 2 e ltac:(lia) ltac:(lia)). nia. }
  pose proof (Z.log2_spec m Hm) as Hl. pose proof (Z.log2_nonneg m) as Hl0.
  assert (Hl53 : Z.log2 m < 53).
  { apply Z.log2_lt_pow2; lia. }
  pose proof (pow_pos_pos 2 (e + 1074) ltac:(lia) ltac:(lia)) as Hs.
  apply (exponent_of_unique 2 (ratio_num m e) (ratio_den e)); try lia.
  - now apply binary_exponent_spec.
  - apply (exponent_of_ext 2 (m * 2 ^ (e + 1074)) (2 ^ 1074)); try lia.
    + symmetry. now apply ratio_common.
    + apply exponent_of_scaled; lia.
Qed.

Lemma round_div_ratio (m e : Z) :
  0 <= m -> -1074 <= e ->
  (if 0 <=? e then round_div (ratio_num m e) (ratio_den e * 2 ^ e)
   else round_div (ratio_num m e * 2 ^ (- e)) (ratio_den e)) = m.
Proof.
  intros Hm He. unfold ratio_num, ratio_den. rewrite !pow_spec.
  destruct (Z.leb_spec 0 e) as [H | H].
  - rewrite Z.mul_1_l. apply round_div_exact. now apply pow_pos_pos.
  - apply round_div_exact. apply pow_pos_pos; lia.
Qed.

(** Rounding a binary64 value gives the value back. *)
Lemma Frat_canonical (neg : bool) (m e : Z) :
  canonical (Fin neg m e) ->
  Frat neg (ratio_num m e) (ratio_den e) = Fin neg m e.
Proof.
  intros ([Hm0 Hm] & [He0 He1] & Hnorm).
  destruct (Z.eq_dec m 0) as [-> | Hne].
  { assert (e = -1074) by lia. subst e. reflexivity. }
  assert (Hn' : 0 < ratio_num m e).
  { unfold ratio_num. rewrite pow_spec. destruct (Z.leb_spec 0 e); [|lia].
    pose proof (pow_pos_pos 2 e ltac:(lia) ltac:(lia)). nia. }
  rewrite Frat_unfold by assumption. cbv zeta.
  rewrite binary_exponent_ratio by lia.
  pose proof (Z.log2_nonneg m) as Hl0.
  assert (Hl53 : Z.log2 m < 53) by (apply Z.log2_lt_pow2; lia).
  assert (Hj : Z.max (Z.log2 m + e) (-1022) - 52 = e).
  { destruct Hnorm as [Hn | ->]; [|lia].
    assert (52 <= Z.log2 m) by (apply Z.log2_le_pow2; lia). lia. }
  assert (Hlt : Z.max (Z.log2 m + e) (-1022) < 1024) by lia.
  destruct (Z.leb_spec 1024 (Z.max (Z.log2 m + e) (-1022))); [lia|].
  rewrite Hj, round_div_ratio by lia.
  destruct (Z.eqb_spec m (2 ^ 53)); [lia | reflexivity].
Qed.

(** ** Decimals *)

Lemma dec_pos (s p : Z) : 0 <= s -> 0 <= dec_num s p /\ 0 < dec_den p.
Proof.
  intros Hs. unfold dec_num, dec_den. rewrite !pow_spec.
  destruct (Z.leb_spec 0 p) as [Hp | Hp].
  - pose proof (pow_pos_pos 10 p ltac:(lia) Hp). split; nia.
  - pose proof (pow_pos_pos 10 (- p) ltac:(lia) ltac:(lia)). split; lia.
Qed.

Lemma Fdec_Frat (neg : bool) (s p : Z) : Fdec neg s p = Frat neg (dec_num s p) (dec_den p).
Proof. unfold Fdec, dec_num, dec_den. now destruct (0 <=? p). Qed.

(** [s * 10^p], written over the denominator [10^q] for [q >= -p]. *)
Lemma dec_common (s p q : Z) :
  0 <= q -> 0 <= p + q ->
  dec_num s p * 10 ^ q = s * 10 ^ (p + q) * dec_den p.
Proof.
  intros Hq Hpq. unfold dec_num, dec_den. rewrite !pow_spec.
  destruct (Z.leb_spec 0 p) as [H | H].
  - rewrite Z.pow_add_r by lia. ring.
  - replace q with (p + q + - p) at 1 by lia.
    rewrite (Z.pow_add_r 10 (p + q) (- p)) by lia. ring.
Qed.

(** Two decimals of the same value have the same Number value. *)
Lemma Fdec_ext (neg : bool) (s1 p1 s2 p2 q : Z) :
  0 <= s1 -> 0 <= s2 -> 0 <= q -> 0 <= p1 + q -> 0 <= p2 + q ->
  s1 * 10 ^ (p1 + q) = s2 * 10 ^ (p2 + q) ->
  Fdec neg s1 p1 = Fdec neg s2 p2.
Proof.
  intros H1 H2 Hq Hq1 Hq2 E. rewrite !Fdec_Frat.
  destruct (dec_pos s1 p1 H1) as [Hn1 Hd1]. destruct (dec_pos s2 p2 H2) as [Hn2 Hd2].
  apply Frat_ext; auto.
  pose proof (dec_common s1 p1 q Hq Hq1) as C1.
  pose proof (dec_common s2 p2 q Hq Hq2) as C2.
  pose proof (pow_pos_pos 10 q ltac:(lia) Hq) as Hpq.
  apply (Z.mul_reg_r _ _ (10 ^ q)); [lia|].
  transitivity (s1 * 10 ^ (p1 + q) * dec_den p1 * dec_den p2); [rewrite <- C1; ring|].
  rewrite E. rewrite <- Z.mul_assoc, (Z.mul_comm (dec_den p1)), Z.mul_assoc.
  rewrite <- C2. ring.
Qed.

End RoundingValues.

(* ===================================================================== *)
(** * Number::toString *)
(* ===================================================================== *)

Section ShortestDecimal.
Local Open Scope Z_scope.

Lemma Number_eqb_eq (x y : Number) : Number_eqb x y = true <-> x = y.
Proof.
  destruct x as [s m e | s], y as [s' m' e' | s']; simpl; split; try discriminate.
  - rewrite !andb_true_iff, !Z.eqb_eq. intros [[Hs ->] ->].
    apply Bool.eqb_prop in Hs. now subst.
  - intros H. injection H as -> -> ->. now rewrite Bool.eqb_reflx, !Z.eqb_refl.
  - intros H. apply Bool.eqb_prop in H. now subst.
  - intros H. injection H as ->. apply Bool.eqb_reflx.
Qed.

Lemma Fdec_zero (neg : bool) (p : Z) : Fdec neg 0 p = Fin neg 0 (-1074).
Proof. unfold Fdec. now destruct (0 <=? p). Qed.

(** What [shortest] returns denotes [x]. *)
Lemma shortest_sound (fuel : nat) (k n a b : Z) (x : Number) (s p : Z) :
  0 <= a -> 0 < b ->
  shortest fuel k n a b x = Some (s, p) -> Fdec false s p = x /\ 0 <= s.
Proof.
  intros Ha Hb. revert k. induction fuel as [|f IH]; intros k; [discriminate|].
  cbn [shortest]. rewrite !pow_spec.
  set (num := if 0 <=? n - k then a else a * 10 ^ (- (n - k))).
  set (den := if 0 <=? n - k then b * 10 ^ (n - k) else b).
  assert (Hnum : 0 <= num).
  { subst num. destruct (Z.leb_spec 0 (n - k)); [assumption|].
    pose proof (pow_pos_pos 10 (- (n - k)) ltac:(lia) ltac:(lia)). nia. }
  assert (Hden : 0 < den).
  { subst den. destruct (Z.leb_spec 0 (n - k)); [|assumption].
    pose proof (pow_pos_pos 10 (n - k) ltac:(lia) ltac:(lia)). nia. }
  assert (Hlo : 0 <= num / den) by (apply Z.div_pos; lia).
  destruct (Number_eqb (Fdec false (num / den) (n - k)) x) eqn:Elo;
    destruct (Number_eqb (Fdec false (num / den + 1) (n - k)) x) eqn:Ehi;
    cbn [andb].
  - apply Number_eqb_eq in Elo, Ehi. clear IH.
    destruct (2 * (num mod den) <? den);
      [intros H; injection H as <- <-; split; [assumption | lia]|].
    destruct (den <? 2 * (num mod den));
      [intros H; injection H as <- <-; split; [assumption | lia]|].
    destruct (Z.even (num / den)); intros H; injection H as <- <-; split; auto; lia.
  - clear IH. intros H. injection H as <- <-. apply Number_eqb_eq in Elo. auto.
  - clear IH. intros H. injection H as <- <-. apply Number_eqb_eq in Ehi.
    split; [auto | lia].
  - apply IH.
Qed.

(** [shortest] succeeds when the lower decimal denotes [x] for some
    number of digits within the fuel. *)
Lemma shortest_complete (fuel : nat) (k n a b : Z) (x : Number) (k' : Z) :
  k <= k' < k + Z.of_nat fuel ->
  (let p := n - k' in
   let num := if 0 <=? p then a else a * 10 ^ (- p) in
   let den := if 0 <=? p then b * 10 ^ p else b in
   Number_eqb (Fdec false (num / den) p) x = true) ->
  exists s p, shortest fuel k n a b x = Some (s, p).
Proof.
  cbv zeta. revert k. induction fuel as [|f IH]; intros k Hk Hok; [lia|].
  cbn [shortest]. rewrite !pow_spec.
  set (num := if 0 <=? n - k then a else a * 10 ^ (- (n - k))).
  set (den := if 0 <=? n - k then b * 10 ^ (n - k) else b).
  destruct (Number_eqb (Fdec false (num / den) (n - k)) x) eqn:Elo;
    destruct (Number_eqb (Fdec false (num / den + 1) (n - k)) x) eqn:Ehi;
    cbn [andb]; eauto.
  apply IH; [|assumption].
  destruct (Z.eq_dec k k') as [-> | Hne]; [|lia].
  subst num den. congruence.
Qed.

Lemma find_expo_le (r : Z) (fuel : nat) (j a b : Z) : find_expo r fuel j a b <= j.
Proof.
  revert j; induction fuel as [|f IH]; intros j; cbn [find_expo]; [lia|].
  destruct (ge_scaled r a b j); [lia|]. specialize (IH (j - 1)). lia.
Qed.

(** With enough digits the decimal expansion of a binary64 value is
    exact. *)
Lemma exact_digits (m e p : Z) :
  canonical (Fin false m e) -> p <= -1074 ->
  Fdec false (ratio_num m e * 10 ^ (- p) / ratio_den e) p = Fin false m e.
Proof.
  intros Hc Hp. pose proof Hc as ([Hm0 Hm] & [He0 He1] & _).
  destruct (ratio_pos m e Hm0) as [Hn Hd].
  pose proof (pow_pos_pos 10 (- p) ltac:(lia) ltac:(lia)) as H10.
  assert (Hex : exists q, 0 <= q /\ ratio_num m e * 10 ^ (- p) = q * ratio_den e).
  { unfold ratio_num, ratio_den in *. rewrite !pow_spec in *.
    destruct (Z.leb_spec 0 e) as [H | H].
    - exists (m * 2 ^ e * 10 ^ (- p)). split; [nia | ring].
    - exists (m * 5 ^ (- p) * 2 ^ (- p + e)).
      pose proof (pow_pos_pos 5 (- p) ltac:(lia) ltac:(lia)).
      pose proof (pow_pos_pos 2 (- p + e) ltac:(lia) ltac:(lia)).
      split; [nia|].
      change 10 with (2 * 5). rewrite Z.pow_mul_l.
      replace (- p) with ((- p + e) + - e) at 1 by lia.
      rewrite (Z.pow_add_r 2 (- p + e) (- e)) by lia. ring. }
  destruct Hex as (q & Hq & Eq).
  rewrite Eq, Z.div_mul by lia.
  rewrite <- (Frat_canonical false m e Hc), Fdec_Frat.
  destruct (dec_pos q p Hq) as [Hqn Hqd].
  apply Frat_ext; auto.
  unfold dec_num, dec_den. rewrite !pow_spec.
  destruct (Z.leb_spec 0 p); [lia|]. lia.
Qed.

Lemma strip_zeros_spec (fuel : nat) (s p s' p' : Z) :
  0 < s -> strip_zeros fuel s p = (s', p') ->
  0 < s' /\ p <= p' /\ s = s' * 10 ^ (p' - p).
Proof.
  revert s p. induction fuel as [|f IH]; intros s p Hs; cbn [strip_zeros].
  - intros H. injection H as <- <-. rewrite Z.sub_diag. simpl. lia.
  - destruct (Z.eqb_spec (s mod 10) 0) as [E | E]; cbn [andb].
    + destruct (Z.ltb_spec 0 s); [|lia].
      intros Hst. apply IH in Hst.
      * destruct Hst as (H1 & H2 & H3). repeat split; [assumption | lia|].
        replace (p' - p) with (Z.succ (p' - (p + 1))) by lia.
        rewrite Z.pow_succ_r by lia.
        pose proof (Z.div_mod s 10 ltac:(lia)). nia.
      * pose proof (Z.div_mod s 10 ltac:(lia)).
        assert (0 <= s / 10) by (apply Z.div_pos; lia). lia.
    + intros Hst. injection Hst as <- <-. rewrite Z.sub_diag. simpl. lia.
Qed.

(** For a positive binary64 value, [shortest_decimal] finds a positive
    decimal that denotes it. *)
Lemma shortest_decimal_spec (m e : Z) :
  canonical (Fin false m e) -> 0 < m ->
  exists s p, shortest_decimal m e = Some (s, p)
              /\ 0 < s /\ Fdec false s p = Fin false m e.
Proof.
  intros Hc Hm. pose proof Hc as ([_ Hm53] & [He0 He1] & _).
  unfold shortest_decimal. fold (ratio_num m e) (ratio_den e).
  destruct (ratio_pos m e ltac:(lia)) as [Hn Hd].
  set (start := if 0 <=? e + 53 then (e + 53 + 2) / 3 else - (- (e + 53) / 4)).
  set (n := find_expo 10 700 start (ratio_num m e) (ratio_den e) + 1).
  assert (Hstart : start <= 342).
  { subst start. destruct (Z.leb_spec 0 (e + 53)).
    - apply Z.lt_succ_r. apply Z.div_lt_upper_bound; lia.
    - assert (0 <= - (e + 53) / 4) by (apply Z.div_pos; lia). lia. }
  assert (Hn343 : n <= 343).
  { subst n. pose proof (find_expo_le 10 700 start (ratio_num m e) (ratio_den e)). lia. }
  destruct (shortest_complete 1500 1 n (ratio_num m e) (ratio_den e) (Fin false m e)
              (Z.max 1 (n + 1074))) as (s & p & Hsp).
  { lia. }
  { cbv zeta. set (p := n - Z.max 1 (n + 1074)).
    assert (Hp : p <= -1074) by lia.
    destruct (Z.leb_spec 0 p); [lia|].
    apply Number_eqb_eq. now apply exact_digits. }
  rewrite Hsp.
  destruct (shortest_sound _ _ _ _ _ _ _ _ Hn Hd Hsp) as [Hval Hs0].
  assert (Hs : 0 < s).
  { destruct (Z.eq_dec s 0) as [-> | Hne]; [|lia].
    rewrite Fdec_zero in Hval. injection Hval as <-. lia. }
  destruct (strip_zeros (Z.to_nat (Z.log2 s)) s p) as [s' p'] eqn:Est.
  apply strip_zeros_spec in Est as (Hs' & Hp' & Es); [|assumption].
  exists s', p'. split; [reflexivity|]. split; [assumption|].
  rewrite <- Hval.
  apply (Fdec_ext false s' p' s p (Z.abs p + Z.abs p')); try lia.
  rewrite Es. rewrite <- Z.mul_assoc, <- Z.pow_add_r by lia.
  do 2 f_equal. lia.
Qed.

End ShortestDecimal.

(* ===================================================================== *)
(** * Reading a number back *)
(* ===================================================================== *)

Section NumberText.
Local Open Scope Z_scope.

Lemma span_digits_stop (ds rest : jsstring) :
  forallb is_digit ds = true ->
  match rest with c :: _ => is_digit c = false | [] => True end ->
  span_digits (ds ++ rest) = (ds, rest).
Proof.
  intros Hds Hrest. unfold span_digits. destruct rest as [|c rest].
  - rewrite app_nil_r. now apply span_all.
  - now apply span_app_stop.
Qed.

Lemma digit_not_char (c : codeunit) (a : ascii) :
  is_digit c = true -> is_digit (cu a) = false -> is_char c a = false.
Proof.
  intros Hc Ha. unfold is_char. destruct (N.eqb_spec c (cu a)); [congruence | reflexivity].
Qed.

Lemma parse_int_spec (ip rest : jsstring) :
  int_digits ip ->
  match rest with c :: _ => is_digit c = false | [] => True end ->
  parse_int (ip ++ rest) = Some (ip, rest).
Proof.
  intros [-> | [[Hne Hds] Hhd]] Hrest; [reflexivity|].
  destruct ip as [|c ip]; [contradiction|]. cbn [hd] in Hhd.
  cbn [parse_int app].
  assert (Hc : is_digit c = true).
  { cbn [forallb] in Hds. now apply andb_true_iff in Hds. }
  assert (H0 : is_char c "0" = false).
  { unfold is_char. now apply N.eqb_neq. }
  rewrite H0, Hc. f_equal.
  change (c :: ip ++ rest) with ((c :: ip) ++ rest). now apply span_digits_stop.
Qed.

Lemma parse_frac_none (rest : jsstring) :
  match rest with c :: _ => c <> cu "." | [] => True end ->
  parse_frac rest = Some ([], rest).
Proof.
  destruct rest as [|c rest]; [reflexivity|]. intros H. cbn [parse_frac].
  unfold is_char. now rewrite (proj2 (N.eqb_neq _ _) H).
Qed.

Lemma parse_frac_some (fp rest : jsstring) :
  digit_string fp ->
  match rest with c :: _ => is_digit c = false | [] => True end ->
  parse_frac (lit "." ++ fp ++ rest) = Some (fp, rest).
Proof.
  intros [Hne Hds] Hrest. cbn [parse_frac lit app List.map list_ascii_of_string].
  change (is_char (N_of_ascii ".") ".") with true. cbv iota.
  rewrite span_digits_stop by assumption. now destruct fp.
Qed.

Lemma parse_exp_none (rest : jsstring) :
  match rest with c :: _ => c <> cu "e" /\ c <> cu "E" | [] => True end ->
  parse_exp rest = Some (0, rest).
Proof.
  destruct rest as [|c rest]; [reflexivity|]. intros [H1 H2]. cbn [parse_exp].
  unfold is_char.
  now rewrite (proj2 (N.eqb_neq _ _) H1), (proj2 (N.eqb_neq _ _) H2).
Qed.

Lemma parse_exp_some (eneg : bool) (ep rest : jsstring) :
  digit_string ep ->
  match rest with c :: _ => is_digit c = false | [] => True end ->
  parse_exp (lit "e" ++ (if eneg then lit "-" else lit "+") ++ ep ++ rest)
  = Some (if eneg then - digits_value ep else digits_value ep, rest).
Proof.
  intros [Hne Hds] Hrest.
  destruct eneg; cbn [parse_exp lit app List.map list_ascii_of_string];
    change (is_char (N_of_ascii "e") "e") with true; cbn [orb];
    [change (is_char (N_of_ascii "-") "-") with true
    |change (is_char (N_of_ascii "+") "-") with false;
     change (is_char (N_of_ascii "+") "+") with true];
    cbv iota; rewrite span_digits_stop by assumption; now destruct ep.
Qed.

Lemma number_end_digit (rest : jsstring) :
  number_end rest -> match rest with c :: _ => is_digit c = false | [] => True end.
Proof. destruct rest; [auto|]. now intros []. Qed.

(** A well-formed number text, followed by something that ends a
    number, is read back as the decimal it spells. *)
Lemma parse_number_text (neg : bool) (ip : jsstring) (fp : option jsstring)
  (ex : option (bool * jsstring)) (rest : jsstring) :
  int_digits ip ->
  match fp with Some f => digit_string f | None => True end ->
  match ex with Some (_, ep) => digit_string ep | None => True end ->
  number_end rest ->
  parse_number (number_text neg ip fp ex ++ rest)
  = Some (Fdec neg
            (digits_value (ip ++ match fp with Some f => f | None => [] end))
            (match ex with
             | Some (eneg, ep) => if eneg then - digits_value ep else digits_value ep
             | None => 0
             end
             - Z.of_nat (List.length (match fp with Some f => f | None => [] end))),
          rest).
Proof.
  intros Hip Hfp Hex Hrest.
  pose proof (number_end_digit rest Hrest) as Hrd.
  unfold parse_number, number_text.
  set (tail_ex := match ex with
                  | Some (eneg, ep) => lit "e" ++ (if eneg then lit "-" else lit "+") ++ ep
                  | None => []
                  end ++ rest).
  set (tail_fp := match fp with Some f => lit "." ++ f | None => [] end ++ tail_ex).
  assert (Hsign : parse_sign (((if neg then lit "-" else []) ++ ip
                               ++ match fp with Some f => lit "." ++ f | None => [] end
                               ++ match ex with
                                  | Some (eneg, ep) =>
                                      lit "e" ++ (if eneg then lit "-" else lit "+") ++ ep
                                  | None => []
                                  end) ++ rest)
                  = (neg, ip ++ tail_fp)).
  { subst tail_fp tail_ex. rewrite <- !app_assoc. destruct neg; [reflexivity|].
    cbn [app]. destruct Hip as [-> | [[Hne Hds] _]]; [reflexivity|].
    destruct ip as [|c ip]; [contradiction|]. cbn [app parse_sign].
    cbn [forallb] in Hds. apply andb_true_iff in Hds as [Hc _].
    now rewrite (digit_not_char c "-" Hc eq_refl). }
  rewrite Hsign.
  assert (Hex_head : match tail_ex with c :: _ => is_digit c = false /\ c <> cu "." | [] => True end).
  { subst tail_ex. destruct ex as [[eneg ep]|].
    - cbn. split; [reflexivity | discriminate].
    - cbn [app]. destruct rest; [auto|]. destruct Hrest as (? & ? & _). auto. }
  assert (Hfp_head : match tail_fp with c :: _ => is_digit c = false | [] => True end).
  { subst tail_fp. destruct fp as [f|].
    - reflexivity.
    - cbn [app]. destruct tail_ex; [auto|]. tauto. }
  rewrite parse_int_spec by assumption.
  assert (Hfrac : parse_frac tail_fp
                  = Some (match fp with Some f => f | None => [] end, tail_ex)).
  { subst tail_fp. destruct fp as [f|].
    - rewrite <- app_assoc. apply parse_frac_some; [assumption|].
      destruct tail_ex; [auto|]. tauto.
    - cbn [app]. apply parse_frac_none. destruct tail_ex; [auto|]. tauto. }
  rewrite Hfrac.
  assert (Hexp : parse_exp tail_ex
                 = Some (match ex with
                         | Some (eneg, ep) =>
                             if eneg then - digits_value ep else digits_value ep
                         | None => 0
                         end, rest)).
  { subst tail_ex. destruct ex as [[eneg ep]|].
    - rewrite <- !app_assoc. now apply parse_exp_some.
    - cbn [app]. apply parse_exp_none. destruct rest; [auto|].
      destruct Hrest as (_ & _ & ? & ?). auto. }
  rewrite Hexp. reflexivity.
Qed.

End NumberText.

Section Layout.
Local Open Scope Z_scope.

Lemma digits_aux_head (fuel : nat) (n : Z) (acc : jsstring) :
  0 < n < 2 ^ Z.of_nat fuel -> hd 0%N (digits_aux fuel n acc) <> 48%N.
Proof.
  revert n acc; induction fuel as [|f IH]; intros n acc Hn.
  - simpl in Hn. lia.
  - cbn [digits_aux]. destruct (Z.ltb_spec n 10).
    + cbn [hd]. rewrite Z.mod_small by lia. lia.
    + apply IH. rewrite Nat2Z.inj_succ, Z.pow_succ_r in Hn by lia.
      split; [apply Z.div_str_pos; lia | apply Z.div_lt_upper_bound; lia].
Qed.

Lemma digits_int (s : Z) : 0 < s -> digit_string (digits s) /\ hd 0%N (digits s) <> 48%N.
Proof.
  intros Hs. split; [split|].
  - apply digits_nonempty.
  - apply digits_all_digits. lia.
  - apply digits_aux_head. split; [assumption|].
    rewrite Nat2Z.inj_succ, Z2Nat.id by apply Z.log2_nonneg.
    apply Z.log2_spec. assumption.
Qed.

Lemma digit_string_digits (n : Z) : 0 <= n -> digit_string (digits n).
Proof.
  intros Hn. split; [apply digits_nonempty | now apply digits_all_digits].
Qed.

Lemma zeros_all_digits (n : Z) : forallb is_digit (zeros n) = true.
Proof.
  unfold zeros. induction (Z.to_nat n) as [|k IH]; [reflexivity|].
  cbn [repeat forallb]. now rewrite IH.
Qed.

Lemma zeros_length (n : Z) : 0 <= n -> Z.of_nat (List.length (zeros n)) = n.
Proof. intros Hn. unfold zeros. rewrite repeat_length. lia. Qed.

Lemma fold_zeros (n : nat) (v : Z) :
  fold_left (fun acc d => 10 * acc + (Z.of_N d - 48)) (repeat (cu "0") n) v
  = v * 10 ^ Z.of_nat n.
Proof.
  revert v; induction n as [|n IH]; intros v.
  - simpl. lia.
  - cbn [repeat fold_left]. rewrite IH, Nat2Z.inj_succ, Z.pow_succ_r by lia.
    change (Z.of_N (cu "0")) with 48. ring.
Qed.

Lemma digits_value_zeros_r (ds : jsstring) (n : Z) :
  0 <= n -> digits_value (ds ++ zeros n) = digits_value ds * 10 ^ n.
Proof.
  intros Hn. rewrite digits_value_app. unfold zeros.
  rewrite fold_zeros, Z2Nat.id by lia. reflexivity.
Qed.

Lemma digits_value_zeros_l (ds : jsstring) (n : Z) :
  digits_value (zeros n ++ ds) = digits_value ds.
Proof.
  rewrite digits_value_app. unfold digits_value, zeros.
  rewrite fold_zeros. reflexivity.
Qed.

Lemma forallb_firstn_skipn (p : codeunit -> bool) (n : nat) (l : jsstring) :
  forallb p l = true -> forallb p (firstn n l) = true /\ forallb p (skipn n l) = true.
Proof.
  intros H. rewrite <- (firstn_skipn n l), forallb_app in H.
  now apply andb_true_iff in H.
Qed.

(** The layout of a positive decimal is a well-formed number text that
    spells the decimal. *)
Lemma layout_number_text (s p : Z) :
  0 < s ->
  exists ip fp ex,
    layout s p = number_text false ip fp ex
    /\ int_digits ip
    /\ match fp with Some f => digit_string f | None => True end
    /\ match ex with Some (_, ep) => digit_string ep | None => True end
    /\ forall neg,
         Fdec neg
           (digits_value (ip ++ match fp with Some f => f | None => [] end))
           (match ex with
            | Some (eneg, ep) => if eneg then - digits_value ep else digits_value ep
            | None => 0
            end
            - Z.of_nat (List.length (match fp with Some f => f | None => [] end)))
         = Fdec neg s p.
Proof.
  intros Hs. destruct (digits_int s Hs) as [[Hne Hds] Hhd].
  pose proof (digits_value_digits s ltac:(lia)) as Hval.
  unfold layout. cbv zeta.
  set (ds := digits s) in *.
  set (k := Z.of_nat (List.length ds)).
  assert (Hk : 1 <= k). { subst k. destruct ds; [contradiction | simpl; lia]. }
  set (n := p + k).
  destruct ((k <=? n) && (n <=? 21)) eqn:CA.
  { apply andb_true_iff in CA as [C1 C2]. apply Z.leb_le in C1, C2.
    exists (ds ++ zeros (n - k)), None, None. unfold number_text.
    cbn [app]. rewrite !app_nil_r. split; [reflexivity|].
    split; [|split; [exact I|split; [exact I|]]].
    - right. split; [split|].
      + destruct ds; [contradiction | discriminate].
      + now rewrite forallb_app, Hds, zeros_all_digits.
      + destruct ds; [contradiction | exact Hhd].
    - intros neg. cbn [List.length]. rewrite digits_value_zeros_r, Hval by lia.
      pose proof (pow_pos_pos 10 (n - k) ltac:(lia) ltac:(lia)).
      apply (Fdec_ext neg (s * 10 ^ (n - k)) (0 - Z.of_nat 0) s p 0); try lia.
      replace (0 - Z.of_nat 0 + 0) with 0 by lia.
      replace (p + 0) with (n - k) by lia. simpl (10 ^ 0). lia. }
  destruct ((0 <? n) && (n <=? 21)) eqn:CB.
  { apply andb_true_iff in CB as [C1 C2]. apply Z.ltb_lt in C1. apply Z.leb_le in C2.
    assert (Hnk : n < k).
    { apply andb_false_iff in CA as [C | C]; [apply Z.leb_gt in C; lia|].
      apply Z.leb_gt in C. lia. }
    destruct (forallb_firstn_skipn is_digit (Z.to_nat n) ds Hds) as [Hf Hsk].
    assert (Hlen : List.length (skipn (Z.to_nat n) ds) = Z.to_nat (k - n)).
    { rewrite length_skipn. subst k. lia. }
    exists (firstn (Z.to_nat n) ds), (Some (skipn (Z.to_nat n) ds)), None.
    unfold number_text. cbn [app]. rewrite !app_nil_r. split; [reflexivity|].
    split; [|split; [|split; [exact I|]]].
    - right. destruct ds as [|d ds']; [contradiction|].
      destruct (Z.to_nat n) as [|n'] eqn:En; [lia|]. cbn [firstn hd] in *.
      split; [split; [discriminate | exact Hf] | exact Hhd].
    - split; [|exact Hsk]. intros E. rewrite E in Hlen. simpl in Hlen. lia.
    - intros neg. rewrite firstn_skipn, Hval, Hlen. f_equal. lia. }
  destruct ((-6 <? n) && (n <=? 0)) eqn:CC.
  { apply andb_true_iff in CC as [C1 C2]. apply Z.ltb_lt in C1. apply Z.leb_le in C2.
    exists [48%N], (Some (zeros (- n) ++ ds)), None.
    unfold number_text. cbn [app]. rewrite !app_nil_r. split; [reflexivity|].
    split; [now left|]. split; [|split; [exact I|]].
    - split; [destruct ds; [contradiction | now destruct (zeros (- n))]|].
      now rewrite forallb_app, zeros_all_digits, Hds.
    - intros neg.
      change (48%N :: zeros (- n) ++ ds) with (zeros 1 ++ zeros (- n) ++ ds).
      rewrite !digits_value_zeros_l, Hval, length_app, Nat2Z.inj_add.
      rewrite zeros_length by lia. f_equal. subst n k. lia. }
  set (e := n - 1).
  assert (Hexp : forall neg' : bool,
             (if e <? 0 then - digits_value (digits (Z.abs e))
              else digits_value (digits (Z.abs e))) = e).
  { intros _. rewrite digits_value_digits by lia. destruct (Z.ltb_spec e 0); lia. }
  destruct (Z.eqb_spec k 1) as [K1 | K1].
  { exists ds, None, (Some (e <? 0, digits (Z.abs e))).
    unfold number_text. cbn [app].
    split; [now destruct (e <? 0)|].
    split; [right; split; [split|]; auto|].
    split; [exact I|]. split; [apply digit_string_digits; lia|].
    intros neg. rewrite app_nil_r, Hval, (Hexp neg). cbn [List.length]. f_equal.
    subst e n. lia. }
  { destruct ds as [|d ds'] eqn:Eds; [contradiction|].
    assert (Hds' : ds' <> []).
    { intros ->. subst k. simpl in K1. lia. }
    exists [d], (Some ds'), (Some (e <? 0, digits (Z.abs e))).
    unfold number_text. cbn [app firstn skipn].
    split; [now destruct (e <? 0)|].
    split; [right; split; [split; [discriminate|]|exact Hhd]|].
    { cbn [forallb] in Hds |- *. apply andb_true_iff in Hds as [Hd _]. now rewrite Hd. }
    split; [split; [exact Hds'|]|].
    { cbn [forallb] in Hds. now apply andb_true_iff in Hds. }
    split; [apply digit_string_digits; lia|].
    intros neg. cbn [app]. rewrite Hval, (Hexp neg). f_equal.
    subst e n k. cbn [List.length]. lia. }
Qed.

(** [parse_number] reads the digits of [Number::toString] back. *)
Lemma parse_number_layout (neg : bool) (s p : Z) (rest : jsstring) :
  0 < s -> number_end rest ->
  parse_number ((if neg then lit "-" else []) ++ layout s p ++ rest)
  = Some (Fdec neg s p, rest).
Proof.
  intros Hs Hrest.
  destruct (layout_number_text s p Hs) as (ip & fp & ex & -> & Hip & Hfp & Hex & Hval).
  replace ((if neg then lit "-" else []) ++ number_text false ip fp ex ++ rest)
    with (number_text neg ip fp ex ++ rest).
  - rewrite parse_number_text by assumption. now rewrite Hval.
  - unfold number_text. cbn [app]. now rewrite <- !app_assoc.
Qed.

End Layout.

Section NumberToString.
Local Open Scope Z_scope.

Lemma Frat_sign (neg : bool) (a b m e : Z) :
  Frat false a b = Fin false m e -> Frat neg a b = Fin neg m e.
Proof.
  unfold Frat. destruct (a =? 0); [intros H; now injection H as <- <-|].
  destruct (1024 <=? _); [discriminate|].
  destruct (_ =? pow 2 53).
  - destruct (_ =? 971); [discriminate|]. intros H. now injection H as <- <-.
  - intros H. now injection H as <- <-.
Qed.

Lemma Fdec_sign (neg : bool) (s p m e : Z) :
  Fdec false s p = Fin false m e -> Fdec neg s p = Fin neg m e.
Proof. rewrite !Fdec_Frat. apply Frat_sign. Qed.

(** [parse_number] reads [Number::toString] of a binary64 value back,
    up to the sign of zero. *)
Lemma parse_number_toString (x : Number) (rest : jsstring) :
  canonical x -> number_end rest ->
  parse_number (Number_toString x ++ rest) = Some (canon_number x, rest).
Proof.
  destruct x as [neg m e|neg]; [|intros []].
  intros Hc Hrest. unfold Number_toString.
  destruct (Z.eqb_spec m 0) as [-> | Hm].
  - destruct Hc as (_ & _ & [H | ->]); [lia|].
    change (lit "0" ++ rest) with (number_text false [48%N] None None ++ rest).
    rewrite parse_number_text; [reflexivity | now left | exact I | exact I | assumption].
  - assert (Hpos : 0 < m) by (destruct Hc as ([? ?] & _); lia).
    assert (Hc' : canonical (Fin false m e)) by exact Hc.
    destruct (shortest_decimal_spec m e Hc' Hpos) as (s & p & -> & Hs & Hval).
    rewrite <- app_assoc, parse_number_layout by assumption.
    rewrite (Fdec_sign neg s p m e Hval).
    destruct m; [lia | reflexivity | reflexivity].
Qed.

(** The first character of [Number::toString] is a minus sign or a
    digit. *)
Lemma Number_toString_head (x : Number) :
  canonical x ->
  exists c t, Number_toString x = c :: t /\ (c = 45%N \/ is_digit c = true).
Proof.
  destruct x as [neg m e|neg]; [|intros []].
  intros Hc. unfold Number_toString.
  destruct (Z.eqb_spec m 0) as [-> | Hm].
  - exists 48%N, []. split; [reflexivity | now right].
  - assert (Hpos : 0 < m) by (destruct Hc as ([? ?] & _); lia).
    assert (Hc' : canonical (Fin false m e)) by exact Hc.
    destruct (shortest_decimal_spec m e Hc' Hpos) as (s & p & -> & Hs & Hval).
    destruct neg; [exists 45%N; eexists; split; [reflexivity | now left]|].
    destruct (layout_number_text s p Hs) as (ip & fp & ex & -> & Hip & _).
    unfold number_text. cbn [app].
    destruct Hip as [-> | [[Hne Hds] _]].
    + eexists _, _. split; [reflexivity | now right].
    + destruct ip as [|c ip]; [contradiction|]. cbn [app].
      eexists _, _. split; [reflexivity|]. right.
      cbn [forallb] in Hds. now apply andb_true_iff in Hds.
Qed.

End NumberToString.

(* ===================================================================== *)
(** * Reading a string back *)
(* ===================================================================== *)

Section Strings.
Local Open Scope N_scope.

Lemma hex_value_digit (n : N) : n < 16 -> hex_value (hex_digit n) = Some n.
Proof.
  intros Hn. unfold hex_value, hex_digit.
  destruct (N.ltb_spec n 10).
  - replace ((48 <=? 48 + n) && (48 + n <=? 57))%bool with true.
    + f_equal. lia.
    + symmetry. apply andb_true_iff. split; apply N.leb_le; lia.
  - replace ((48 <=? 87 + n) && (87 + n <=? 57))%bool with false.
    + replace ((97 <=? 87 + n) && (87 + n <=? 102))%bool with true.
      * f_equal. lia.
      * symmetry. apply andb_true_iff. split; apply N.leb_le; lia.
    + symmetry. apply andb_false_iff. right. apply N.leb_gt. lia.
Qed.

Lemma hex4_value_escape (c : codeunit) :
  c < 65536 ->
  hex4_value (hex_digit (c / 4096)) (hex_digit ((c / 256) mod 16))
             (hex_digit ((c / 16) mod 16)) (hex_digit (c mod 16)) = Some c.
Proof.
  intros Hc. unfold hex4_value.
  rewrite !hex_value_digit;
    try (apply N.mod_lt; discriminate);
    try (apply N.Div0.div_lt_upper_bound; lia).
  f_equal.
  pose proof (N.div_mod c 16 ltac:(discriminate)) as H1.
  pose proof (N.div_mod (c / 16) 16 ltac:(discriminate)) as H2.
  pose proof (N.div_mod (c / 256) 16 ltac:(discriminate)) as H3.
  replace (c / 16 / 16) with (c / 256) in H2 by (now rewrite N.Div0.div_div).
  replace (c / 256 / 16) with (c / 4096) in H3 by (now rewrite N.Div0.div_div).
  lia.
Qed.

Lemma parse_unicode_escape (c : codeunit) (tail r rest : jsstring) :
  c < 65536 ->
  parse_string_chars tail = Some (r, rest) ->
  parse_string_chars (unicode_escape c ++ tail) = Some (c :: r, rest).
Proof.
  intros Hc Ht. unfold unicode_escape.
  cbn [lit List.map list_ascii_of_string app parse_string_chars].
  change (N_of_ascii "\" =? 34) with false.
  change (N_of_ascii "\" =? 92) with true.
  change (is_char (N_of_ascii "u") "u") with true. cbv iota.
  now rewrite hex4_value_escape, Ht.
Qed.

Lemma parse_literal (c : codeunit) (tail r rest : jsstring) :
  c <> 34 -> c <> 92 -> 32 <= c ->
  parse_string_chars tail = Some (r, rest) ->
  parse_string_chars (c :: tail) = Some (c :: r, rest).
Proof.
  intros H1 H2 H3 Ht. cbn [parse_string_chars].
  rewrite (proj2 (N.eqb_neq _ _) H1), (proj2 (N.eqb_neq _ _) H2).
  destruct (N.ltb_spec c 32); [lia|]. now rewrite Ht.
Qed.

Lemma parse_quote_unit (c : codeunit) (tail r rest : jsstring) :
  c < 65536 ->
  parse_string_chars tail = Some (r, rest) ->
  parse_string_chars (quote_unit c ++ tail) = Some (c :: r, rest).
Proof.
  intros Hc Ht. unfold quote_unit.
  destruct (N.eqb_spec c 8) as [-> | H8]; [cbn; now rewrite Ht|].
  destruct (N.eqb_spec c 9) as [-> | H9]; [cbn; now rewrite Ht|].
  destruct (N.eqb_spec c 10) as [-> | H10]; [cbn; now rewrite Ht|].
  destruct (N.eqb_spec c 12) as [-> | H12]; [cbn; now rewrite Ht|].
  destruct (N.eqb_spec c 13) as [-> | H13]; [cbn; now rewrite Ht|].
  destruct (N.eqb_spec c 34) as [-> | H34]; [cbn; now rewrite Ht|].
  destruct (N.eqb_spec c 92) as [-> | H92]; [cbn; now rewrite Ht|].
  destruct (N.ltb_spec c 32) as [Hlt | Hge]; cbn [orb].
  - now apply parse_unicode_escape.
  - destruct (is_low_surrogate c || is_high_surrogate c)%bool.
    + now apply parse_unicode_escape.
    + now apply parse_literal.
Qed.

Lemma surrogate_literal (c : codeunit) :
  (is_high_surrogate c || is_low_surrogate c)%bool = true ->
  c <> 34 /\ c <> 92 /\ 32 <= c.
Proof.
  unfold is_high_surrogate, is_low_surrogate.
  rewrite orb_true_iff, !andb_true_iff, !N.leb_le. lia.
Qed.

Lemma parse_quote_chars (n : nat) (s rest : jsstring) :
  (List.length s <= n)%nat ->
  wf_stringb s = true ->
  parse_string_chars (quote_chars s ++ [34] ++ rest) = Some (s, rest).
Proof.
  revert s. induction n as [|n IH]; intros s Hlen Hwf.
  - destruct s; [reflexivity | simpl in Hlen; lia].
  - destruct s as [|c t]; [reflexivity|].
    cbn [wf_stringb forallb] in Hwf. apply andb_true_iff in Hwf as [Hc Ht].
    apply N.ltb_lt in Hc. simpl in Hlen.
    cbn [quote_chars].
    destruct (is_high_surrogate c) eqn:Eh.
    + destruct t as [|d t'].
      * now apply parse_unicode_escape.
      * cbn [forallb] in Ht. apply andb_true_iff in Ht as [Hd Ht'].
        destruct (is_low_surrogate d) eqn:El.
        -- destruct (surrogate_literal c) as (? & ? & ?); [now rewrite Eh|].
           destruct (surrogate_literal d) as (? & ? & ?); [now rewrite El, orb_true_r|].
           cbn [app]. apply parse_literal; auto. apply parse_literal; auto.
           apply IH; [simpl in Hlen; lia | exact Ht'].
        -- rewrite <- app_assoc. apply parse_unicode_escape; [assumption|].
           apply IH; [simpl in *; lia|].
           cbn [wf_stringb forallb]. now rewrite Hd, Ht'.
    + rewrite <- app_assoc. apply parse_quote_unit; [assumption|].
      apply IH; [lia | exact Ht].
Qed.

(** A quoted string is read back as the string. *)
Lemma parse_string_quote (s rest : jsstring) :
  wf_stringb s = true ->
  parse_string_chars (quote_chars s ++ [34] ++ rest) = Some (s, rest).
Proof. apply (parse_quote_chars (List.length s)). lia. Qed.

End Strings.

(* ===================================================================== *)
(** * Defining the properties of an object in their own order *)
(* ===================================================================== *)

Section OwnKeys.
Local Open Scope Z_scope.

Lemma has_key_str_mem (k : jsstring) (ps : list (jsstring * JSON)) :
  has_key k ps = str_mem k (List.map fst ps).
Proof.
  induction ps as [|[k' v] ps IH]; [reflexivity|]. simpl. now rewrite IH.
Qed.

Lemma str_eqb_sym (a b : jsstring) : str_eqb a b = str_eqb b a.
Proof.
  destruct (str_eqb a b) eqn:E.
  - apply str_eqb_eq in E. subst. symmetry. apply str_eqb_refl.
  - symmetry. apply str_eqb_neq. apply str_eqb_neq in E. congruence.
Qed.

Lemma distinct_app_mem (a b : list jsstring) (k : jsstring) :
  distinct (a ++ k :: b) = true -> str_mem k a = false.
Proof.
  induction a as [|x a IH]; [reflexivity|].
  cbn [app distinct str_mem]. intros H.
  apply andb_true_iff in H as [Hx Hd]. apply negb_true_iff in Hx.
  rewrite str_mem_app in Hx. apply orb_false_iff in Hx as [_ Hx].
  cbn [str_mem] in Hx. apply orb_false_iff in Hx as [Hx _].
  rewrite str_eqb_sym, Hx. now apply IH.
Qed.

(** Below [prev] there is no index key. *)
Lemma own_keys_from_above (prev : Z) (ks : list jsstring) (k : jsstring) (i : Z) :
  own_keys_from prev ks = true -> In k ks -> array_index k = Some i -> prev < i.
Proof.
  revert prev. induction ks as [|k1 ks IH]; intros prev H Hin Hi; [destruct Hin|].
  cbn [own_keys_from] in H. destruct (array_index k1) as [i1|] eqn:E1.
  - apply andb_true_iff in H as [Hlt H]. apply Z.ltb_lt in Hlt.
    destruct Hin as [-> | Hin]; [congruence|].
    specialize (IH i1 H Hin Hi). lia.
  - apply andb_true_iff in H as [Hall _].
    destruct Hin as [-> | Hin]; [congruence|].
    rewrite forallb_forall in Hall. specialize (Hall k Hin). now rewrite Hi in Hall.
Qed.

(** A key that comes after [ks1] in own-property order is new, and
    when it is an index every key of [ks1] is a smaller index. *)
Lemma own_keys_from_split (prev : Z) (ks1 ks2 : list jsstring) (k : jsstring) :
  own_keys_from prev (ks1 ++ k :: ks2) = true ->
  str_mem k ks1 = false
  /\ forall i, array_index k = Some i ->
               Forall (fun k' => exists i', array_index k' = Some i' /\ i' < i) ks1.
Proof.
  revert prev. induction ks1 as [|k1 ks1 IH]; intros prev H.
  - split; [reflexivity | constructor].
  - cbn [app own_keys_from] in H. destruct (array_index k1) as [i1|] eqn:E1.
    + apply andb_true_iff in H as [Hlt H]. apply Z.ltb_lt in Hlt.
      destruct (IH i1 H) as [Hmem Hidx].
      assert (Hin : In k (ks1 ++ k :: ks2)) by (apply in_or_app; right; now left).
      split.
      * cbn [str_mem]. rewrite Hmem, orb_false_r. apply str_eqb_neq. intros ->.
        pose proof (own_keys_from_above i1 _ k1 i1 H Hin E1). lia.
      * intros i Hi. constructor; [|now apply Hidx].
        exists i1. split; [exact E1|].
        apply (own_keys_from_above i1 _ k i H Hin Hi).
    + apply andb_true_iff in H as [Hall Hd].
      split.
      * now apply (distinct_app_mem (k1 :: ks1) ks2 k).
      * intros i Hi. rewrite forallb_forall in Hall.
        assert (Hin : In k (ks1 ++ k :: ks2)) by (apply in_or_app; right; now left).
        specialize (Hall k Hin). now rewrite Hi in Hall.
Qed.

Lemma insert_index_last (k : jsstring) (i : Z) (v : JSON) (ps : list (jsstring * JSON)) :
  Forall (fun k' => exists i', array_index k' = Some i' /\ i' < i) (List.map fst ps) ->
  insert_index k i v ps = ps ++ [(k, v)].
Proof.
  induction ps as [|[k' v'] ps IH]; intros H; [reflexivity|].
  cbn [List.map fst] in H. inversion H as [|? ? (i' & Hi' & Hlt) Hrest]; subst.
  cbn [insert_index app]. rewrite Hi'.
  destruct (Z.ltb_spec i' i); [|lia]. now rewrite IH.
Qed.

Lemma obj_define_last (acc : list (jsstring * JSON)) (k : jsstring) (v : JSON)
  (ks2 : list jsstring) :
  own_keys (List.map fst acc ++ k :: ks2) = true ->
  obj_define acc k v = acc ++ [(k, v)].
Proof.
  intros H. apply own_keys_from_split in H as [Hmem Hidx].
  unfold obj_define. rewrite has_key_str_mem, Hmem.
  destruct (array_index k) as [i|] eqn:Ei; [|reflexivity].
  apply insert_index_last. now apply Hidx.
Qed.

(** Defining the properties of an object one after the other, in the
    order of its own keys, builds the object. *)
Lemma obj_define_all (f : JSON -> JSON) (rest acc : list (jsstring * JSON)) :
  own_keys (List.map fst acc ++ List.map fst rest) = true ->
  fold_left (fun a kv => obj_define a (fst kv) (f (snd kv))) rest acc
  = acc ++ List.map (fun kv => (fst kv, f (snd kv))) rest.
Proof.
  revert acc. induction rest as [|[k v] rest IH]; intros acc H.
  - cbn. now rewrite app_nil_r.
  - cbn [fold_left List.map fst snd] in *.
    rewrite (obj_define_last acc k (f v) (List.map fst rest) H).
    rewrite IH.
    + now rewrite <- app_assoc.
    + rewrite map_app. cbn [List.map fst]. now rewrite <- app_assoc.
Qed.

End OwnKeys.

(* ===================================================================== *)
(** * Reading a value back *)
(* ===================================================================== *)

Section JSONInduction.

Variable P : JSON -> Prop.
Hypothesis P_null : P JNull.
Hypothesis P_bool : forall b, P (JBool b).
Hypothesis P_number : forall x, P (JNumber x).
Hypothesis P_string : forall s, P (JString s).
Hypothesis P_array : forall items, Forall P items -> P (JArray items).
Hypothesis P_object :
  forall props, Forall (fun kv : jsstring * JSON => P (snd kv)) props -> P (JObject props).

(** Induction on JSON values, with the elements of arrays and the
    values of objects as induction hypotheses. *)
Lemma JSON_nested_ind : forall v, P v.
Proof.
  fix rec 1. intros [ | b | x | s | items | props].
  - apply P_null.
  - apply P_bool.
  - apply P_number.
  - apply P_string.
  - apply P_array. induction items as [|v items IH]; constructor; [apply rec | exact IH].
  - apply P_object.
    induction props as [|[k v] props IH]; constructor; [apply rec | exact IH].
Qed.

End JSONInduction.

Section ReadBack.

Lemma skip_ws_app (ws t : jsstring) : ws_only ws -> skip_ws (ws ++ t) = skip_ws t.
Proof.
  unfold ws_only. induction ws as [|c ws IH]; intros H; [reflexivity|].
  cbn [forallb] in H. apply andb_true_iff in H as [Hc Hws].
  cbn [app skip_ws]. rewrite Hc. now apply IH.
Qed.

Lemma skip_ws_head (c : codeunit) (t : jsstring) :
  is_ws c = false -> skip_ws (c :: t) = c :: t.
Proof. intros H. cbn [skip_ws]. now rewrite H. Qed.

Lemma parse_value_ws (fuel : nat) (ws t : jsstring) :
  ws_only ws -> parse_value fuel (ws ++ t) = parse_value fuel t.
Proof.
  intros H. destruct fuel as [|f]; [reflexivity|].
  cbn [parse_value]. now rewrite skip_ws_app.
Qed.

Lemma parse_elements_ws (fuel : nat) (ws t : jsstring) :
  ws_only ws -> parse_elements fuel (ws ++ t) = parse_elements fuel t.
Proof.
  intros H. destruct fuel as [|f]; [reflexivity|].
  cbn [parse_elements]. now rewrite parse_value_ws.
Qed.

Lemma parse_members_ws (fuel : nat) (acc : list (jsstring * JSON)) (ws t : jsstring) :
  ws_only ws -> parse_members fuel acc (ws ++ t) = parse_members fuel acc t.
Proof.
  intros H. destruct fuel as [|f]; [reflexivity|].
  cbn [parse_members]. now rewrite skip_ws_app.
Qed.

Lemma ws_only_app (a b : jsstring) : ws_only a -> ws_only b -> ws_only (a ++ b).
Proof. unfold ws_only. intros Ha Hb. now rewrite forallb_app, Ha, Hb. Qed.

Lemma ws_only_gap2 : ws_only gap2.
Proof. reflexivity. Qed.

Lemma ws_only_newline : ws_only newline.
Proof. reflexivity. Qed.

Lemma value_end_number_end (rest : jsstring) : value_end rest -> number_end rest.
Proof.
  destruct rest as [|c rest]; [auto|]. cbn. intros [-> | ->]; repeat split; discriminate.
Qed.

(** ** Scalars *)

Lemma parse_value_number (f : nat) (c : codeunit) (t : jsstring) :
  c = 45%N \/ is_digit c = true ->
  parse_value (S f) (c :: t)
  = match parse_number (c :: t) with
    | Some (x, r) => Some (JNumber x, r)
    | None => None
    end.
Proof.
  intros Hc.
  assert (H : is_ws c = false /\ is_char c "{" = false /\ is_char c "[" = false
              /\ (c =? 34)%N = false /\ is_char c "t" = false
              /\ is_char c "f" = false /\ is_char c "n" = false).
  { destruct Hc as [-> | Hd]; [repeat split; reflexivity|].
    unfold is_ws, is_char, cu. simpl N_of_ascii.
    unfold is_digit, RegExp.is_digit in Hd.
    apply andb_true_iff in Hd as [H1 H2]. apply N.leb_le in H1, H2.
    repeat split; rewrite ?orb_false_iff; repeat split; apply N.eqb_neq; lia. }
  destruct H as (Hws & H1 & H2 & H3 & H4 & H5 & H6).
  cbn [parse_value]. rewrite skip_ws_head by assumption.
  now rewrite H1, H2, H3, H4, H5, H6.
Qed.

Lemma reads_back_null : reads_back JNull.
Proof.
  intros _ indent rest fuel _ _ Hf. destruct fuel as [|f]; [simpl in Hf; lia|]. reflexivity.
Qed.

Lemma reads_back_bool (b : bool) : reads_back (JBool b).
Proof.
  intros _ indent rest fuel _ _ Hf. destruct fuel as [|f]; [destruct b; simpl in Hf; lia|].
  now destruct b.
Qed.

Lemma canonicalb_canonical (x : Number) : canonicalb x = true -> canonical x.
Proof.
  destruct x as [neg m e|neg]; [|discriminate]. cbn [canonicalb canonical].
  rewrite !andb_true_iff, orb_true_iff, !Z.leb_le, !Z.ltb_lt, Z.eqb_eq. tauto.
Qed.

Lemma reads_back_number (x : Number) : reads_back (JNumber x).
Proof.
  intros Hv indent rest fuel _ Hrest Hf. cbn [is_json_value] in Hv.
  assert (Hfin : is_finite x = true) by (destruct x; [reflexivity | discriminate]).
  apply canonicalb_canonical in Hv.
  cbn [SerializeJSONProperty canon] in *. rewrite Hfin in *.
  destruct (Number_toString_head x Hv) as (c & t & E & Hc).
  destruct fuel as [|f]; [rewrite E in Hf; simpl in Hf; lia|].
  pose proof (parse_number_toString x rest Hv (value_end_number_end rest Hrest)) as Hp.
  rewrite E in *. cbn [app] in *. rewrite parse_value_number by assumption.
  now rewrite Hp.
Qed.

Lemma reads_back_string (s : jsstring) : reads_back (JString s).
Proof.
  intros Hv indent rest fuel _ _ Hf. cbn [is_json_value] in Hv.
  cbn [SerializeJSONProperty canon] in *. unfold QuoteJSONString in *.
  destruct fuel as [|f]; [simpl in Hf; lia|].
  cbn [app parse_value]. rewrite skip_ws_head by reflexivity.
  change (is_char 34%N "{") with false. change (is_char 34%N "[") with false.
  change (34 =? 34)%N with true. cbv iota.
  rewrite <- app_assoc. now rewrite parse_string_quote.
Qed.

(** ** The first character of a text *)

Lemma text_head (indent : jsstring) (v : JSON) :
  is_json_value v = true ->
  exists c t, SerializeJSONProperty gap2 indent v = c :: t
              /\ is_ws c = false /\ c <> 93%N /\ c <> 125%N.
Proof.
  intros Hv. destruct v as [ | [|] | x | s | items | props].
  - eexists _, _. split; [reflexivity|]. repeat split; discriminate.
  - eexists _, _. split; [reflexivity|]. repeat split; discriminate.
  - eexists _, _. split; [reflexivity|]. repeat split; discriminate.
  - cbn [is_json_value] in Hv.
    assert (Hfin : is_finite x = true) by (destruct x; [reflexivity | discriminate]).
    apply canonicalb_canonical in Hv.
    destruct (Number_toString_head x Hv) as (c & t & E & Hc).
    cbn [SerializeJSONProperty]. rewrite Hfin, E. exists c, t. split; [reflexivity|].
    destruct Hc as [-> | Hd]; [repeat split; discriminate|].
    unfold is_digit, RegExp.is_digit in Hd.
    apply andb_true_iff in Hd as [H1 H2]. apply N.leb_le in H1, H2.
    unfold is_ws. rewrite !orb_false_iff, !N.eqb_neq. repeat split; lia.
  - eexists _, _. split; [reflexivity|]. repeat split; discriminate.
  - destruct items; eexists _, _; (split; [reflexivity|]); repeat split; discriminate.
  - destruct props as [|[k v] props]; eexists _, _; (split; [reflexivity|]);
      repeat split; discriminate.
Qed.

End ReadBack.

Section Containers.

Lemma join_elements (sep closing : jsstring) (parts : list jsstring) :
  parts <> [] ->
  join (lit "," ++ sep) parts ++ closing = elements_text sep closing parts.
Proof.
  induction parts as [|p parts IH]; intros Hne; [contradiction|].
  destruct parts as [|q parts]; [reflexivity|].
  change (join (lit "," ++ sep) (p :: q :: parts))
    with (p ++ (lit "," ++ sep) ++ join (lit "," ++ sep) (q :: parts)).
  cbn [elements_text]. rewrite <- !app_assoc. do 3 f_equal.
  apply IH. discriminate.
Qed.

Lemma parts_cost_join (sep : jsstring) (parts : list jsstring) :
  sep <> [] -> (parts_cost parts <= S (List.length (join sep parts)))%nat.
Proof.
  intros Hsep. induction parts as [|p parts IH]; [simpl; lia|].
  destruct parts as [|q parts]; [simpl; lia|].
  change (join sep (p :: q :: parts)) with (p ++ sep ++ join sep (q :: parts)).
  change (parts_cost (p :: q :: parts))
    with (S (List.length p + parts_cost (q :: parts))).
  rewrite !length_app.
  assert (1 <= List.length sep)%nat by (destruct sep; [contradiction | simpl; lia]).
  lia.
Qed.

Lemma ser_array_cons (indent : jsstring) (x : JSON) (xs : list JSON) :
  SerializeJSONProperty gap2 indent (JArray (x :: xs))
  = lit "[" ++ newline ++ (indent ++ gap2)
    ++ join (lit "," ++ newline ++ (indent ++ gap2))
            (List.map (SerializeJSONProperty gap2 (indent ++ gap2)) (x :: xs))
    ++ newline ++ indent ++ lit "]".
Proof. reflexivity. Qed.

Lemma ser_object_cons (indent : jsstring) (kv : jsstring * JSON)
  (props : list (jsstring * JSON)) :
  SerializeJSONProperty gap2 indent (JObject (kv :: props))
  = lit "{" ++ newline ++ (indent ++ gap2)
    ++ join (lit "," ++ newline ++ (indent ++ gap2))
            (List.map (member_text (indent ++ gap2)) (kv :: props))
    ++ newline ++ indent ++ lit "}".
Proof.
  replace (List.map (member_text (indent ++ gap2)) (kv :: props))
    with (List.map (fun kv : jsstring * JSON =>
                      let (k, v') := kv in
                      QuoteJSONString k ++ lit ": "
                      ++ SerializeJSONProperty gap2 (indent ++ gap2) v')
                   (kv :: props)).
  - destruct kv as [k v]. reflexivity.
  - apply map_ext. now intros [k' v'].
Qed.

(** The elements of an array are read back one after the other. *)
Lemma parse_elements_text (items : list JSON) :
  Forall reads_back items ->
  forallb is_json_value items = true ->
  items <> [] ->
  forall (indent' indent rest : jsstring) (fuel : nat),
    ws_only indent' -> ws_only indent ->
    (parts_cost (List.map (SerializeJSONProperty gap2 indent') items) <= fuel)%nat ->
    parse_elements fuel
      (elements_text (newline ++ indent') (newline ++ indent ++ lit "]" ++ rest)
         (List.map (SerializeJSONProperty gap2 indent') items))
    = Some (List.map canon items, rest).
Proof.
  induction items as [|item more IH]; intros Hrb Hv Hne indent' indent rest fuel Hi' Hi Hf;
    [contradiction|].
  inversion Hrb as [|? ? Hitem Hmore]; subst.
  cbn [forallb] in Hv. apply andb_true_iff in Hv as [Hvi Hvm].
  cbn [List.map parts_cost fold_right] in Hf. fold (parts_cost (List.map (SerializeJSONProperty gap2 indent') more)) in Hf.
  destruct fuel as [|f]; [lia|].
  cbn [List.map elements_text parse_elements].
  set (R := match List.map (SerializeJSONProperty gap2 indent') more with
            | [] => newline ++ indent ++ lit "]" ++ rest
            | _ :: _ => lit "," ++ (newline ++ indent')
                        ++ elements_text (newline ++ indent')
                             (newline ++ indent ++ lit "]" ++ rest)
                             (List.map (SerializeJSONProperty gap2 indent') more)
            end).
  assert (HR : value_end R).
  { subst R. destruct more; unfold value_end, newline; simpl; auto. }
  rewrite (Hitem Hvi indent' R f Hi' HR) by lia.
  destruct more as [|item2 more'].
  - subst R. cbn [List.map].
    rewrite (app_assoc newline indent).
    rewrite (skip_ws_app (newline ++ indent) (lit "]" ++ rest))
      by (apply ws_only_app; [apply ws_only_newline | assumption]).
    reflexivity.
  - subst R. cbn [List.map app lit list_ascii_of_string].
    rewrite skip_ws_head by reflexivity.
    change (is_char (N_of_ascii ",") ",") with true. cbv iota.
    rewrite parse_elements_ws by (apply ws_only_app; [apply ws_only_newline | assumption]).
    change (SerializeJSONProperty gap2 indent' item2
            :: List.map (SerializeJSONProperty gap2 indent') more')
      with (List.map (SerializeJSONProperty gap2 indent') (item2 :: more')).
    change (N_of_ascii "]" :: rest) with (lit "]" ++ rest).
    rewrite IH; auto; [discriminate | lia].
Qed.

Lemma parse_value_open_array (f : nat) (ws E : jsstring) (c : codeunit) (t : jsstring) :
  ws_only ws -> E = c :: t -> is_ws c = false -> c <> 93%N ->
  parse_value (S f) (lit "[" ++ ws ++ E)
  = match parse_elements f E with
    | Some (vs, r) => Some (JArray vs, r)
    | None => None
    end.
Proof.
  intros Hws -> Hc H93.
  cbn [parse_value lit List.map list_ascii_of_string app].
  rewrite skip_ws_head by reflexivity.
  change (is_char (N_of_ascii "[") "{") with false.
  change (is_char (N_of_ascii "[") "[") with true. cbv iota.
  rewrite skip_ws_app, skip_ws_head by assumption.
  assert (Eclose : is_char c "]" = false) by (now apply N.eqb_neq).
  rewrite Eclose. now rewrite parse_elements_ws.
Qed.

Lemma elements_text_head (sep closing : jsstring) (indent : jsstring)
  (x : JSON) (parts : list jsstring) :
  is_json_value x = true ->
  exists c t,
    elements_text sep closing (SerializeJSONProperty gap2 indent x :: parts) = c :: t
    /\ is_ws c = false /\ c <> 93%N.
Proof.
  intros Hv. destruct (text_head indent x Hv) as (c & t & E & Hc & H93 & _).
  cbn [elements_text]. rewrite E. cbn [app]. eauto.
Qed.

Lemma reads_back_array (items : list JSON) :
  Forall reads_back items -> reads_back (JArray items).
Proof.
  intros Hrb Hv indent rest fuel Hi Hrest Hf.
  cbn [is_json_value] in Hv.
  destruct items as [|x xs].
  { destruct fuel as [|f]; [simpl in Hf; lia|]. reflexivity. }
  rewrite ser_array_cons in *.
  set (indent' := indent ++ gap2) in *.
  assert (Hi' : ws_only indent') by (apply ws_only_app; [assumption | apply ws_only_gap2]).
  set (parts := List.map (SerializeJSONProperty gap2 indent') (x :: xs)) in *.
  assert (Hcost : (S (parts_cost parts) <= fuel)%nat).
  { pose proof (parts_cost_join (lit "," ++ newline ++ indent') parts ltac:(discriminate)).
    rewrite !length_app in Hf.
    change (List.length (lit "[")) with 1%nat in Hf.
    change (List.length (lit "]")) with 1%nat in Hf.
    change (List.length newline) with 1%nat in Hf. lia. }
  destruct fuel as [|f]; [lia|].
  rewrite <- !app_assoc.
  rewrite (app_assoc newline indent' _).
  change (lit "," ++ newline ++ indent') with (lit "," ++ (newline ++ indent')).
  rewrite (join_elements (newline ++ indent') (newline ++ indent ++ lit "]" ++ rest) parts)
    by discriminate.
  assert (Hws : ws_only (newline ++ indent'))
    by (apply ws_only_app; [apply ws_only_newline | assumption]).
  cbn [forallb] in Hv. pose proof Hv as Hv'. apply andb_true_iff in Hv' as [Hvx _].
  destruct (elements_text_head (newline ++ indent') (newline ++ indent ++ lit "]" ++ rest)
              indent' x (List.map (SerializeJSONProperty gap2 indent') xs) Hvx)
    as (c & t & E & Hc & H93).
  subst parts. cbn [List.map] in *.
  rewrite (parse_value_open_array f (newline ++ indent') _ c t Hws E Hc H93).
  change (SerializeJSONProperty gap2 indent' x
          :: List.map (SerializeJSONProperty gap2 indent') xs)
    with (List.map (SerializeJSONProperty gap2 indent') (x :: xs)) in *.
  rewrite parse_elements_text; auto; [discriminate | lia].
Qed.

End Containers.

Section Objects.

Lemma parse_value_open_object (f : nat) (ws E t : jsstring) :
  ws_only ws -> E = 34%N :: t ->
  parse_value (S f) (lit "{" ++ ws ++ E) = parse_members f [] E.
Proof.
  intros Hws ->.
  cbn [parse_value lit List.map list_ascii_of_string app].
  rewrite skip_ws_head by reflexivity.
  change (is_char (N_of_ascii "{") "{") with true. cbv iota.
  rewrite skip_ws_app, skip_ws_head by (assumption || reflexivity).
  change (is_char 34%N "}") with false. cbv iota.
  now rewrite parse_members_ws.
Qed.

(** One member: its key, the colon, its value. *)
Lemma parse_member (f : nat) (acc : list (jsstring * JSON)) (indent' : jsstring)
  (k : jsstring) (v : JSON) (R : jsstring) :
  reads_back v -> wf_stringb k = true -> is_json_value v = true ->
  ws_only indent' -> value_end R ->
  (List.length (member_text indent' (k, v)) <= f)%nat ->
  parse_members (S f) acc (member_text indent' (k, v) ++ R)
  = match skip_ws R with
    | d :: r3 =>
        if is_char d "," then parse_members f (obj_define acc k (canon v)) r3
        else if is_char d "}" then Some (JObject (obj_define acc k (canon v)), r3)
        else None
    | [] => None
    end.
Proof.
  intros Hrb Hk Hv Hi HR Hf. unfold member_text, QuoteJSONString in *.
  cbn [fst snd] in *. rewrite !length_app in Hf.
  cbn [parse_members]. rewrite <- !app_assoc. cbn [app].
  rewrite skip_ws_head by reflexivity.
  change (34 =? 34)%N with true. cbv iota.
  assert (Hq : parse_string_chars
                 (quote_chars k ++ (34%N : codeunit)
                    :: lit ": " ++ SerializeJSONProperty gap2 indent' v ++ R)
               = Some (k, lit ": " ++ SerializeJSONProperty gap2 indent' v ++ R))
    by exact (parse_string_quote k _ Hk).
  rewrite Hq. clear Hq.
  cbn [lit List.map list_ascii_of_string app].
  rewrite skip_ws_head by reflexivity.
  change (is_char (N_of_ascii ":") ":") with true. cbv iota.
  change (N_of_ascii " " :: SerializeJSONProperty gap2 indent' v ++ R)
    with ([32%N] ++ SerializeJSONProperty gap2 indent' v ++ R).
  rewrite parse_value_ws by reflexivity.
  rewrite (Hrb Hv indent' R f Hi HR) by lia.
  reflexivity.
Qed.

(** The members of an object are read back one after the other, each
    being defined on the object built so far. *)
Lemma parse_members_text (props : list (jsstring * JSON)) :
  Forall (fun kv : jsstring * JSON => reads_back (snd kv)) props ->
  forallb (fun kv : jsstring * JSON =>
             let (k, v') := kv in wf_stringb k && is_json_value v') props = true ->
  props <> [] ->
  forall (acc : list (jsstring * JSON)) (indent' indent rest : jsstring) (fuel : nat),
    ws_only indent' -> ws_only indent ->
    (parts_cost (List.map (member_text indent') props) <= fuel)%nat ->
    parse_members fuel acc
      (elements_text (newline ++ indent') (newline ++ indent ++ lit "}" ++ rest)
         (List.map (member_text indent') props))
    = Some (JObject (fold_left (fun a kv => obj_define a (fst kv) (canon (snd kv)))
                               props acc), rest).
Proof.
  induction props as [|[k v] more IH];
    intros Hrb Hv Hne acc indent' indent rest fuel Hi' Hi Hf; [contradiction|].
  inversion Hrb as [|? ? Hitem Hmore]; subst. cbn [snd] in Hitem.
  cbn [forallb] in Hv. apply andb_true_iff in Hv as [Hkv Hvm].
  apply andb_true_iff in Hkv as [Hk Hvv].
  cbn [List.map parts_cost fold_right] in Hf.
  fold (parts_cost (List.map (member_text indent') more)) in Hf.
  destruct fuel as [|f]; [lia|].
  cbn [List.map elements_text fold_left fst snd].
  set (R := match List.map (member_text indent') more with
            | [] => newline ++ indent ++ lit "}" ++ rest
            | _ :: _ => lit "," ++ (newline ++ indent')
                        ++ elements_text (newline ++ indent')
                             (newline ++ indent ++ lit "}" ++ rest)
                             (List.map (member_text indent') more)
            end).
  assert (HR : value_end R).
  { subst R. destruct more; unfold value_end, newline; simpl; auto. }
  rewrite (parse_member f acc indent' k v R Hitem Hk Hvv Hi' HR) by lia.
  destruct more as [|kv2 more'].
  - subst R. cbn [List.map fold_left].
    rewrite (app_assoc newline indent).
    rewrite (skip_ws_app (newline ++ indent) (lit "}" ++ rest))
      by (apply ws_only_app; [apply ws_only_newline | assumption]).
    reflexivity.
  - subst R. cbn [List.map app lit list_ascii_of_string].
    rewrite skip_ws_head by reflexivity.
    change (is_char (N_of_ascii ",") ",") with true. cbv iota.
    rewrite parse_members_ws by (apply ws_only_app; [apply ws_only_newline | assumption]).
    change (member_text indent' kv2 :: List.map (member_text indent') more')
      with (List.map (member_text indent') (kv2 :: more')).
    change (N_of_ascii "}" :: rest) with (lit "}" ++ rest).
    rewrite IH; auto; [discriminate | lia].
Qed.

Lemma canon_keys (props : list (jsstring * JSON)) :
  List.map fst (List.map (fun kv : jsstring * JSON => (fst kv, canon (snd kv))) props)
  = List.map fst props.
Proof. rewrite map_map. now apply map_ext. Qed.

Lemma reads_back_object (props : list (jsstring * JSON)) :
  Forall (fun kv : jsstring * JSON => reads_back (snd kv)) props ->
  reads_back (JObject props).
Proof.
  intros Hrb Hv indent rest fuel Hi Hrest Hf.
  cbn [is_json_value] in Hv. apply andb_true_iff in Hv as [Hkeys Hv].
  destruct props as [|[k v] more].
  { destruct fuel as [|f]; [simpl in Hf; lia|]. reflexivity. }
  rewrite ser_object_cons in *.
  set (indent' := indent ++ gap2) in *.
  assert (Hi' : ws_only indent') by (apply ws_only_app; [assumption | apply ws_only_gap2]).
  set (parts := List.map (member_text indent') ((k, v) :: more)) in *.
  assert (Hcost : (S (parts_cost parts) <= fuel)%nat).
  { pose proof (parts_cost_join (lit "," ++ newline ++ indent') parts ltac:(discriminate)).
    rewrite !length_app in Hf.
    change (List.length (lit "{")) with 1%nat in Hf.
    change (List.length (lit "}")) with 1%nat in Hf.
    change (List.length newline) with 1%nat in Hf. lia. }
  destruct fuel as [|f]; [lia|].
  rewrite <- !app_assoc.
  rewrite (app_assoc newline indent' _).
  change (lit "," ++ newline ++ indent') with (lit "," ++ (newline ++ indent')).
  rewrite (join_elements (newline ++ indent') (newline ++ indent ++ lit "}" ++ rest) parts)
    by discriminate.
  assert (Hws : ws_only (newline ++ indent'))
    by (apply ws_only_app; [apply ws_only_newline | assumption]).
  assert (E : exists t,
             elements_text (newline ++ indent') (newline ++ indent ++ lit "}" ++ rest) parts
             = 34%N :: t).
  { subst parts. cbn [List.map elements_text]. unfold member_text at 1, QuoteJSONString.
    cbn [app]. eauto. }
  destruct E as [t E].
  rewrite (parse_value_open_object f (newline ++ indent') _ t Hws E).
  subst parts. rewrite parse_members_text; auto; [|discriminate | lia].
  cbn [canon]. do 2 f_equal.
  rewrite (obj_define_all canon ((k, v) :: more) []); [reflexivity|].
  exact Hkeys.
Qed.

(** Every JSON value is read back from its indented text. *)
Lemma reads_back_all (v : JSON) : reads_back v.
Proof.
  induction v using JSON_nested_ind.
  - apply reads_back_null.
  - apply reads_back_bool.
  - apply reads_back_number.
  - apply reads_back_string.
  - now apply reads_back_array.
  - now apply reads_back_object.
Qed.

End Objects.

(* ===================================================================== *)
(** * The round trip of [formatResult] *)
(* ===================================================================== *)

Section RoundTrip.

Lemma Number_equal_canon (x : Number) : Number_equal (canon_number x) x = true.
Proof.
  destruct x as [s m e|s]; cbn.
  - destruct m; cbn; [reflexivity | |];
      now rewrite Bool.eqb_reflx, Pos.eqb_refl, Z.eqb_refl.
  - apply Bool.eqb_reflx.
Qed.

(** What is read back equals the value, with [Number::equal] on numbers. *)
Lemma JSON_equal_canon (v : JSON) : JSON_equal (canon v) v = true.
Proof.
  induction v as [| b | x | s | items IH | props IH] using JSON_nested_ind.
  - reflexivity.
  - apply Bool.eqb_reflx.
  - apply Number_equal_canon.
  - apply str_eqb_refl.
  - cbn [canon JSON_equal]. induction IH as [|x xs Hx _ IHxs]; [reflexivity|].
    cbn [List.map]. now rewrite Hx, IHxs.
  - cbn [canon JSON_equal]. induction IH as [|[k x] ps Hx _ IHps]; [reflexivity|].
    cbn [List.map fst snd] in *. now rewrite str_eqb_refl, Hx, IHps.
Qed.

(** Without a negative zero the value read back is the value itself. *)
Lemma canon_id (v : JSON) : no_negative_zero v = true -> canon v = v.
Proof.
  induction v as [| b | x | s | items IH | props IH] using JSON_nested_ind;
    intros Hz; try reflexivity.
  - destruct x as [[|] [| |] e|]; try reflexivity. discriminate.
  - cbn [canon no_negative_zero] in *. f_equal.
    induction IH as [|x xs Hx _ IHxs]; [reflexivity|].
    cbn [forallb List.map] in *. apply andb_true_iff in Hz as [H1 H2].
    now rewrite Hx, IHxs.
  - cbn [canon no_negative_zero] in *. f_equal.
    induction IH as [|[k x] ps Hx _ IHps]; [reflexivity|].
    cbn [forallb List.map fst snd] in *. apply andb_true_iff in Hz as [H1 H2].
    now rewrite Hx, IHps.
Qed.

(** [JSON.parse(JSON.stringify(v, null, 2))]. *)
Lemma JSON_parse_stringify (v : JSON) :
  is_json_value v = true -> JSON_parse (JSON_stringify v 2) = Some (canon v).
Proof.
  intros Hv. unfold JSON_parse, JSON_stringify.
  change (repeat 32%N (Nat.min 10 2)) with gap2.
  pose proof (reads_back_all v Hv [] [] (S (List.length (SerializeJSONProperty gap2 [] v)))
                eq_refl I ltac:(lia)) as H.
  rewrite app_nil_r in H. now rewrite H.
Qed.

End RoundTrip.

Lemma Serialize_nullify (gap : jsstring) (v : JSON) :
  forall indent,
    SerializeJSONProperty gap indent (nullify v) = SerializeJSONProperty gap indent v.
Proof.
  induction v as [| b | x | s | items IH | props IH] using JSON_nested_ind;
    intros indent; try reflexivity.
  - destruct x; reflexivity.
  - cbn [nullify SerializeJSONProperty]. rewrite map_map.
    replace (List.map (fun x => SerializeJSONProperty gap (indent ++ gap) (nullify x)) items)
      with (List.map (SerializeJSONProperty gap (indent ++ gap)) items); [reflexivity|].
    apply map_ext_Forall. eapply Forall_impl; [|exact IH]. intros a Ha. now rewrite Ha.
  - cbn [nullify SerializeJSONProperty]. rewrite map_map.
    match goal with
    | |- match List.map ?f props with _ => _ end = match List.map ?g props with _ => _ end =>
        replace (List.map f props) with (List.map g props); [reflexivity|]
    end.
    apply map_ext_Forall. eapply Forall_impl; [|exact IH].
    intros [k a] Ha. cbn [fst snd] in *. now rewrite Ha.
Qed.

Lemma nullify_keys (props : list (jsstring * JSON)) :
  List.map fst (List.map (fun kv : jsstring * JSON => (fst kv, nullify (snd kv))) props)
  = List.map fst props.
Proof. rewrite map_map. now apply map_ext. Qed.

Lemma is_json_value_nullify (v : JSON) :
  is_parsed_value v = true -> is_json_value (nullify v) = true.
Proof.
  induction v as [| b | x | s | items IH | props IH] using JSON_nested_ind;
    intros Hv; try exact Hv.
  - cbn [is_parsed_value] in Hv. destruct x as [s m e|s]; [|reflexivity].
    cbn [is_finite negb] in Hv. now rewrite orb_false_r in Hv.
  - cbn [nullify is_json_value is_parsed_value] in *. rewrite forallb_forall in *.
    intros a Ha. apply in_map_iff in Ha as (a0 & <- & Ha0).
    rewrite Forall_forall in IH. auto.
  - cbn [nullify is_json_value is_parsed_value] in *. apply andb_true_iff in Hv as [Hk Hv].
    rewrite nullify_keys, Hk. cbn [andb]. rewrite forallb_forall in *.
    intros [k a] Ha. apply in_map_iff in Ha as ([k0 a0] & E & Ha0).
    cbn [fst snd] in E. injection E as <- <-.
    rewrite Forall_forall in IH. specialize (IH _ Ha0). specialize (Hv _ Ha0).
    cbn [snd] in *. apply andb_true_iff in Hv as [Hk0 Hv0]. rewrite Hk0. auto.
Qed.


Lemma map_fixed {A : Type} (f : A -> A) (l : list A) :
  List.map f l = l <-> Forall (fun a => f a = a) l.
Proof.
  induction l as [|a l IH]; cbn [List.map].
  - split; [constructor | reflexivity].
  - split.
    + intros H. assert (Ha : f a = a) by congruence.
      assert (Hl : List.map f l = l) by congruence.
      constructor; [exact Ha | now apply IH].
    + intros H. inversion H as [|? ? Ha Hl]; subst.
      rewrite Ha. f_equal. now apply IH.
Qed.

(** The value read back is the value formatted exactly when the value
    holds neither a negative zero nor an infinite number. *)
Lemma canon_nullify_fixed (v : JSON) :
  canon (nullify v) = v <-> no_negative_zero v = true /\ finite_numbers v = true.
Proof.
  induction v as [| b | x | s | items IH | props IH] using JSON_nested_ind.
  - cbn. tauto.
  - cbn. tauto.
  - destruct x as [[|] [|p|p] e | sg]; cbn; split; try tauto; try discriminate;
      intros [H1 H2]; discriminate.
  - cbn. tauto.
  - cbn [nullify canon no_negative_zero finite_numbers]. rewrite map_map.
    split.
    + intros H. assert (Hm : List.map (fun a => canon (nullify a)) items = items)
        by congruence.
      apply map_fixed in Hm. rewrite !forallb_forall.
      rewrite Forall_forall in IH, Hm.
      split; intros a Ha; apply (IH a Ha); apply (Hm a Ha).
    + intros [H1 H2]. f_equal. apply map_fixed.
      rewrite forallb_forall in H1, H2. rewrite Forall_forall in *.
      intros a Ha. apply (IH a Ha). split; auto.
  - cbn [nullify canon no_negative_zero finite_numbers]. rewrite map_map.
    cbn [fst snd]. split.
    + intros H.
      assert (Hm : List.map (fun kv : jsstring * JSON => (fst kv, canon (nullify (snd kv))))
                     props = props) by congruence.
      apply map_fixed in Hm. rewrite !forallb_forall.
      rewrite Forall_forall in IH, Hm.
      split; intros [k a] Ha; cbn [snd]; apply (IH (k, a) Ha);
        specialize (Hm (k, a) Ha); cbn [fst snd] in *; congruence.
    + intros [H1 H2]. f_equal. apply map_fixed.
      rewrite forallb_forall in H1, H2. rewrite Forall_forall in *.
      intros [k a] Ha. cbn [fst snd]. f_equal.
      apply (IH (k, a) Ha). split; [apply (H1 (k, a) Ha) | apply (H2 (k, a) Ha)].
Qed.

Lemma JSON_parse_formatted (v : JSON) :
  is_parsed_value v = true ->
  JSON_parse (JSON_stringify v 2) = Some (canon (nullify v)).
Proof.
  intros Hv.
  assert (E : JSON_stringify v 2 = JSON_stringify (nullify v) 2).
  { unfold JSON_stringify. now rewrite Serialize_nullify. }
  rewrite E. apply JSON_parse_stringify. now apply is_json_value_nullify.
Qed.

(** The round trip of C6 fails on values that [JSON.parse] itself
    yields: the negative zero, read from [-0], is written as [0] and
    read back as the positive zero; a number beyond the binary64 range,
    read from [1e999] as an infinity, is written as [null]. *)
Lemma formatResult_round_trip_fails :
  (JSON_parse (lit "-0") = Some (JNumber (Fin true 0 (-1074)))
   /\ formatResult (JNumber (Fin true 0 (-1074))) = mkReply [mkContent (lit "text") (lit "0")]
   /\ JSON_parse (lit "0") = Some (JNumber (Fin false 0 (-1074)))
   /\ ~ round_trip_claim (JNumber (Fin true 0 (-1074))))
  /\ (JSON_parse (lit "[1e999]") = Some (JArray [JNumber (Inf false)])
      /\ JSON_parse (JSON_stringify (JArray [JNumber (Inf false)]) 2) = Some (JArray [JNull])
      /\ ~ round_trip_claim (JArray [JNumber (Inf false)])).
Proof.
  split.
  - split; [reflexivity|]. split; [reflexivity|]. split; [reflexivity|].
    intros (txt & Hc & Hp). cbn in Hc. injection Hc as <-. discriminate Hp.
  - split; [reflexivity|]. split; [reflexivity|].
    intros (txt & Hc & Hp). unfold formatResult in Hc. cbn [content] in Hc.
    injection Hc as <-. discriminate Hp.
Qed.

(** C6. For every value [v] that [JSON.parse] can yield, the reply of
    [formatResult v] holds exactly one content block, of type [text],
    and [JSON.parse] of the text of that block succeeds: it yields [v]
    with every infinite number replaced by [null] and every negative
    zero by the positive zero.  Hence the round trip returns [v] itself
    exactly when [v] holds neither a negative zero nor an infinite
    number. *)
Theorem formatResult_round_trip (v : JSON) :
  is_parsed_value v = true ->
  (exists txt : jsstring,
      content (formatResult v) = [mkContent (lit "text") txt]
      /\ JSON_parse txt = Some (canon (nullify v)))
  /\ (round_trip_claim v
      <-> no_negative_zero v = true /\ finite_numbers v = true).
Proof.
  intros Hv. pose proof (JSON_parse_formatted v Hv) as Hp. split.
  - exists (JSON_stringify v 2). split; [reflexivity | exact Hp].
  - split.
    + intros (txt & Hc & Ht). unfold formatResult in Hc. cbn [content] in Hc.
      assert (E : txt = JSON_stringify v 2) by congruence. subst txt.
      apply canon_nullify_fixed. congruence.
    + intros H. apply canon_nullify_fixed in H.
      exists (JSON_stringify v 2). split; [reflexivity|]. congruence.
Qed.

Lemma formatResult_round_trip_witness :
  round_trip_claim
    (JObject [(lit "risk_score", JNumber (Fin false (42 * 2 ^ 47) (-47)));
              (lit "tags", JArray [JString (lit "a"); JNull])]).
Proof.
  apply (formatResult_round_trip
           (JObject [(lit "risk_score", JNumber (Fin false (42 * 2 ^ 47) (-47)));
                     (lit "tags", JArray [JString (lit "a"); JNull])])
           eq_refl).
  split; reflexivity.
Defined.

(* ===================================================================== *)
(** * More about the target classifier *)
(* ===================================================================== *)

Section ClassifierEdges.

Lemma digit_group_length (g : jsstring) : digit_group g -> (1 <= List.length g)%nat.
Proof. intros [Hne _]. destruct g; [contradiction | simpl; lia]. Qed.

Lemma dotted_quad_length (s : jsstring) : dotted_quad s -> (7 <= List.length s)%nat.
Proof.
  intros (a & b & c & d & -> & Ha & Hb & Hc & Hd).
  apply digit_group_length in Ha, Hb, Hc, Hd.
  rewrite !length_app. change (List.length (lit ".")) with 1%nat. lia.
Qed.

Lemma dotted_quad_head (s : jsstring) :
  dotted_quad s -> exists c t, s = c :: t /\ (48 <= c <= 57)%N.
Proof.
  intros (a & b & c & d & -> & [Hne Hall] & _).
  destruct a as [|x a']; [contradiction|].
  exists x, (a' ++ lit "." ++ b ++ lit "." ++ c ++ lit "." ++ d).
  split; [reflexivity | now inversion Hall].
Qed.

Lemma startsWith_length (s p : jsstring) :
  startsWith s p = true -> (List.length p <= List.length s)%nat.
Proof.
  intros H. apply startsWith_prefix in H as [r ->]. rewrite length_app. lia.
Qed.

Lemma includes_at (s : jsstring) : includes s (lit "@") = true <-> In (cu "@") s.
Proof. exact (includes_char s (cu "@")). Qed.

(** X1. The classifier answers [ip] exactly for the strings made of
    four dot-separated groups of ASCII digits, and [email] exactly for
    the strings that hold an at sign. *)
Theorem detectTargetType_ip_email_exactly (s : jsstring) :
  (detectTargetType s = [(lit "ip", s)] <-> dotted_quad s)
  /\ (detectTargetType s = [(lit "email", s)] <-> In (cu "@") s).
Proof.
  unfold detectTargetType. split; split.
  - destruct (includes s (lit "@")); [discriminate|].
    destruct (RegExp_test ipv4_pattern s) eqn:E.
    + intros _. now apply RegExp_test_ipv4.
    + destruct (startsWith s (lit "http://") || startsWith s (lit "https://"));
        discriminate.
  - intros H. pose proof (dotted_quad_no_at s H) as Hat.
    destruct (includes s (lit "@")) eqn:E.
    + apply includes_at in E. contradiction.
    + apply RegExp_test_ipv4 in H. now rewrite H.
  - destruct (includes s (lit "@")) eqn:E.
    + intros _. now apply includes_at.
    + destruct (RegExp_test ipv4_pattern s); [discriminate|].
      destruct (startsWith s (lit "http://") || startsWith s (lit "https://"));
        discriminate.
  - intros H. apply includes_at in H. now rewrite H.
Qed.

(** X2. A target that starts with [http://] or [https://] is
    classified as [email] when an at sign occurs anywhere in it (in the
    user information, the path or the query) and as [url] otherwise;
    the [ip] rule never applies to it. *)
Theorem detectTargetType_of_http_target (r : jsstring) :
  let kind := if includes r (lit "@") then lit "email" else lit "url" in
  detectTargetType (lit "http://" ++ r) = [(kind, lit "http://" ++ r)]
  /\ detectTargetType (lit "https://" ++ r) = [(kind, lit "https://" ++ r)].
Proof.
  assert (Hat : forall p, ~ In (cu "@") p ->
                          includes (p ++ r) (lit "@") = includes r (lit "@")).
  { intros p Hp. apply eq_true_iff_eq. rewrite !includes_at, in_app_iff. tauto. }
  assert (Hq : forall (p : jsstring) (c : codeunit) (t : jsstring), p = c :: t -> ~ (48 <= c <= 57)%N ->
                             RegExp_test ipv4_pattern (p ++ r) = false).
  { intros p c t -> Hc. destruct (RegExp_test ipv4_pattern ((c :: t) ++ r)) eqn:E;
      [|reflexivity].
    apply RegExp_test_ipv4, dotted_quad_head in E as (c' & t' & E & Hr).
    injection E as <- _. contradiction. }
  cbv zeta. unfold detectTargetType. split.
  - rewrite Hat by (cbv; intuition discriminate).
    destruct (includes r (lit "@")); [reflexivity|].
    rewrite (Hq (lit "http://") (cu "h") (lit "ttp://")) by (reflexivity || (change (cu "h") with 104%N; lia)).
    now rewrite startsWith_app.
  - rewrite Hat by (cbv; intuition discriminate).
    destruct (includes r (lit "@")); [reflexivity|].
    rewrite (Hq (lit "https://") (cu "h") (lit "ttps://")) by (reflexivity || (change (cu "h") with 104%N; lia)).
    rewrite (startsWith_app (lit "https://") r). now rewrite orb_true_r.
Qed.

(** X3. A target shorter than seven code units that holds no at sign,
    the empty string among them, is classified as [domain]: neither a
    dotted quad nor a URL prefix fits into it. *)
Theorem detectTargetType_short_target (s : jsstring) :
  (List.length s < 7)%nat -> ~ In (cu "@") s ->
  detectTargetType s = [(lit "domain", s)].
Proof.
  intros Hlen Hat. unfold detectTargetType.
  destruct (includes s (lit "@")) eqn:E1; [apply includes_at in E1; contradiction|].
  destruct (RegExp_test ipv4_pattern s) eqn:E2.
  { apply RegExp_test_ipv4, dotted_quad_length in E2. lia. }
  destruct (startsWith s (lit "http://")) eqn:E3.
  { apply startsWith_length in E3. change (List.length (lit "http://")) with 7%nat in E3. lia. }
  destruct (startsWith s (lit "https://")) eqn:E4.
  { apply startsWith_length in E4. change (List.length (lit "https://")) with 8%nat in E4. lia. }
  reflexivity.
Qed.

Lemma detectTargetType_short_target_witness :
  (List.length (lit "8.8.8") < 7)%nat /\ ~ In (cu "@") (lit "8.8.8")
  /\ detectTargetType (lit "8.8.8") = [(lit "domain", lit "8.8.8")].
Proof.
  assert (Hlen : (List.length (lit "8.8.8") < 7)%nat) by (cbv; lia).
  assert (Hat : ~ In (cu "@") (lit "8.8.8")) by (cbv; intuition discriminate).
  split; [exact Hlen | split; [exact Hat |]].
  exact (detectTargetType_short_target (lit "8.8.8") Hlen Hat).
Defined.

End ClassifierEdges.

(* ===================================================================== *)
(** * Failures of a call *)
(* ===================================================================== *)

Section CallFailures.

Lemma main_keeps_settings (env : Env) (w : World) (m : Module) :
  main env w = Resolved m ->
  SHIELDAPI_URL m = SHIELDAPI_URL (load env)
  /\ SHIELDAPI_WALLET_PRIVATE_KEY m = SHIELDAPI_WALLET_PRIVATE_KEY (load env)
  /\ demoMode m = demoMode (load env).
Proof.
  unfold main, initPaymentFetch. destruct (demoMode (load env)) eqn:Ed.
  - intros H. injection H as <-. auto.
  - destruct (payment_client w _); [|discriminate].
    intros H. injection H as <-. cbn. auto.
Qed.

Lemma URL_new_rooted (w : World) (rest : jsstring) :
  URL_new w (lit "/api/" ++ rest) = None.
Proof. reflexivity. Qed.

(** X4. An empty [SHIELDAPI_URL] is kept as it is, the default standing
    in for an unset variable only; after start-up every call of the API
    caller then fails on the URL, before any request is sent. *)
Theorem empty_SHIELDAPI_URL_fails_every_call
  (key : option jsstring) (w : World) (m : Module) :
  main (mkEnv (Some []) key) w = Resolved m ->
  SHIELDAPI_URL m = []
  /\ forall (endpoint : jsstring) (params : StrRecord) (w' : World),
       callShieldApi m endpoint params w' = (Rejected InvalidURL, []).
Proof.
  intros H. apply main_keeps_settings in H as (Hurl & _ & _).
  cbn in Hurl. split; [exact Hurl|].
  intros endpoint params w'. rewrite callShieldApi_unfold, Hurl.
  unfold buildUrl. cbn [app]. now rewrite URL_new_rooted.
Qed.

Lemma empty_SHIELDAPI_URL_fails_every_call_witness :
  main (mkEnv (Some []) None) (world_answering 200 (lit "{}"))
  = Resolved (load (mkEnv (Some []) None))
  /\ callShieldApi (load (mkEnv (Some []) None)) (lit "check-ip") [(lit "ip", lit "8.8.8.8")]
       (world_answering 200 (lit "{}"))
     = (Rejected InvalidURL, []).
Proof.
  assert (H : main (mkEnv (Some []) None) (world_answering 200 (lit "{}"))
              = Resolved (load (mkEnv (Some []) None))) by reflexivity.
  split; [exact H|].
  apply (proj2 (empty_SHIELDAPI_URL_fails_every_call None _ _ H)).
Defined.

Lemma skip_ws_blank (s : jsstring) : forallb is_ws s = true -> skip_ws s = [].
Proof.
  induction s as [|c s IH]; [reflexivity|]. cbn [forallb skip_ws].
  intros H. apply andb_true_iff in H as [Hc Hs]. rewrite Hc. auto.
Qed.

Lemma JSON_parse_blank (s : jsstring) : forallb is_ws s = true -> JSON_parse s = None.
Proof.
  intros H. unfold JSON_parse. cbn [parse_value]. now rewrite skip_ws_blank.
Qed.

(** X5. A response with a status from 200 to 299 whose body is empty
    or holds white space only (a 204 for instance) makes the call fail
    with a syntax error: no result is returned in place of the missing
    document. *)
Theorem callShieldApi_blank_body
  (m : Module) (endpoint : jsstring) (params : StrRecord) (w : World)
  (url : jsstring) (response : Response) (trace : list Request) :
  buildUrl w (SHIELDAPI_URL m) endpoint params (demoMode m) = Some url ->
  call_transport (paymentFetch m) url w = (Resolved response, trace) ->
  (200 <= status response <= 299)%N ->
  forallb is_ws (body response) = true ->
  callShieldApi m endpoint params w = (Rejected SyntaxError, trace).
Proof.
  intros Hurl Hcall Hok Hblank.
  rewrite callShieldApi_unfold, Hurl, Hcall.
  apply Response_ok_range in Hok. rewrite Hok. cbn [negb].
  now rewrite JSON_parse_blank.
Qed.

Lemma callShieldApi_blank_body_witness :
  callShieldApi demo_module (lit "check-ip") [(lit "ip", lit "8.8.8.8")]
    (world_answering 204 [])
  = (Rejected SyntaxError,
     [mkRequest (lit "https://shield.vainplex.dev/api/check-ip?ip=8.8.8.8&demo=true") None]).
Proof.
  apply (callShieldApi_blank_body demo_module (lit "check-ip") [(lit "ip", lit "8.8.8.8")]
           (world_answering 204 [])
           (lit "https://shield.vainplex.dev/api/check-ip?ip=8.8.8.8&demo=true")
           (mkResponse 204 [])).
  - reflexivity.
  - reflexivity.
  - cbn. lia.
  - reflexivity.
Defined.

(** X6. A tool invocation returns a reply only when the call went
    through: the tool exists, its parameter was given, the transport
    delivered a response with a status from 200 to 299 whose body is a
    JSON text, and the reply is that document formatted.  Every other
    course ends in an error. *)
Theorem tool_reply_only_on_success
  (m : Module) (name : jsstring) (args : StrRecord) (w : World)
  (reply : Reply) (trace : list Request) :
  callTool server_tools m name args w = (inl reply, trace) ->
  exists (t : Tool) (value endpoint : jsstring) (params : StrRecord)
         (url : jsstring) (response : Response) (data : JSON),
    find_tool name server_tools = Some t
    /\ lookup (tool_param t) args = Some value
    /\ api_calls (tool_handler t value) data = [(endpoint, params)]
    /\ buildUrl w (SHIELDAPI_URL m) endpoint params (demoMode m) = Some url
    /\ call_transport (paymentFetch m) url w = (Resolved response, trace)
    /\ (200 <= status response <= 299)%N
    /\ JSON_parse (body response) = Some data
    /\ reply = formatResult data.
Proof.
  unfold callTool. destruct (find_tool name server_tools) as [t|] eqn:Et; [|discriminate].
  destruct (lookup (tool_param t) args) as [value|] eqn:Ev; [|discriminate].
  destruct (find_tool_In name server_tools t Et) as [Hin _].
  destruct (server_tools_one_call t value Hin) as (endpoint & params & Hh).
  rewrite Hh. unfold one_call. cbn [exec]. unfold bind.
  rewrite callShieldApi_unfold.
  destruct (buildUrl w (SHIELDAPI_URL m) endpoint params (demoMode m)) as [url|] eqn:Eu;
    [|discriminate].
  destruct (call_transport (paymentFetch m) url w) as [[response|e] tr] eqn:Ec;
    [|discriminate].
  destruct (Response_ok response) eqn:Eok; cbn [negb]; [|discriminate].
  destruct (JSON_parse (body response)) as [data|] eqn:Ep; [|discriminate].
  cbn [ret]. rewrite app_nil_r. intros H. injection H as <- <-.
  exists t, value, endpoint, params, url, response, data.
  rewrite Hh. apply Response_ok_range in Eok. repeat split; auto; apply Eok.
Qed.

Lemma tool_reply_only_on_success_witness :
  exists (t : Tool) (value endpoint : jsstring) (params : StrRecord)
         (url : jsstring) (response : Response) (data : JSON),
    find_tool (lit "check_ip") server_tools = Some t
    /\ lookup (tool_param t) [(lit "ip", lit "8.8.8.8")] = Some value
    /\ api_calls (tool_handler t value) data = [(endpoint, params)]
    /\ buildUrl (world_answering 200 (lit "[]")) (SHIELDAPI_URL demo_module) endpoint params
         (demoMode demo_module) = Some url
    /\ call_transport (paymentFetch demo_module) url (world_answering 200 (lit "[]"))
       = (Resolved response,
          [mkRequest (lit "https://shield.vainplex.dev/api/check-ip?ip=8.8.8.8&demo=true") None])
    /\ (200 <= status response <= 299)%N
    /\ JSON_parse (body response) = Some data
    /\ formatResult (JArray []) = formatResult data.
Proof.
  apply (tool_reply_only_on_success demo_module (lit "check_ip") [(lit "ip", lit "8.8.8.8")]
           (world_answering 200 (lit "[]"))).
  reflexivity.
Defined.

End CallFailures.

(* ===================================================================== *)
(** * The query of a request *)
(* ===================================================================== *)

Section RequestQuery.




Lemma set_pair_value (name value : jsstring) (l : StrRecord) (v : jsstring) :
  In (name, v) (set_pair name value l) -> v = value.
Proof.
  induction l as [|[n v0] l IH]; cbn [set_pair].
  - intros [H | []]. congruence.
  - destruct (str_eqb n name) eqn:E.
    + intros [H | H]; [congruence|].
      apply filter_In in H as [_ H]. cbn [fst] in H.
      rewrite str_eqb_refl in H. discriminate.
    + intros [H | H]; [|auto].
      injection H as -> _. rewrite str_eqb_refl in E. discriminate.
Qed.

Lemma query_item_name (k v name rest : jsstring) :
  Forall (fun c => is_alnum c = true) name ->
  query_item k v = name ++ lit "=" ++ rest -> k = name /\ urlencode v = rest.
Proof.
  unfold query_item. intros Hname H.
  change (lit "=" ++ urlencode v) with (cu "=" :: urlencode v) in H.
  change (lit "=" ++ rest) with (cu "=" :: rest) in H.
  apply app_sep_unique in H as [H1 H2].
  - split; [|exact H2]. now apply urlencode_alnum.
  - intros Hin. apply urlencode_not_reserved in Hin. apply Hin. right. now left.
  - intros Hin. rewrite Forall_forall in Hname. apply Hname in Hin. discriminate.
Qed.

(** X9. In Demo mode the marker wins over the parameters: whatever
    the parameters are, a parameter named [demo] among them, the built
    URL holds [demo=true] and no other item of the name [demo]. *)
Theorem buildUrl_demo_marker_wins
  (w : World) (base endpoint : jsstring) (params : StrRecord) :
  plain_base base = true ->
  plain_path endpoint = true ->
  exists url,
    buildUrl w base endpoint params true = Some url
    /\ In (lit "demo=true") (query_items url)
    /\ forall it, In it (query_items url) -> has_prefix (lit "demo=") it ->
                  it = lit "demo=true".
Proof.
  intros Hb He.
  destruct (buildUrl_pairs w base endpoint params true Hb He)
    as (url & Hurl & _ & _ & Hitems).
  exists url. split; [exact Hurl|]. rewrite Hitems.
  unfold final_pairs, final_pairs_from. split.
  - apply in_map_iff. exists (lit "demo", lit "true"). split; [reflexivity|].
    apply set_pair_In.
  - intros it Hin [rest Hrest]. apply in_map_iff in Hin as ([k v] & <- & Hin).
    unfold item_of in *. cbn [fst snd] in *.
    change (lit "demo=" ++ rest) with (lit "demo" ++ lit "=" ++ rest) in Hrest.
    apply query_item_name in Hrest as [-> _]; [|repeat constructor].
    apply set_pair_value in Hin. now subst v.
Qed.

Lemma buildUrl_demo_marker_wins_witness :
  exists url,
    buildUrl (world_answering 200 []) (lit "https://shield.vainplex.dev") (lit "check-url")
      [(lit "demo", lit "false"); (lit "url", lit "x")] true = Some url
    /\ In (lit "demo=true") (query_items url)
    /\ forall it, In it (query_items url) -> has_prefix (lit "demo=") it ->
                  it = lit "demo=true".
Proof.
  apply (buildUrl_demo_marker_wins (world_answering 200 [])
           (lit "https://shield.vainplex.dev") (lit "check-url")
           [(lit "demo", lit "false"); (lit "url", lit "x")]); reflexivity.
Defined.

End RequestQuery.

(* ===================================================================== *)
(** * The requests of the registered tools *)
(* ===================================================================== *)

Section ToolRequests.

Lemma detectTargetType_key (target : jsstring) :
  exists key,
    detectTargetType target = [(key, target)]
    /\ (key = lit "email" \/ key = lit "ip" \/ key = lit "url" \/ key = lit "domain").
Proof.
  unfold detectTargetType.
  destruct (includes target (lit "@")); [eauto 6|].
  destruct (RegExp_test ipv4_pattern target); [eauto 6|].
  destruct (startsWith target (lit "http://") || startsWith target (lit "https://"));
    eauto 7.
Qed.

(** The call a registered tool makes: its endpoint, and one parameter,
    whose name is none of [demo] and whose value is the argument. *)
Lemma server_tools_call (t : Tool) (value : jsstring) :
  In t server_tools ->
  exists endpoint k,
    tool_handler t value = one_call endpoint [(k, value)]
    /\ plain_path endpoint = true
    /\ str_mem (lit "demo") [k] = false.
Proof.
  intros H. repeat (destruct H as [<- | H]); try contradiction;
    try (eexists _, _; repeat split; reflexivity).
  destruct (detectTargetType_key value) as (key & E & Hk).
  exists (lit "full-scan"), key. cbn [tool_handler full_scan]. rewrite E.
  split; [reflexivity|]. split; [reflexivity|].
  destruct Hk as [-> | [-> | [-> | ->]]]; reflexivity.
Qed.

(** X10. Whatever argument a registered tool is given (ampersands,
    equal signs, hashes, spaces or any other code units), the URL it
    requests has a query of one item, its parameter with the
    percent-encoded argument, followed in Demo mode by [demo=true]:
    an argument cannot add, drop or change a query item, and outside
    Demo mode no request of a tool is marked [demo=true]. *)
Theorem tool_request_query (w : World) (t : Tool) (value base : jsstring) (demo : bool) :
  In t server_tools ->
  plain_base base = true ->
  exists endpoint k url,
    (forall answer, api_calls (tool_handler t value) answer = [(endpoint, [(k, value)])])
    /\ buildUrl w base endpoint [(k, value)] demo = Some url
    /\ before_query url = base ++ lit "/api/" ++ endpoint
    /\ query_items url = query_item k value :: (if demo then [lit "demo=true"] else [])
    /\ (demo = false -> ~ In (lit "demo=true") (query_items url)).
Proof.
  intros Hin Hb.
  destruct (server_tools_call t value Hin) as (endpoint & k & Hh & He & Hk).
  destruct (buildUrl_pairs w base endpoint [(k, value)] demo Hb He)
    as (url & Hurl & _ & Hstem & Hitems).
  assert (Hq : List.map item_of (final_pairs [(k, value)] demo)
               = query_item k value :: (if demo then [lit "demo=true"] else [])).
  { rewrite (final_pairs_fresh [(k, value)] demo eq_refl Hk). now destruct demo. }
  exists endpoint, k, url.
  split; [|split; [exact Hurl | split; [exact Hstem | split; [exact (eq_trans Hitems Hq)|]]]].
  - intros answer. now rewrite Hh.
  - intros ->. rewrite Hitems, Hq. intros [H | []].
    apply query_item_demo in H. subst k.
    cbn in Hk. discriminate.
Qed.

Lemma tool_request_query_witness :
  exists endpoint k url,
    (forall answer,
        api_calls (tool_handler check_url (lit "https://evil.com/?a=1&demo=true#x")) answer
        = [(endpoint, [(k, lit "https://evil.com/?a=1&demo=true#x")])])
    /\ buildUrl (world_answering 200 []) (lit "https://shield.vainplex.dev") endpoint
         [(k, lit "https://evil.com/?a=1&demo=true#x")] false = Some url
    /\ before_query url = lit "https://shield.vainplex.dev" ++ lit "/api/" ++ endpoint
    /\ query_items url = [query_item k (lit "https://evil.com/?a=1&demo=true#x")]
    /\ (false = false -> ~ In (lit "demo=true") (query_items url)).
Proof.
  apply (tool_request_query (world_answering 200 []) check_url
           (lit "https://evil.com/?a=1&demo=true#x")
           (lit "https://shield.vainplex.dev") false).
  - left. reflexivity.
  - reflexivity.
Defined.

(** ** The code units of a query *)

Lemma upper_hex_digit_form (n : N) : (n < 16)%N -> form_char (upper_hex_digit n) = true.
Proof.
  intros H. unfold upper_hex_digit, form_char, is_alnum.
  destruct (N.ltb_spec n 10) as [Hd | Hd].
  - assert (H1 : (48 <=? 48 + n)%N = true) by (apply N.leb_le; lia).
    assert (H2 : (48 + n <=? 57)%N = true) by (apply N.leb_le; lia).
    now rewrite H1, H2.
  - assert (H1 : (65 <=? 55 + n)%N = true) by (apply N.leb_le; lia).
    assert (H2 : (55 + n <=? 90)%N = true) by (apply N.leb_le; lia).
    rewrite H1, H2. cbn [andb]. now rewrite orb_true_r.
Qed.

Lemma utf8_code_point_bytes (cp : N) :
  (cp < 1114112)%N -> Forall (fun b => (b < 256)%N) (utf8_code_point cp).
Proof.
  intros H. unfold utf8_code_point.
  destruct (N.ltb_spec cp 128); [repeat constructor; lia|].
  destruct (N.ltb_spec cp 2048).
  { repeat constructor.
    - assert (cp / 64 < 32)%N by (apply N.Div0.div_lt_upper_bound; lia). lia.
    - assert (cp mod 64 < 64)%N by (apply N.mod_lt; lia). lia. }
  destruct (N.ltb_spec cp 65536).
  { repeat constructor.
    - assert (cp / 4096 < 16)%N by (apply N.Div0.div_lt_upper_bound; lia). lia.
    - assert ((cp / 64) mod 64 < 64)%N by (apply N.mod_lt; lia). lia.
    - assert (cp mod 64 < 64)%N by (apply N.mod_lt; lia). lia. }
  repeat constructor.
  - assert (cp / 262144 < 5)%N by (apply N.Div0.div_lt_upper_bound; lia). lia.
  - assert ((cp / 4096) mod 64 < 64)%N by (apply N.mod_lt; lia). lia.
  - assert ((cp / 64) mod 64 < 64)%N by (apply N.mod_lt; lia). lia.
  - assert (cp mod 64 < 64)%N by (apply N.mod_lt; lia). lia.
Qed.

Lemma surrogate_ranges (c : codeunit) :
  (is_high_surrogate c = true <-> (55296 <= c <= 56319)%N)
  /\ (is_low_surrogate c = true <-> (56320 <= c <= 57343)%N).
Proof.
  unfold is_high_surrogate, is_low_surrogate.
  rewrite !andb_true_iff, !N.leb_le. tauto.
Qed.

Lemma utf8_encode_bytes (s : jsstring) :
  wf_stringb s = true -> Forall (fun b => (b < 256)%N) (utf8_encode s).
Proof.
  assert (Hrep : Forall (fun b => (b < 256)%N) [239; 191; 189]%N)
    by (repeat constructor; lia).
  remember (List.length s) as n eqn:Hn.
  assert (Hlen : (List.length s <= n)%nat) by lia. clear Hn.
  revert s Hlen. induction n as [|n IH]; intros s Hlen Hwf.
  { destruct s; [constructor | simpl in Hlen; lia]. }
  destruct s as [|c t]; [constructor|].
  cbn [wf_stringb forallb] in Hwf. apply andb_true_iff in Hwf as [Hc Ht].
  apply N.ltb_lt in Hc. simpl in Hlen.
  cbn [utf8_encode].
  destruct (is_high_surrogate c) eqn:Eh.
  - destruct t as [|d t']; [exact Hrep|].
    destruct (is_low_surrogate d) eqn:El.
    + cbn [forallb] in Ht. apply andb_true_iff in Ht as [_ Ht'].
      apply surrogate_ranges in Eh. apply surrogate_ranges in El.
      apply Forall_app. split.
      * apply utf8_code_point_bytes. lia.
      * apply IH; [simpl in Hlen; lia | exact Ht'].
    + apply Forall_app. split; [exact Hrep|]. apply IH; [lia | exact Ht].
  - destruct (is_low_surrogate c).
    + apply Forall_app. split; [exact Hrep|]. apply IH; [lia | exact Ht].
    + apply Forall_app. split.
      * apply utf8_code_point_bytes. lia.
      * apply IH; [lia | exact Ht].
Qed.

Lemma urlencode_byte_form (b : N) (c : codeunit) :
  (b < 256)%N -> In c (urlencode_byte b) -> form_char c = true.
Proof.
  intros Hb. unfold urlencode_byte.
  destruct (b =? 32)%N; [intros [<- | []]; reflexivity|].
  destruct (is_alnum b || (b =? 42) || (b =? 45) || (b =? 46) || (b =? 95))%N eqn:E.
  - intros [<- | []]. unfold form_char, is_char.
    destruct (is_alnum b); [reflexivity|]. cbn [orb] in E.
    repeat (apply orb_true_iff in E as [E | E]);
      apply N.eqb_eq in E; subst b; reflexivity.
  - intros [<- | [<- | [<- | []]]]; [reflexivity | |]; apply upper_hex_digit_form.
    + apply N.Div0.div_lt_upper_bound; lia.
    + apply N.mod_lt; lia.
Qed.

Lemma urlencode_form (s : jsstring) (c : codeunit) :
  wf_stringb s = true -> In c (urlencode s) -> form_char c = true.
Proof.
  intros Hwf Hin. unfold urlencode in Hin. apply in_flat_map in Hin as (b & Hb & Hc).
  pose proof (utf8_encode_bytes s Hwf) as Hall. rewrite Forall_forall in Hall.
  exact (urlencode_byte_form b c (Hall b Hb) Hc).
Qed.

Lemma set_pair_incl (name value : jsstring) (l : StrRecord) (p : jsstring * jsstring) :
  In p (set_pair name value l) -> p = (name, value) \/ In p l.
Proof.
  induction l as [|[n v0] l IH]; cbn [set_pair].
  - intros [<- | []]. now left.
  - destruct (str_eqb n name) eqn:E.
    + apply str_eqb_eq in E. subst n. intros [<- | H]; [now left|].
      apply filter_In in H as [H _]. right. now right.
    + intros [<- | H]; [right; now left|].
      destruct (IH H) as [-> | H']; [now left | right; now right].
Qed.

Lemma set_all_incl (params acc : StrRecord) (p : jsstring * jsstring) :
  In p (set_all params acc) -> In p params \/ In p acc.
Proof.
  unfold set_all. revert acc. induction params as [|[k v] params IH]; intros acc; cbn [fold_left].
  - now right.
  - intros H. apply IH in H as [H | H]; [left; now right|].
    cbn [fst snd] in H. apply set_pair_incl in H as [-> | H]; [left; now left | now right].
Qed.

Lemma final_pairs_incl (params : StrRecord) (demo : bool) (p : jsstring * jsstring) :
  In p (final_pairs params demo) -> In p params \/ p = (lit "demo", lit "true").
Proof.
  unfold final_pairs, final_pairs_from. cbv zeta. destruct demo.
  - intros H. apply set_pair_incl in H as [-> | H]; [now right|].
    apply set_all_incl in H as [H | []]. now left.
  - intros H. apply set_all_incl in H as [H | []]. now left.
Qed.

(** X11. The query of a built URL is URL-safe ASCII, whatever the
    parameters hold: every code unit of an item is an ASCII letter or
    digit, one of [* - . _], the plus sign that stands for a space, or
    belongs to a percent escape, but for the equal sign between name
    and value. *)
Theorem buildUrl_query_chars
  (w : World) (base endpoint : jsstring) (params : StrRecord) (demo : bool) :
  plain_base base = true ->
  plain_path endpoint = true ->
  forallb (fun kv : jsstring * jsstring => wf_stringb (fst kv) && wf_stringb (snd kv))
          params = true ->
  exists url,
    buildUrl w base endpoint params demo = Some url
    /\ forall it c, In it (query_items url) -> In c it ->
                    form_char c = true \/ c = cu "=".
Proof.
  intros Hb He Hwf.
  destruct (buildUrl_pairs w base endpoint params demo Hb He)
    as (url & Hurl & _ & _ & Hitems).
  exists url. split; [exact Hurl|]. rewrite Hitems.
  assert (Hpairs : forall k v, In (k, v) (final_pairs params demo) ->
                               wf_stringb k = true /\ wf_stringb v = true).
  { intros k v Hin. apply final_pairs_incl in Hin as [Hin | Hin].
    - rewrite forallb_forall in Hwf. apply Hwf in Hin. cbn [fst snd] in Hin.
      now apply andb_true_iff in Hin.
    - injection Hin as -> ->. split; reflexivity. }
  intros it c Hit Hc. apply in_map_iff in Hit as ([k v] & <- & Hkv).
  destruct (Hpairs k v Hkv) as [Hk Hv].
  unfold item_of, query_item in Hc. cbn [fst snd] in Hc.
  apply in_app_or in Hc as [Hc | Hc]; [left; now apply (urlencode_form k)|].
  apply in_app_or in Hc as [Hc | Hc].
  - right. destruct Hc as [<- | []]. reflexivity.
  - left. now apply (urlencode_form v).
Qed.

Lemma buildUrl_query_chars_witness :
  exists url,
    buildUrl (world_answering 200 []) (lit "https://shield.vainplex.dev") (lit "check-url")
      [(lit "url", lit "https://evil.com/a b?c=d&e#f")] true = Some url
    /\ forall it c, In it (query_items url) -> In c it ->
                    form_char c = true \/ c = cu "=".
Proof.
  apply (buildUrl_query_chars (world_answering 200 [])
           (lit "https://shield.vainplex.dev") (lit "check-url")
           [(lit "url", lit "https://evil.com/a b?c=d&e#f")] true); reflexivity.
Defined.

End ToolRequests.

(* ===================================================================== *)
(** * More about [formatResult] *)
(* ===================================================================== *)

Section FormatResult.

Lemma Number_toString_canon (x : Number) :
  Number_toString (canon_number x) = Number_toString x.
Proof. destruct x as [s [| |] e|]; reflexivity. Qed.

Lemma is_finite_canon (x : Number) : is_finite (canon_number x) = is_finite x.
Proof. destruct x as [s [| |] e|]; reflexivity. Qed.

(** Both zeros are written alike. *)
Lemma Serialize_canon (gap : jsstring) (v : JSON) :
  forall indent, SerializeJSONProperty gap indent (canon v) = SerializeJSONProperty gap indent v.
Proof.
  induction v as [| b | x | s | items IH | props IH] using JSON_nested_ind;
    intros indent; try reflexivity.
  - cbn [canon SerializeJSONProperty].
    now rewrite is_finite_canon, Number_toString_canon.
  - cbn [canon SerializeJSONProperty]. rewrite map_map.
    replace (List.map (fun x => SerializeJSONProperty gap (indent ++ gap) (canon x)) items)
      with (List.map (SerializeJSONProperty gap (indent ++ gap)) items); [reflexivity|].
    apply map_ext_Forall. eapply Forall_impl; [|exact IH]. intros a Ha. now rewrite Ha.
  - cbn [canon SerializeJSONProperty]. rewrite map_map.
    match goal with
    | |- match List.map ?f props with _ => _ end = match List.map ?g props with _ => _ end =>
        replace (List.map f props) with (List.map g props); [reflexivity|]
    end.
    apply map_ext_Forall. eapply Forall_impl; [|exact IH].
    intros [k a] Ha. cbn [fst snd] in *. now rewrite Ha.
Qed.

(** X12. Formatting loses nothing but the sign of zero: two JSON
    values have the same reply exactly when they agree up to the sign
    of their zeros, and two values without a negative zero have the
    same reply only when they are the same value. *)
Theorem formatResult_injective (v w : JSON) :
  is_json_value v = true -> is_json_value w = true ->
  (formatResult v = formatResult w <-> canon v = canon w)
  /\ (no_negative_zero v = true -> no_negative_zero w = true ->
      formatResult v = formatResult w -> v = w).
Proof.
  intros Hv Hw.
  assert (Hto : formatResult v = formatResult w -> canon v = canon w).
  { unfold formatResult. intros H. injection H as H.
    pose proof (JSON_parse_stringify v Hv) as Pv.
    pose proof (JSON_parse_stringify w Hw) as Pw.
    rewrite H in Pv. congruence. }
  split; [split; [exact Hto|] |].
  - intros H. unfold formatResult, JSON_stringify.
    rewrite <- (Serialize_canon _ v), <- (Serialize_canon _ w), H. reflexivity.
  - intros Zv Zw H. apply Hto in H.
    now rewrite (canon_id v Zv), (canon_id w Zw) in H.
Qed.

Lemma formatResult_injective_witness :
  (formatResult (JArray [JNumber (Fin true 0 (-1074))])
   = formatResult (JArray [JNumber (Fin false 0 (-1074))])
   <-> canon (JArray [JNumber (Fin true 0 (-1074))])
       = canon (JArray [JNumber (Fin false 0 (-1074))]))
  /\ formatResult (JArray [JNumber (Fin true 0 (-1074))])
     = formatResult (JArray [JNumber (Fin false 0 (-1074))]).
Proof.
  split; [|reflexivity].
  apply (formatResult_injective (JArray [JNumber (Fin true 0 (-1074))])
           (JArray [JNumber (Fin false 0 (-1074))])); reflexivity.
Defined.

Lemma canonicalb_canon (x : Number) : canonicalb (canon_number x) = canonicalb x.
Proof. destruct x as [s [| |] e|]; reflexivity. Qed.

Lemma is_json_value_canon (v : JSON) : is_json_value v = true -> is_json_value (canon v) = true.
Proof.
  induction v as [| b | x | s | items IH | props IH] using JSON_nested_ind;
    intros Hv; try exact Hv.
  - cbn [canon is_json_value] in *. now rewrite canonicalb_canon.
  - cbn [canon is_json_value] in *. rewrite forallb_forall in *.
    intros a Ha. apply in_map_iff in Ha as (a0 & <- & Ha0).
    rewrite Forall_forall in IH. auto.
  - cbn [canon is_json_value] in *. apply andb_true_iff in Hv as [Hk Hv].
    rewrite canon_keys, Hk. cbn [andb]. rewrite forallb_forall in *.
    intros [k a] Ha. apply in_map_iff in Ha as ([k0 a0] & E & Ha0).
    cbn [fst snd] in E. injection E as <- <-.
    rewrite Forall_forall in IH. specialize (IH _ Ha0). specialize (Hv _ Ha0).
    cbn [snd] in *. apply andb_true_iff in Hv as [Hk0 Hv0]. rewrite Hk0. auto.
Qed.

(** X13. Formatting is stable under a relay: the text of a reply is
    a JSON text, and formatting the value it parses to yields the same
    reply again. *)
Theorem formatResult_relay (v : JSON) :
  is_json_value v = true ->
  exists w,
    JSON_parse (JSON_stringify v 2) = Some w
    /\ is_json_value w = true
    /\ formatResult w = formatResult v.
Proof.
  intros Hv. exists (canon v). split; [now apply JSON_parse_stringify|]. split.
  - now apply is_json_value_canon.
  - unfold formatResult, JSON_stringify. now rewrite Serialize_canon.
Qed.

Lemma formatResult_relay_witness :
  exists w,
    JSON_parse (JSON_stringify (JArray [JNumber (Fin true 0 (-1074)); JNull]) 2) = Some w
    /\ is_json_value w = true
    /\ formatResult w = formatResult (JArray [JNumber (Fin true 0 (-1074)); JNull]).
Proof.
  apply (formatResult_relay (JArray [JNumber (Fin true 0 (-1074)); JNull])). reflexivity.
Defined.

(** ** Numbers beyond the binary64 range *)

(** X14. A number beyond the binary64 range, which [JSON.parse] reads
    as an infinity, is written as [null]: the reply of a value that
    holds such numbers is the reply of the value with [null] in their
    places, and its text reads back as that value. *)
Theorem formatResult_infinite_numbers (v : JSON) :
  is_parsed_value v = true ->
  formatResult v = formatResult (nullify v)
  /\ JSON_parse (JSON_stringify v 2) = Some (canon (nullify v)).
Proof.
  intros Hv.
  assert (E : JSON_stringify v 2 = JSON_stringify (nullify v) 2).
  { unfold JSON_stringify. now rewrite Serialize_nullify. }
  split; [unfold formatResult; now rewrite E|].
  rewrite E. apply JSON_parse_stringify. now apply is_json_value_nullify.
Qed.

Lemma formatResult_infinite_numbers_witness :
  JSON_parse (lit "[1e999]") = Some (JArray [JNumber (Inf false)])
  /\ formatResult (JArray [JNumber (Inf false)]) = formatResult (JArray [JNull])
  /\ JSON_parse (JSON_stringify (JArray [JNumber (Inf false)]) 2) = Some (JArray [JNull]).
Proof.
  split; [reflexivity|].
  destruct (formatResult_infinite_numbers (JArray [JNumber (Inf false)]) eq_refl)
    as (H1 & H2).
  split; [exact H1 | exact H2].
Defined.

End FormatResult.

(* ===================================================================== *)
(** * Reading the argument off the request *)
(* ===================================================================== *)

Section QueryRoundTrip.
Local Open Scope N_scope.

Lemma hex_value_upper (n : N) : n < 16 -> hex_value (upper_hex_digit n) = Some n.
Proof.
  intros H. unfold upper_hex_digit, hex_value.
  destruct (N.ltb_spec n 10) as [Hd | Hd].
  - assert (H1 : (48 <=? 48 + n) = true) by (apply N.leb_le; lia).
    assert (H2 : (48 + n <=? 57) = true) by (apply N.leb_le; lia).
    rewrite H1, H2. cbn [andb]. f_equal. lia.
  - assert (H1 : (48 + 7 + n <=? 57) = false) by (apply N.leb_gt; lia).
    assert (H2 : (55 + n <=? 102) = true) by (apply N.leb_le; lia).
    assert (H3 : (97 <=? 55 + n) = false) by (apply N.leb_gt; lia).
    assert (H4 : (65 <=? 55 + n) = true) by (apply N.leb_le; lia).
    assert (H5 : (55 + n <=? 70) = true) by (apply N.leb_le; lia).
    change (48 + 7 + n) with (55 + n) in H1.
    rewrite H1, H3, H4, H5, andb_false_r. cbn [andb]. f_equal. lia.
Qed.

Lemma form_decode_byte (b : N) (rest : jsstring) :
  b < 256 -> form_decode (urlencode_byte b ++ rest) = b :: form_decode rest.
Proof.
  intros Hb. unfold urlencode_byte.
  destruct (N.eqb_spec b 32) as [-> | H32]; [reflexivity|].
  destruct (is_alnum b || (b =? 42) || (b =? 45) || (b =? 46) || (b =? 95)) eqn:E.
  - cbn [app form_decode].
    assert (H43 : (b =? 43) = false).
    { apply N.eqb_neq. intros ->. discriminate. }
    assert (H37 : (b =? 37) = false).
    { apply N.eqb_neq. intros ->. discriminate. }
    now rewrite H43, H37.
  - cbn [app form_decode]. change (37 =? 43) with false. change (37 =? 37) with true.
    cbv iota.
    rewrite !hex_value_upper
      by (apply N.Div0.div_lt_upper_bound || apply N.mod_lt; lia).
    f_equal. symmetry. apply N.div_mod. lia.
Qed.

Lemma form_decode_bytes (bs : list N) :
  Forall (fun b => b < 256) bs -> form_decode (flat_map urlencode_byte bs) = bs.
Proof.
  induction 1 as [|b bs Hb _ IH]; [reflexivity|].
  cbn [flat_map]. now rewrite form_decode_byte, IH.
Qed.

Ltac decide_ltb :=
  repeat match goal with
         | |- context [(?a <? ?b)] =>
             first [ rewrite (proj2 (N.ltb_lt a b)) by lia
                   | rewrite (proj2 (N.ltb_ge a b)) by lia ]
         end.

Lemma utf8_decode_unit (cp : N) (rest : list N) :
  cp < 65536 -> utf8_decode (utf8_code_point cp ++ rest) = cp :: utf8_decode rest.
Proof.
  intros Hcp. unfold utf8_code_point.
  pose proof (N.div_mod cp 64 ltac:(lia)) as E1.
  pose proof (N.mod_lt cp 64 ltac:(lia)) as B1.
  pose proof (N.div_mod (cp / 64) 64 ltac:(lia)) as E2.
  pose proof (N.mod_lt (cp / 64) 64 ltac:(lia)) as B2.
  assert (E3 : cp / 4096 = cp / 64 / 64) by (rewrite N.Div0.div_div; reflexivity).
  rewrite E3. clear E3.
  generalize dependent (cp mod 64). intros r1 E1 B1.
  generalize dependent ((cp / 64) mod 64). intros r2 E2 B2.
  generalize dependent (cp / 64 / 64). intros q2 E2.
  generalize dependent (cp / 64). intros q1 E1 E2.
  destruct (N.ltb_spec cp 128) as [H1 | H1].
  { cbn [app utf8_decode]. now decide_ltb. }
  destruct (N.ltb_spec cp 2048) as [H2 | H2].
  { cbn [app utf8_decode]. decide_ltb. f_equal. lia. }
  destruct (N.ltb_spec cp 65536) as [H3 | H3]; [|lia].
  cbn [app utf8_decode]. decide_ltb. f_equal. lia.
Qed.

Lemma utf8_decode_pair (c d : codeunit) (rest : list N) :
  is_high_surrogate c = true -> is_low_surrogate d = true ->
  utf8_decode (utf8_code_point (65536 + (c - 55296) * 1024 + (d - 56320)) ++ rest)
  = c :: d :: utf8_decode rest.
Proof.
  intros Hc Hd. apply surrogate_ranges in Hc. apply surrogate_ranges in Hd.
  set (cp := 65536 + (c - 55296) * 1024 + (d - 56320)).
  assert (Hcp : 65536 <= cp < 1114112) by (unfold cp; lia).
  assert (Hq : (cp - 65536) / 1024 = c - 55296).
  { unfold cp. replace (65536 + (c - 55296) * 1024 + (d - 56320) - 65536)
      with ((d - 56320) + (c - 55296) * 1024) by lia.
    rewrite N.div_add by lia. rewrite N.div_small by lia. lia. }
  assert (Hr : (cp - 65536) mod 1024 = d - 56320).
  { unfold cp. replace (65536 + (c - 55296) * 1024 + (d - 56320) - 65536)
      with ((d - 56320) + (c - 55296) * 1024) by lia.
    rewrite N.Div0.mod_add. apply N.mod_small. lia. }
  unfold utf8_code_point.
  pose proof (N.div_mod cp 64 ltac:(lia)) as E1.
  pose proof (N.mod_lt cp 64 ltac:(lia)) as B1.
  pose proof (N.div_mod (cp / 64) 64 ltac:(lia)) as E2.
  pose proof (N.mod_lt (cp / 64) 64 ltac:(lia)) as B2.
  pose proof (N.div_mod (cp / 64 / 64) 64 ltac:(lia)) as E3.
  pose proof (N.mod_lt (cp / 64 / 64) 64 ltac:(lia)) as B3.
  assert (F1 : cp / 4096 = cp / 64 / 64) by (rewrite N.Div0.div_div; reflexivity).
  assert (F2 : cp / 262144 = cp / 64 / 64 / 64) by (rewrite !N.Div0.div_div; reflexivity).
  rewrite F1, F2. clear F1 F2.
  decide_ltb.
  cbn [app utf8_decode]. cbv zeta.
  assert (Hback : (240 + cp / 64 / 64 / 64 - 240) * 262144
                  + (128 + (cp / 64 / 64) mod 64 - 128) * 4096
                  + (128 + (cp / 64) mod 64 - 128) * 64
                  + (128 + cp mod 64 - 128) = cp).
  { clearbody cp. clear Hq Hr.
    generalize dependent (cp mod 64). intros r1 E1 B1.
    generalize dependent ((cp / 64) mod 64). intros r2 E2 B2.
    generalize dependent ((cp / 64 / 64) mod 64). intros r3 E3 B3.
    generalize dependent (cp / 64 / 64 / 64). intros q3 E3.
    generalize dependent (cp / 64 / 64). intros q2 E2 E3.
    generalize dependent (cp / 64). intros q1 E1 E2. lia. }
  decide_ltb. rewrite Hback, Hq, Hr. f_equal; [lia|]. f_equal. lia.
Qed.

Lemma usv_string_wf (s : jsstring) : usv_string s = true -> wf_stringb s = true.
Proof.
  remember (List.length s) as n eqn:Hn.
  assert (Hlen : (List.length s <= n)%nat) by lia. clear Hn.
  revert s Hlen. induction n as [|n IH]; intros s Hlen Hs.
  { destruct s; [reflexivity | simpl in Hlen; lia]. }
  destruct s as [|c t]; [reflexivity|]. simpl in Hlen.
  cbn [usv_string] in Hs. cbn [wf_stringb forallb].
  destruct (is_high_surrogate c) eqn:Eh.
  - destruct t as [|d t']; [discriminate|].
    apply andb_true_iff in Hs as [El Hs]. simpl in Hlen.
    apply surrogate_ranges in Eh. apply surrogate_ranges in El.
    cbn [forallb]. fold (wf_stringb t'). rewrite (IH t') by (lia || assumption).
    rewrite (proj2 (N.ltb_lt c 65536)) by lia.
    now rewrite (proj2 (N.ltb_lt d 65536)) by lia.
  - apply andb_true_iff in Hs as [Hs Ht]. apply andb_true_iff in Hs as [_ Hc].
    rewrite Hc. fold (wf_stringb t). rewrite (IH t) by (lia || assumption). reflexivity.
Qed.

Lemma utf8_decode_encode (s : jsstring) :
  usv_string s = true -> utf8_decode (utf8_encode s) = s.
Proof.
  remember (List.length s) as n eqn:Hn.
  assert (Hlen : (List.length s <= n)%nat) by lia. clear Hn.
  revert s Hlen. induction n as [|n IH]; intros s Hlen Hs.
  { destruct s; [reflexivity | simpl in Hlen; lia]. }
  destruct s as [|c t]; [reflexivity|]. simpl in Hlen.
  cbn [usv_string] in Hs. cbn [utf8_encode].
  destruct (is_high_surrogate c) eqn:Eh.
  - destruct t as [|d t']; [discriminate|].
    apply andb_true_iff in Hs as [El Hs]. simpl in Hlen. rewrite El.
    rewrite utf8_decode_pair by assumption.
    now rewrite (IH t') by (lia || assumption).
  - apply andb_true_iff in Hs as [Hs Ht]. apply andb_true_iff in Hs as [Hl Hc].
    apply negb_true_iff in Hl. rewrite Hl. apply N.ltb_lt in Hc.
    rewrite utf8_decode_unit by assumption.
    now rewrite (IH t) by (lia || assumption).
Qed.

(** The form serializer loses nothing of a string without lone
    surrogates. *)
Lemma urlencode_injective (a b : jsstring) :
  usv_string a = true -> usv_string b = true -> urlencode a = urlencode b -> a = b.
Proof.
  intros Ha Hb H. unfold urlencode in H.
  apply (f_equal form_decode) in H.
  rewrite !form_decode_bytes in H by (apply utf8_encode_bytes; now apply usv_string_wf).
  apply (f_equal utf8_decode) in H.
  now rewrite !utf8_decode_encode in H.
Qed.

Local Close Scope N_scope.

Lemma item_of_injective (p q : jsstring * jsstring) :
  usv_string (fst p) && usv_string (snd p) = true ->
  usv_string (fst q) && usv_string (snd q) = true ->
  item_of p = item_of q -> p = q.
Proof.
  destruct p as [k v], q as [k' v']. cbn [fst snd]. intros Hp Hq H.
  apply andb_true_iff in Hp as [Hk Hv]. apply andb_true_iff in Hq as [Hk' Hv'].
  unfold item_of, query_item in H. cbn [fst snd] in H.
  change (lit "=" ++ urlencode v) with (cu "=" :: urlencode v) in H.
  change (lit "=" ++ urlencode v') with (cu "=" :: urlencode v') in H.
  assert (Hsep : forall s, ~ In (cu "=") (urlencode s)).
  { intros s Hin. apply urlencode_not_reserved in Hin. apply Hin. right. now left. }
  apply app_sep_unique in H as [H1 H2]; auto.
  f_equal; now apply urlencode_injective.
Qed.

Lemma items_injective (l l' : StrRecord) :
  usv_record l = true -> usv_record l' = true ->
  List.map item_of l = List.map item_of l' -> l = l'.
Proof.
  revert l'. induction l as [|p l IH]; intros [|q l'] Hl Hl' H; try discriminate.
  - reflexivity.
  - cbn [List.map] in H. injection H as H1 H2.
    unfold usv_record in *. cbn [forallb] in Hl, Hl'.
    apply andb_true_iff in Hl as [Hp Hl]. apply andb_true_iff in Hl' as [Hq Hl'].
    f_equal; [now apply item_of_injective | now apply IH].
Qed.

(** X15. The built URL determines the parameters: for a plain base URL
    and endpoint, two objects of parameters with distinct names other
    than [demo], whose names and values hold no lone surrogate, are
    sent as the same URL only when they are the same object.  The
    percent-encoding loses nothing of an argument. *)
Theorem buildUrl_injective
  (w : World) (base endpoint : jsstring) (params params' : StrRecord) (demo : bool) :
  plain_base base = true ->
  plain_path endpoint = true ->
  distinct (keys params) = true -> str_mem (lit "demo") (keys params) = false ->
  distinct (keys params') = true -> str_mem (lit "demo") (keys params') = false ->
  usv_record params = true -> usv_record params' = true ->
  buildUrl w base endpoint params demo = buildUrl w base endpoint params' demo ->
  params = params'.
Proof.
  intros Hb He Hd Hn Hd' Hn' Hu Hu' H.
  destruct (buildUrl_pairs w base endpoint params demo Hb He)
    as (u & E & _ & _ & Q).
  destruct (buildUrl_pairs w base endpoint params' demo Hb He)
    as (u' & E' & _ & _ & Q').
  assert (Hu0 : u = u') by congruence.
  rewrite Hu0 in Q. rewrite Q' in Q.
  rewrite (final_pairs_fresh params demo Hd Hn) in Q.
  rewrite (final_pairs_fresh params' demo Hd' Hn') in Q.
  rewrite !map_app in Q. apply app_inv_tail in Q. symmetry.
  now apply items_injective.
Qed.

Lemma buildUrl_injective_witness :
  buildUrl (world_answering 200 []) (lit "https://shield.vainplex.dev") (lit "check-url")
    [(lit "url", lit "a b")] true
  = buildUrl (world_answering 200 []) (lit "https://shield.vainplex.dev") (lit "check-url")
      [(lit "url", lit "a b")] true
  /\ [(lit "url", lit "a b")] = [(lit "url", lit "a b")].
Proof.
  split; [reflexivity|].
  apply (buildUrl_injective (world_answering 200 [])
           (lit "https://shield.vainplex.dev") (lit "check-url")
           [(lit "url", lit "a b")] [(lit "url", lit "a b")] true); reflexivity.
Defined.

End QueryRoundTrip.

(* ===================================================================== *)
(** * Integers in a reply *)
(* ===================================================================== *)

Section Integers.
Local Open Scope Z_scope.

(** An integer below 2^53 is a binary64 value. *)
Lemma Frat_int (neg : bool) (n : Z) :
  0 < n < 2 ^ 53 ->
  Frat neg n 1 = Fin neg (n * 2 ^ (52 - Z.log2 n)) (Z.log2 n - 52)
  /\ canonical (Fin neg (n * 2 ^ (52 - Z.log2 n)) (Z.log2 n - 52)).
Proof.
  intros [Hn0 Hn]. pose proof (Z.log2_spec n Hn0) as [Hl Hu].
  pose proof (Z.log2_nonneg n) as Hl0.
  assert (Hl53 : Z.log2 n < 53) by (apply Z.log2_lt_pow2; lia).
  set (l := Z.log2 n) in *.
  pose proof (pow_pos_pos 2 (52 - l) ltac:(lia) ltac:(lia)) as Hc.
  assert (E52 : 2 ^ 52 = 2 ^ l * 2 ^ (52 - l)).
  { rewrite <- Z.pow_add_r by lia. f_equal. lia. }
  assert (E53 : 2 ^ 53 = 2 ^ Z.succ l * 2 ^ (52 - l)).
  { rewrite <- Z.pow_add_r by lia. f_equal. lia. }
  assert (Hcan : canonical (Fin neg (n * 2 ^ (52 - l)) (l - 52))).
  { cbn [canonical]. split; [split; nia|]. split; [lia | left; nia]. }
  split; [|exact Hcan].
  rewrite <- (Frat_canonical neg _ _ Hcan).
  destruct (ratio_pos (n * 2 ^ (52 - l)) (l - 52) ltac:(nia)) as [Hrn Hrd].
  apply Frat_ext; try lia.
  unfold ratio_num, ratio_den in *. rewrite !pow_spec in *.
  destruct (Z.leb_spec 0 (l - 52)) as [H | H].
  - assert (l = 52) by lia. replace (l - 52) with 0 by lia.
    replace (52 - l) with 0 by lia. simpl. lia.
  - replace (- (l - 52)) with (52 - l) by lia. lia.
Qed.

Lemma Frat_int_injective (neg : bool) (n n' : Z) :
  0 < n < 2 ^ 53 -> 0 < n' < 2 ^ 53 -> Frat neg n 1 = Frat neg n' 1 -> n = n'.
Proof.
  intros Hn Hn' H.
  rewrite (proj1 (Frat_int neg n Hn)), (proj1 (Frat_int neg n' Hn')) in H.
  assert (He : Z.log2 n - 52 = Z.log2 n' - 52) by congruence.
  assert (Hm : n * 2 ^ (52 - Z.log2 n) = n' * 2 ^ (52 - Z.log2 n')) by congruence.
  clear H.
  assert (El : Z.log2 n = Z.log2 n') by lia. rewrite El in Hm.
  pose proof (Z.log2_nonneg n') as Hl0.
  assert (Hl53 : Z.log2 n' < 53) by (apply Z.log2_lt_pow2; lia).
  pose proof (pow_pos_pos 2 (52 - Z.log2 n') ltac:(lia) ltac:(lia)).
  apply Z.mul_reg_r in Hm; lia.
Qed.

(** ** The decimal exponent *)

Lemma find_expo_spec (r : Z) (fuel : nat) (j a b : Z) :
  1 <= r -> 0 <= a -> 0 < b ->
  ~ scaled_le r a b (j + 1) ->
  scaled_le r a b (j - Z.of_nat fuel + 1) ->
  exponent_of r a b (find_expo r fuel j a b).
Proof.
  intros Hr Ha Hb. revert j. induction fuel as [|f IH]; intros j Hup Hlow.
  - exfalso. apply Hup. now replace (j + 1) with (j - Z.of_nat 0 + 1) by lia.
  - cbn [find_expo]. destruct (ge_scaled r a b j) eqn:E.
    + split; [now apply ge_scaled_spec | exact Hup].
    + apply IH.
      * replace (j - 1 + 1) with j by lia. intros H.
        apply ge_scaled_spec in H. congruence.
      * now replace (j - 1 - Z.of_nat f + 1) with (j - Z.of_nat (S f) + 1) by lia.
Qed.

Lemma scaled_le_int (b n j : Z) :
  0 < b -> 0 <= j -> (scaled_le 10 (n * b) b j <-> 10 ^ j <= n).
Proof.
  intros Hb Hj. unfold scaled_le. destruct (Z.leb_spec 0 j); [|lia].
  pose proof (pow_pos_pos 10 j ltac:(lia) Hj) as Hp. split; intros Hle; nia.
Qed.

Lemma decimal_exponent_int (b n start : Z) :
  0 < b -> 0 < n -> 0 <= start < 700 -> n < 10 ^ (start + 1) ->
  let d := find_expo 10 700 start (n * b) b + 1 in
  1 <= d /\ 10 ^ (d - 1) <= n < 10 ^ d.
Proof.
  intros Hb Hn Hs Hup. cbv zeta.
  assert (H0 : scaled_le 10 (n * b) b 0) by (apply scaled_le_int; simpl; lia).
  destruct (find_expo_spec 10 700 start (n * b) b) as [Hlow Hhigh]; try lia; try nia.
  - rewrite scaled_le_int by lia. lia.
  - apply (scaled_le_mono 10 (n * b) b 0); try lia; try nia. exact H0.
  - set (j := find_expo 10 700 start (n * b) b) in *.
    assert (Hj : 0 <= j).
    { destruct (Z.le_gt_cases 0 j) as [H | H]; [exact H|].
      exfalso. apply Hhigh.
      apply (scaled_le_mono 10 (n * b) b 0); try lia; try nia. exact H0. }
    rewrite scaled_le_int in Hlow, Hhigh by lia.
    replace (j + 1 - 1) with j by lia. lia.
Qed.

(** ** The digits of an integer *)

Lemma shortest_int (fuel : nat) (k d b n : Z) (x : Number) :
  0 < b -> 0 < n < 10 ^ d -> 1 <= k <= d -> d - k < Z.of_nat fuel ->
  Fdec false n 0 = x ->
  exists s p,
    shortest fuel k d (n * b) b x = Some (s, p)
    /\ 0 <= p /\ 0 <= s /\ s * 10 ^ p <= 10 ^ d /\ Fdec false s p = x.
Proof.
  intros Hb Hn. revert k. induction fuel as [|f IH]; intros k Hk Hf Hx; [lia|].
  cbn [shortest]. rewrite !pow_spec.
  destruct (Z.leb_spec 0 (d - k)) as [Hp | Hp]; [|lia].
  pose proof (pow_pos_pos 10 (d - k) ltac:(lia) Hp) as H10.
  assert (Elo : n * b / (b * 10 ^ (d - k)) = n / 10 ^ (d - k)).
  { rewrite (Z.mul_comm b). apply Z.div_mul_cancel_r; lia. }
  rewrite Elo. set (lo := n / 10 ^ (d - k)).
  assert (Hlo0 : 0 <= lo) by (apply Z.div_pos; lia).
  assert (Hhi : (lo + 1) * 10 ^ (d - k) <= 10 ^ d).
  { assert (E : 10 ^ d = 10 ^ k * 10 ^ (d - k)).
    { rewrite <- Z.pow_add_r by lia. f_equal. lia. }
    assert (lo < 10 ^ k) by (apply Z.div_lt_upper_bound; lia).
    rewrite E. apply Z.mul_le_mono_nonneg_r; lia. }
  destruct (Number_eqb (Fdec false lo (d - k)) x) eqn:Olo;
    destruct (Number_eqb (Fdec false (lo + 1) (d - k)) x) eqn:Ohi; cbn [andb].
  - apply Number_eqb_eq in Olo, Ohi.
    destruct (2 * _ <? _); [exists lo, (d - k); repeat split; auto; nia|].
    destruct (_ <? 2 * _); [exists (lo + 1), (d - k); repeat split; auto; lia|].
    destruct (Z.even lo);
      [exists lo, (d - k) | exists (lo + 1), (d - k)]; repeat split; auto; nia || lia.
  - apply Number_eqb_eq in Olo. exists lo, (d - k). repeat split; auto. nia.
  - apply Number_eqb_eq in Ohi. exists (lo + 1), (d - k). repeat split; auto. lia.
  - assert (Hkd : k < d).
    { destruct (Z.eq_dec k d) as [-> | Hne]; [|lia].
      exfalso. subst lo. rewrite Z.sub_diag in Olo. simpl in Olo.
      rewrite Z.div_1_r in Olo. apply Number_eqb_eq in Hx. congruence. }
    apply IH; [lia | lia | exact Hx].
Qed.

Lemma fold_digits_lower (t : jsstring) (v : Z) :
  forallb is_digit t = true -> 0 <= v ->
  v * 10 ^ Z.of_nat (List.length t)
  <= fold_left (fun acc d => 10 * acc + (Z.of_N d - 48)) t v.
Proof.
  revert v. induction t as [|c t IH]; intros v Ht Hv.
  - simpl. lia.
  - cbn [forallb] in Ht. apply andb_true_iff in Ht as [Hc Ht].
    apply is_digit_range in Hc.
    cbn [fold_left List.length]. rewrite Nat2Z.inj_succ, Z.pow_succ_r by lia.
    specialize (IH (10 * v + (Z.of_N c - 48)) Ht ltac:(lia)).
    pose proof (pow_pos_pos 10 (Z.of_nat (List.length t)) ltac:(lia) ltac:(lia)). nia.
Qed.

Lemma digit_string_lower (ds : jsstring) :
  forallb is_digit ds = true -> ds <> [] -> hd 0%N ds <> 48%N ->
  10 ^ (Z.of_nat (List.length ds) - 1) <= digits_value ds.
Proof.
  destruct ds as [|c t]; [contradiction|]. intros Hd _ Hh.
  cbn [forallb] in Hd. apply andb_true_iff in Hd as [Hc Ht].
  apply is_digit_range in Hc. cbn [hd] in Hh.
  unfold digits_value. cbn [fold_left List.length].
  replace (Z.of_nat (S (List.length t)) - 1) with (Z.of_nat (List.length t)) by lia.
  pose proof (fold_digits_lower t (10 * 0 + (Z.of_N c - 48)) Ht ltac:(lia)) as H.
  pose proof (pow_pos_pos 10 (Z.of_nat (List.length t)) ltac:(lia) ltac:(lia)). nia.
Qed.

Lemma Fdec_int (neg : bool) (s p : Z) : 0 <= p -> Fdec neg s p = Frat neg (s * 10 ^ p) 1.
Proof.
  intros Hp. unfold Fdec. rewrite pow_spec.
  now destruct (Z.leb_spec 0 p); [|lia].
Qed.

Lemma shortest_decimal_int (n : Z) :
  0 < n < 10 ^ 15 ->
  exists s p,
    shortest_decimal (n * 2 ^ (52 - Z.log2 n)) (Z.log2 n - 52) = Some (s, p)
    /\ 0 < s /\ 0 <= p /\ s * 10 ^ p = n.
Proof.
  intros [Hn0 Hn].
  assert (H15 : 10 ^ 15 < 2 ^ 50) by reflexivity.
  assert (H50 : 2 ^ 50 < 2 ^ 53) by reflexivity.
  pose proof (Z.log2_spec n Hn0) as [Hl Hu]. pose proof (Z.log2_nonneg n) as Hl0.
  assert (Hl50 : Z.log2 n < 50) by (apply Z.log2_lt_pow2; lia).
  destruct (Frat_int false n ltac:(lia)) as [Hx Hcan].
  set (l := Z.log2 n) in *. set (b := 2 ^ (52 - l)) in *.
  assert (Hb : 0 < b) by (apply pow_pos_pos; lia).
  unfold shortest_decimal. rewrite !pow_spec.
  destruct (Z.leb_spec 0 (l - 52)) as [H | _]; [lia|].
  replace (- (l - 52)) with (52 - l) by lia. fold b.
  destruct (Z.leb_spec 0 (l - 52 + 53)) as [_ | H]; [|lia].
  set (start := (l - 52 + 53 + 2) / 3).
  assert (Hstart : 0 <= start < 700).
  { subst start. split; [apply Z.div_pos; lia | apply Z.div_lt_upper_bound; lia]. }
  assert (H3 : l + 1 <= 3 * start).
  { subst start. pose proof (Z.div_mod (l - 52 + 53 + 2) 3 ltac:(lia)).
    pose proof (Z.mod_pos_bound (l - 52 + 53 + 2) 3 ltac:(lia)). lia. }
  assert (Hup : n < 10 ^ (start + 1)).
  { apply (Z.lt_le_trans _ (2 ^ Z.succ l)); [exact Hu|].
    apply (Z.le_trans _ (2 ^ (3 * start))); [apply Z.pow_le_mono_r; lia|].
    rewrite Z.pow_mul_r by lia. change (2 ^ 3) with 8.
    apply (Z.le_trans _ (10 ^ start)); [apply Z.pow_le_mono_l; lia|].
    apply Z.pow_le_mono_r; lia. }
  destruct (decimal_exponent_int b n start Hb Hn0 Hstart Hup) as (Hd1 & Hdl & Hdu).
  set (d := find_expo 10 700 start (n * b) b + 1) in *.
  assert (Hd : d <= 15).
  { destruct (Z.le_gt_cases d 15) as [H | H]; [exact H|].
    assert (10 ^ 15 <= 10 ^ (d - 1)) by (apply Z.pow_le_mono_r; lia). lia. }
  assert (Hval : Fdec false n 0 = Fin false (n * b) (l - 52)).
  { rewrite Fdec_int by lia. rewrite Z.pow_0_r, Z.mul_1_r. exact Hx. }
  destruct (shortest_int 1500 1 d b n (Fin false (n * b) (l - 52)) Hb ltac:(lia) ltac:(lia)
              ltac:(lia) Hval) as (s & p & Hs & Hp & Hs0 & Hle & Hsp).
  rewrite Hs.
  assert (H1015 : 10 ^ d <= 10 ^ 15) by (apply Z.pow_le_mono_r; lia).
  assert (Hpos : 0 < s).
  { destruct (Z.eq_dec s 0) as [-> | Hne]; [|lia].
    rewrite Fdec_zero in Hsp. assert (0 = n * b) by congruence. nia. }
  pose proof (pow_pos_pos 10 p ltac:(lia) Hp) as H10p.
  assert (Heq : s * 10 ^ p = n).
  { apply (Frat_int_injective false); [nia | lia|].
    rewrite <- Fdec_int by lia. congruence. }
  destruct (strip_zeros (Z.to_nat (Z.log2 s)) s p) as [s' p'] eqn:Est.
  apply strip_zeros_spec in Est as (Hs' & Hp' & Es); [|assumption].
  exists s', p'. split; [reflexivity|]. split; [assumption|]. split; [lia|].
  rewrite <- Heq, Es, <- Z.mul_assoc, <- Z.pow_add_r by lia.
  do 2 f_equal. lia.
Qed.

Lemma layout_int (s p : Z) :
  0 < s -> 0 <= p -> s * 10 ^ p < 10 ^ 21 -> layout s p = digits s ++ zeros p.
Proof.
  intros Hs Hp Hlt. unfold layout.
  destruct (digits_int s Hs) as [[Hne Hall] Hhd].
  pose proof (digit_string_lower (digits s) Hall Hne Hhd) as Hlow.
  rewrite digits_value_digits in Hlow by lia.
  set (k := Z.of_nat (List.length (digits s))) in *.
  assert (Hk : 1 <= k).
  { subst k. destruct (digits s); [contradiction | simpl; lia]. }
  assert (Hn : p + k <= 21).
  { destruct (Z.le_gt_cases (p + k) 21) as [H | H]; [exact H|].
    pose proof (pow_pos_pos 10 p ltac:(lia) Hp) as H10.
    assert (E : 10 ^ (k - 1) * 10 ^ p = 10 ^ (p + k - 1)).
    { rewrite <- Z.pow_add_r by lia. f_equal. lia. }
    assert (10 ^ 21 <= 10 ^ (p + k - 1)) by (apply Z.pow_le_mono_r; lia).
    nia. }
  destruct (Z.leb_spec k (p + k)); [|lia].
  destruct (Z.leb_spec (p + k) 21); [|lia].
  cbn [andb]. do 2 f_equal. lia.
Qed.

(** X16. An integer between 1 and 10^15 in absolute value is written
    as its plain decimal numeral: the text of the reply is the minus
    sign of a negative integer followed by decimal digits without a
    leading zero, whose value is the integer, with no fraction and no
    exponent. *)
Theorem formatResult_integer (n : Z) :
  0 < Z.abs n < 10 ^ 15 ->
  exists ds,
    content (formatResult (JNumber (Number_of_int n)))
    = [mkContent (lit "text") ((if n <? 0 then lit "-" else []) ++ ds)]
    /\ forallb is_digit ds = true
    /\ hd 0%N ds <> 48%N
    /\ digits_value ds = Z.abs n.
Proof.
  intros Hn. unfold Number_of_int.
  assert (H15 : 10 ^ 15 < 2 ^ 53) by reflexivity.
  assert (H21 : 10 ^ 15 < 10 ^ 21) by reflexivity.
  destruct (Frat_int (n <? 0) (Z.abs n) ltac:(lia)) as [Hx _].
  destruct (shortest_decimal_int (Z.abs n) Hn) as (s & p & Hsd & Hs & Hp & Hval).
  exists (digits s ++ zeros p).
  destruct (digits_int s Hs) as [[Hne Hall] Hhd].
  split; [|split; [|split]].
  - unfold formatResult, JSON_stringify. cbn [content SerializeJSONProperty].
    rewrite Hx. cbn [is_finite Number_toString].
    pose proof (Z.log2_nonneg (Z.abs n)) as Hl0.
    assert (Hl53 : Z.log2 (Z.abs n) < 53) by (apply Z.log2_lt_pow2; lia).
    pose proof (pow_pos_pos 2 (52 - Z.log2 (Z.abs n)) ltac:(lia) ltac:(lia)) as Hc.
    destruct (Z.eqb_spec (Z.abs n * 2 ^ (52 - Z.log2 (Z.abs n))) 0) as [E | _]; [nia|].
    rewrite Hsd, layout_int by lia. reflexivity.
  - rewrite forallb_app, Hall. apply zeros_all_digits.
  - destruct (digits s); [contradiction | exact Hhd].
  - rewrite digits_value_zeros_r, digits_value_digits by lia. exact Hval.
Qed.

Lemma formatResult_integer_witness :
  exists ds,
    content (formatResult (JNumber (Number_of_int (-42))))
    = [mkContent (lit "text") (lit "-" ++ ds)]
    /\ forallb is_digit ds = true
    /\ hd 0%N ds <> 48%N
    /\ digits_value ds = 42.
Proof.
  apply (formatResult_integer (-42)). cbn. lia.
Defined.

End Integers.
